(** * AirCat: the file-source playback engine and the module start-up loop

    A shallow embedding of [modules/files.c] (playlist state machine,
    current/previous stream hand-off, HTTP handlers) and of the module
    opening loop of [src/main.c], with the properties of the design
    document stated and proved over it.

    Conventions.
    - C [int] values are [Z]; the playlist array together with its
      [playlist_len] counter is a [list] of the live entries, so
      [playlist_len] is the length of that list.  [playlist_alloc] stays a
      field: it is the capacity the array was (re)allocated with.
    - Pointers that may be [NULL] are [option]s.  Stream and file handles
      are natural numbers handed out by the facades.
    - Every engine function is a computation in the monad [M]: it takes the
      handle state and yields [Done r h'] (return value and new state),
      [Fault] (the C code performs an out-of-bounds access or overflows a
      signed counter: undefined behaviour) or [Stalled] (a loop ran out of
      the iteration budget of the model; proved not to happen).
    - The mutex calls have no sequential meaning and are left out: every
      function below is one critical section. Memory allocation is assumed
      to succeed, and the handle and its output are not [NULL] (the guards
      [h == NULL] and [h->output == NULL] are not taken).  What a callback
      of the module does when it is handed [NULL] or the address of
      another object is modelled apart, by [run_entry]. *)

From Stdlib Require Import ZArith Lia.
From stdpp Require Import base gmap sets list strings.

Local Open Scope Z_scope.
Set Warnings "-clear-no-such-hyp".

(** * The dispatcher's route tables (httpd.h) *)

Module Httpd.

Inductive http_method : Type := HTTPD_GET | HTTPD_PUT.

(** One line of a [struct url_table]: path, [HTTPD_EXT_URL] flag, method
    mask, [HTTPD_JSON] upload flag.  The handler is named by its path. *)
Record url_table := {
  url : string;
  extended : bool;
  methods : list http_method;
  json_body : bool
}.

End Httpd.

(** * Configuration values (json.h) *)

Module Json.

#[local] Unset Elimination Schemes.
Inductive json : Type :=
| JNull
| JInt (z : Z)
| JString (s : string)
| JArray (items : list json)
| JObject (members : list (string * json)).
#[local] Set Elimination Schemes.

(** Modelled from the spec: [json_new] and [json_new_array] of json.h,
    absent from the sources; a new object has no member, a new array no
    element. *)
Definition json_new : json := JObject [].
Definition json_new_array : json := JArray [].

(** Modelled from the spec: [json_add] of json.h, absent from the
    sources.  The member [key] of an object becomes [v]; a member of that
    name is replaced. *)
Definition json_add (c : json) (key : string) (v : json) : json :=
  match c with
  | JObject l => JObject (filter (λ kv, kv.1 ≠ key) l ++ [(key, v)])
  | _ => c
  end.

(** Modelled from the spec: [json_set_string] and [json_set_int] of
    json.h, absent from the sources; a [NULL] string gives a null member. *)
Definition json_set_string (c : json) (key : string) (v : option string) : json :=
  json_add c key (match v with Some x => JString x | None => JNull end).

Definition json_set_int (c : json) (key : string) (z : Z) : json :=
  json_add c key (JInt z).

(** Modelled from the spec: [json_array_add] of json.h, absent from the
    sources; the element is appended. *)
Definition json_array_add (c : json) (v : json) : json :=
  match c with
  | JArray l => JArray (l ++ [v])
  | _ => c
  end.

Fixpoint assoc (key : string) (l : list (string * json)) : option json :=
  match l with
  | [] => None
  | (k, v) :: l' => if bool_decide (k = key) then Some v else assoc key l'
  end.

(** The member [key] of an object, if any. *)
Definition json_get (c : json) (key : string) : option json :=
  match c with
  | JObject l => assoc key l
  | _ => None
  end.

(** Modelled from the spec: [json_get_string] of json.h, absent from the
    sources; [NULL] unless [key] is a member holding a string. *)
Definition json_get_string (c : json) (key : string) : option string :=
  match json_get c key with
  | Some (JString x) => Some x
  | _ => None
  end.

End Json.

(** * The file-source module (modules/files.c) *)

Module Files.

(** ** Data model *)

Definition PLAYLIST_ALLOC_SIZE : Z := 32.
Definition INT_MAX : Z := 2147483647.

(** Parsed tags of a media file ([struct file_format] of file.h). *)
Record file_format := {
  title : option string;
  artist : option string;
  album : option string;
  comment : option string;
  genre : option string;
  track : Z;
  year : Z;
  picture : option string;
  mime : option string
}.

(** [struct files_playlist]. *)
Record files_playlist := {
  filename : string;
  format : option file_format
}.

(** The media library as seen through the Decoder/Tag facade (file.c is not
    part of the sources): which paths parse, and which paths open. *)
Record media := {
  file_format_parse : string → option file_format;
  file_can_open : string → bool
}.

(** State of the Output facade reachable from [h->output]: the registered
    streams, each with its running flag, and the next stream handle. *)
Record output_handle := {
  streams : gmap nat bool;
  next_stream : nat
}.

(** State of the Decoder facade: the file handles that are allocated and
    not yet closed, and the next file handle. *)
Record decoder := {
  opened : gset nat;
  next_file : nat
}.

(** [struct files_handle].  [files] is not a C field: it is the part of
    the heap owned by the Decoder facade, threaded with the handle. *)
Record files_handle := {
  output : output_handle;
  file : option nat;
  stream : option nat;
  prev_file : option nat;
  prev_stream : option nat;
  is_playing : bool;
  playlist : list files_playlist;
  playlist_alloc : Z;
  playlist_cur : Z;
  stop : bool;
  path : string;
  files : decoder
}.

Definition playlist_len (h : files_handle) : Z := Z.of_nat (length (playlist h)).

(** Field updates. *)
Definition set_output (o : output_handle) (h : files_handle) : files_handle :=
  {| output := o; file := file h; stream := stream h;
     prev_file := prev_file h; prev_stream := prev_stream h;
     is_playing := is_playing h; playlist := playlist h;
     playlist_alloc := playlist_alloc h; playlist_cur := playlist_cur h;
     stop := stop h; path := path h; files := files h |}.

Definition set_file (f : option nat) (h : files_handle) : files_handle :=
  {| output := output h; file := f; stream := stream h;
     prev_file := prev_file h; prev_stream := prev_stream h;
     is_playing := is_playing h; playlist := playlist h;
     playlist_alloc := playlist_alloc h; playlist_cur := playlist_cur h;
     stop := stop h; path := path h; files := files h |}.

Definition set_stream (s : option nat) (h : files_handle) : files_handle :=
  {| output := output h; file := file h; stream := s;
     prev_file := prev_file h; prev_stream := prev_stream h;
     is_playing := is_playing h; playlist := playlist h;
     playlist_alloc := playlist_alloc h; playlist_cur := playlist_cur h;
     stop := stop h; path := path h; files := files h |}.

Definition set_prev_file (f : option nat) (h : files_handle) : files_handle :=
  {| output := output h; file := file h; stream := stream h;
     prev_file := f; prev_stream := prev_stream h;
     is_playing := is_playing h; playlist := playlist h;
     playlist_alloc := playlist_alloc h; playlist_cur := playlist_cur h;
     stop := stop h; path := path h; files := files h |}.

Definition set_prev_stream (s : option nat) (h : files_handle) : files_handle :=
  {| output := output h; file := file h; stream := stream h;
     prev_file := prev_file h; prev_stream := s;
     is_playing := is_playing h; playlist := playlist h;
     playlist_alloc := playlist_alloc h; playlist_cur := playlist_cur h;
     stop := stop h; path := path h; files := files h |}.

Definition set_is_playing (b : bool) (h : files_handle) : files_handle :=
  {| output := output h; file := file h; stream := stream h;
     prev_file := prev_file h; prev_stream := prev_stream h;
     is_playing := b; playlist := playlist h;
     playlist_alloc := playlist_alloc h; playlist_cur := playlist_cur h;
     stop := stop h; path := path h; files := files h |}.

Definition set_playlist (l : list files_playlist) (h : files_handle) : files_handle :=
  {| output := output h; file := file h; stream := stream h;
     prev_file := prev_file h; prev_stream := prev_stream h;
     is_playing := is_playing h; playlist := l;
     playlist_alloc := playlist_alloc h; playlist_cur := playlist_cur h;
     stop := stop h; path := path h; files := files h |}.

Definition set_playlist_alloc (a : Z) (h : files_handle) : files_handle :=
  {| output := output h; file := file h; stream := stream h;
     prev_file := prev_file h; prev_stream := prev_stream h;
     is_playing := is_playing h; playlist := playlist h;
     playlist_alloc := a; playlist_cur := playlist_cur h;
     stop := stop h; path := path h; files := files h |}.

Definition set_playlist_cur (c : Z) (h : files_handle) : files_handle :=
  {| output := output h; file := file h; stream := stream h;
     prev_file := prev_file h; prev_stream := prev_stream h;
     is_playing := is_playing h; playlist := playlist h;
     playlist_alloc := playlist_alloc h; playlist_cur := c;
     stop := stop h; path := path h; files := files h |}.

Definition set_files (d : decoder) (h : files_handle) : files_handle :=
  {| output := output h; file := file h; stream := stream h;
     prev_file := prev_file h; prev_stream := prev_stream h;
     is_playing := is_playing h; playlist := playlist h;
     playlist_alloc := playlist_alloc h; playlist_cur := playlist_cur h;
     stop := stop h; path := path h; files := d |}.

(** ** The monad of engine computations *)

Inductive outcome (A : Type) : Type :=
| Done (a : A) (h : files_handle)
| Fault
| Stalled.
Arguments Done {A} a h.
Arguments Fault {A}.
Arguments Stalled {A}.

Definition M (A : Type) : Type := files_handle → outcome A.

Definition ret {A} (a : A) : M A := λ h, Done a h.

Definition bind {A B} (c : M A) (k : A → M B) : M B :=
  λ h, match c h with
       | Done a h' => k a h'
       | Fault => Fault
       | Stalled => Stalled
       end.

Definition get : M files_handle := λ h, Done h h.
Definition modify (f : files_handle → files_handle) : M unit := λ h, Done tt (f h).
Definition fault {A} : M A := λ _, Fault.

Notation "'do' x <- c ; k" := (bind c (λ x, k))
  (at level 10, x name, c at level 100, k at level 200).
Notation "c ;; k" := (bind c (λ _, k))
  (at level 100, k at level 200, right associativity).

(** ** The facades, as far as the engine observes them

    output.c and file.c are not among the sources.  Handles are allocated
    in increasing order, so a new handle differs from every handle in use. *)

(** Modelled from the spec: [output_add_stream] of output.c, absent from
    the sources.  The Output facade "accepts stream registration": a new
    stream is registered, not yet running, and its handle returned. *)
Definition output_add_stream (o : output_handle) : nat * output_handle :=
  (next_stream o,
   {| streams := <[next_stream o := false]> (streams o);
      next_stream := S (next_stream o) |}).

(** Modelled from the spec: [output_play_stream] of output.c, absent from
    the sources ("play/pause/remove a stream"). *)
Definition output_play_stream (o : output_handle) (s : option nat) : output_handle :=
  match s with
  | Some i => {| streams := alter (λ _, true) i (streams o);
                 next_stream := next_stream o |}
  | None => o
  end.

(** Modelled from the spec: [output_pause_stream] of output.c, absent from
    the sources ("play/pause/remove a stream"). *)
Definition output_pause_stream (o : output_handle) (s : option nat) : output_handle :=
  match s with
  | Some i => {| streams := alter (λ _, false) i (streams o);
                 next_stream := next_stream o |}
  | None => o
  end.

(** Modelled from the spec: [output_remove_stream] of output.c, absent
    from the sources ("play/pause/remove a stream"). *)
Definition output_remove_stream (o : output_handle) (s : nat) : output_handle :=
  {| streams := delete s (streams o); next_stream := next_stream o |}.

(** Modelled from the spec: [file_open] of file.c, absent from the sources
    (the Decoder facade "opens a media path").  It follows the allocation
    idiom of the repository, [*handle = malloc(...)] first, as [files_open]
    does: the slot receives a new handle even when the open fails, and the
    caller disposes of it with [file_close]. *)
Definition file_open (fs : media) (d : decoder) (name : string)
  : Z * option nat * decoder :=
  (if file_can_open fs name then 0 else -1,
   Some (next_file d),
   {| opened := {[ next_file d ]} ∪ opened d; next_file := S (next_file d) |}).

(** Modelled from the spec: [file_close] of file.c, absent from the
    sources; the engine calls it on [NULL] freely, which does nothing. *)
Definition file_close (d : decoder) (f : option nat) : decoder :=
  match f with
  | Some i => {| opened := opened d ∖ {[ i ]}; next_file := next_file d |}
  | None => d
  end.

Section Engine.

Context (fs : media).

(** [h->playlist[i]]: reading outside the live entries is a fault. *)
Definition playlist_at (i : Z) : M files_playlist :=
  λ h, if i <? 0 then Fault
       else match playlist h !! Z.to_nat i with
            | Some p => Done p h
            | None => Fault
            end.

(** [files_open], after a successful allocation and thread creation; the
    configured root is what [files_set_config] stored. *)
Definition files_open (o : output_handle) (d : decoder) (root : string) : files_handle :=
  {| output := o; file := None; stream := None;
     prev_file := None; prev_stream := None;
     is_playing := false; playlist := [];
     playlist_alloc := PLAYLIST_ALLOC_SIZE; playlist_cur := -1;
     stop := false; path := root; files := d |}.

Definition files_new_player : M Z :=
  do h <- get;
  do p <- playlist_at (playlist_cur h);
  let '(st, f, d) := file_open fs (files h) (filename p) in
  modify (set_files d) ;;
  modify (set_file f) ;;
  if negb (st =? 0) then
    modify (λ h, set_files (file_close (files h) (file h)) h) ;;
    modify (set_file None) ;;
    modify (set_stream None) ;;
    ret (-1)
  else
    do h <- get;
    let '(s, o) := output_add_stream (output h) in
    modify (set_output o) ;;
    modify (set_stream (Some s)) ;;
    modify (λ h, set_output (output_play_stream (output h) (stream h)) h) ;;
    ret 0.

(** The first lines of [files_play_next] and [files_play_prev], and the
    tail of [files_next] and [files_prev]: remove the previous stream from
    the output (if any) and close the previous file. *)
Definition close_previous : M unit :=
  do h <- get;
  (match prev_stream h with
   | Some s => modify (set_output (output_remove_stream (output h) s))
   | None => ret tt
   end) ;;
  modify (λ h, set_files (file_close (files h) (prev_file h)) h).

Definition move_current_to_previous : M unit :=
  modify (λ h, set_prev_stream (stream h) h) ;;
  modify (λ h, set_prev_file (file h) h).

Fixpoint play_next_loop (fuel : nat) : M unit :=
  do h <- get;
  if playlist_cur h <=? playlist_len h then
    match fuel with
    | O => λ _, Stalled
    | S fuel' =>
        modify (set_playlist_cur (playlist_cur h + 1)) ;;
        do h <- get;
        if playlist_cur h >=? playlist_len h then
          modify (set_playlist_cur (-1)) ;;
          modify (set_stream None) ;;
          modify (set_file None)
        else
          do r <- files_new_player;
          if negb (r =? 0) then play_next_loop fuel' else ret tt
    end
  else ret tt.

Definition files_play_next : M unit :=
  close_previous ;;
  move_current_to_previous ;;
  do h <- get;
  play_next_loop (S (Z.to_nat (playlist_len h - playlist_cur h))).

Fixpoint play_prev_loop (fuel : nat) : M unit :=
  do h <- get;
  if playlist_cur h >=? 0 then
    match fuel with
    | O => λ _, Stalled
    | S fuel' =>
        modify (set_playlist_cur (playlist_cur h - 1)) ;;
        do h <- get;
        if playlist_cur h <? 0 then
          modify (set_playlist_cur (-1)) ;;
          modify (set_stream None) ;;
          modify (set_file None)
        else
          do r <- files_new_player;
          if negb (r =? 0) then play_prev_loop fuel' else ret tt
    end
  else ret tt.

Definition files_play_prev : M unit :=
  close_previous ;;
  move_current_to_previous ;;
  do h <- get;
  play_prev_loop (S (Z.to_nat (playlist_cur h + 1))).

(** One wake-up of [files_thread].  [at_end] is what the Decoder facade
    answers for the current file:
    [file_get_pos >= file_get_length - 1 || file_get_status == FILE_EOF]. *)
Definition files_thread_step (at_end : bool) : M unit :=
  do h <- get;
  if negb (playlist_cur h =? -1) && (playlist_cur h + 1 <=? playlist_len h) then
    if bool_decide (file h ≠ None) && at_end then files_play_next else ret tt
  else ret tt.

(** [files_add]; [name] is [None] for a [NULL] file name.  The sum
    [playlist_alloc + PLAYLIST_ALLOC_SIZE] is formed on [int], so it has no
    defined result past [INT_MAX]; its product with the entry size is
    formed in [size_t], taken to be 64 bits wide. *)
Definition files_add (name : option string) : M Z :=
  match name with
  | None => ret (-1)
  | Some filename =>
      do h <- get;
      let real_path := (path h +:+ "/" +:+ filename)%string in
      (if playlist_len h =? playlist_alloc h then
         (* [playlist_alloc + PLAYLIST_ALLOC_SIZE] on an [int] *)
         if INT_MAX - PLAYLIST_ALLOC_SIZE <? playlist_alloc h then fault else
         modify (set_playlist_alloc (playlist_alloc h + PLAYLIST_ALLOC_SIZE))
       else ret tt) ;;
      do h <- get;
      (* the slot [playlist[playlist_len]] must lie inside the array *)
      if playlist_alloc h <=? playlist_len h then fault else
      (* [playlist_len++] on an [int] *)
      if INT_MAX <=? playlist_len h then fault else
      modify (set_playlist
                (playlist h ++ [ {| filename := real_path;
                                    format := file_format_parse fs real_path |} ])) ;;
      do h <- get;
      ret (playlist_len h - 1)
  end.

Definition files_stop : M Z :=
  modify (set_is_playing false) ;;
  do h <- get;
  (match stream h with
   | Some s => modify (λ h, set_output (output_remove_stream (output h) s) h)
   | None => ret tt
   end) ;;
  (match prev_stream h with
   | Some s => modify (λ h, set_output (output_remove_stream (output h) s) h)
   | None => ret tt
   end) ;;
  modify (set_stream None) ;;
  modify (set_prev_stream None) ;;
  modify (λ h, set_files (file_close (files h) (file h)) h) ;;
  modify (λ h, set_files (file_close (files h) (prev_file h)) h) ;;
  modify (set_file None) ;;
  modify (set_prev_file None) ;;
  modify (set_playlist_cur (-1)) ;;
  ret 0.

(** [files_remove].  [files_free_playlist(&h->playlist[index])] reads the
    entry; the [memmove] count [(playlist_len - index - 1) * sizeof ...] is
    converted to [size_t], so a negative count asks for a move of almost
    the whole address space. The [memmove] and [playlist_len--] together
    delete the entry from the live list. *)
Definition files_remove (index : Z) : M Z :=
  do h <- get;
  (if playlist_cur h =? index then
     files_stop ;;
     modify (set_playlist_cur (-1))
   else if playlist_cur h >? index then
     modify (set_playlist_cur (playlist_cur h - 1))
   else ret tt) ;;
  playlist_at index ;;
  do h <- get;
  if playlist_len h - index - 1 <? 0 then fault else
  modify (set_playlist (delete (Z.to_nat index) (playlist h))) ;;
  ret 0.

(** [files_flush]: the loop frees every entry, then the length is reset. *)
Definition files_flush : M unit :=
  files_stop ;;
  modify (set_playlist []) ;;
  modify (set_playlist_cur (-1)).

(** "Get last played index": [-1] stands for the current index, or for
    [0] when nothing is current. *)
Definition play_index (h : files_handle) (index : Z) : Z :=
  if index =? -1 then
    if playlist_cur h <? 0 then 0 else playlist_cur h
  else index.

Definition files_play (index : Z) : M Z :=
  do h <- get;
  let index := play_index h index in
  if index >=? playlist_len h then ret (-1) else
  files_stop ;;
  modify (set_playlist_cur index) ;;
  do r <- files_new_player;
  if negb (r =? 0) then
    modify (set_playlist_cur (-1)) ;;
    modify (set_is_playing false) ;;
    ret (-1)
  else
    modify (set_is_playing true) ;;
    ret 0.

Definition files_pause : M Z :=
  do h <- get;
  (match stream h with
   | Some _ =>
       if negb (is_playing h) then
         modify (set_is_playing true) ;;
         modify (λ h, set_output (output_play_stream (output h) (stream h)) h)
       else
         modify (set_is_playing false) ;;
         modify (λ h, set_output (output_pause_stream (output h) (stream h)) h)
   | None => ret tt
   end) ;;
  ret 0.

Definition files_prev : M Z :=
  do h <- get;
  (if negb (playlist_cur h =? -1) && (playlist_cur h >=? 0) then
     files_play_prev ;;
     close_previous ;;
     modify (set_prev_stream None) ;;
     modify (set_prev_file None)
   else ret tt) ;;
  ret 0.

Definition files_next : M Z :=
  do h <- get;
  (if negb (playlist_cur h =? -1) && (playlist_cur h + 1 <=? playlist_len h) then
     files_play_next ;;
     close_previous ;;
     modify (set_prev_stream None) ;;
     modify (set_prev_file None)
   else ret tt) ;;
  ret 0.

(** ** HTTP handlers: status code and optional body.  The index of
    [/playlist/play/<index>] and [/playlist/remove/<index>] is the [int]
    that [atoi] read from the resource. *)

Definition response : Type := Z * option string.

Definition files_httpd_playlist_add (resource : option string) : M response :=
  do idx <- files_add resource;
  if idx <? 0 then ret (406, Some "File is not supported"%string)
  else ret (200, None).

Definition files_httpd_playlist_play (idx : Z) : M response :=
  if idx <? 0 then ret (400, Some "Bad index"%string) else
  do r <- files_play idx;
  if negb (r =? 0) then ret (500, Some "Playlist error"%string)
  else ret (200, None).

Definition files_httpd_playlist_remove (idx : Z) : M response :=
  if idx <? 0 then ret (400, Some "Bad index"%string) else
  do r <- files_remove idx;
  if negb (r =? 0) then ret (500, Some "Playlist error"%string)
  else ret (200, None).

Definition files_httpd_playlist_flush : M response :=
  files_flush ;; ret (200, None).

Definition files_httpd_play (resource : string) : M response :=
  let play_now (idx : Z) : M response :=
    do r <- files_play idx;
    if negb (r =? 0) then ret (406, Some "Cannot play the file"%string)
    else ret (200, None) in
  if bool_decide (resource ≠ ""%string) then
    do idx <- files_add (Some resource);
    if idx <? 0 then ret (406, Some "File is not supported"%string)
    else play_now idx
  else play_now (-1).

Definition files_httpd_pause : M response := files_pause ;; ret (200, None).
Definition files_httpd_stop : M response := files_stop ;; ret (200, None).
Definition files_httpd_prev : M response := files_prev ;; ret (200, None).
Definition files_httpd_next : M response := files_next ;; ret (200, None).

(** ** Operation sequences *)

Inductive op : Type :=
| OpAdd (name : option string)
| OpRemove (index : Z)
| OpFlush
| OpPlay (index : Z)
| OpPause
| OpStop
| OpNext
| OpPrev
| OpWatch (at_end : bool).

Definition run_op (o : op) : M unit :=
  match o with
  | OpAdd name => files_add name ;; ret tt
  | OpRemove index => files_remove index ;; ret tt
  | OpFlush => files_flush
  | OpPlay index => files_play index ;; ret tt
  | OpPause => files_pause ;; ret tt
  | OpStop => files_stop ;; ret tt
  | OpNext => files_next ;; ret tt
  | OpPrev => files_prev ;; ret tt
  | OpWatch at_end => files_thread_step at_end
  end.

Fixpoint run_ops (l : list op) : M unit :=
  match l with
  | [] => ret tt
  | o :: l' => run_op o ;; run_ops l'
  end.

End Engine.

(** The route table of the module ([files_url]). *)
Definition files_url : list Httpd.url_table :=
  let ext := true in
  let put := [Httpd.HTTPD_PUT] in
  let get := [Httpd.HTTPD_GET] in
  let row u e m := {| Httpd.url := u; Httpd.extended := e;
                      Httpd.methods := m; Httpd.json_body := false |} in
  [ row "/playlist/add/"%string ext put;
    row "/playlist/play/"%string ext put;
    row "/playlist/remove/"%string ext put;
    row "/playlist/flush"%string false put;
    row "/playlist"%string false get;
    row "/play"%string ext put;
    row "/pause"%string false put;
    row "/stop"%string false put;
    row "/prev"%string false put;
    row "/next"%string false put;
    row "/seek/"%string ext put;
    row "/status"%string ext get;
    row "/list"%string ext get ].

(** ** Predicates of the design document *)

(** [cur ∈ {-1} ∪ [0, length)]. *)
Definition cur_in_range (h : files_handle) : Prop :=
  playlist_cur h = -1 ∨ 0 ≤ playlist_cur h < playlist_len h.

(** STOPPED: [cur = -1] and no active stream. *)
Definition STOPPED (h : files_handle) : Prop :=
  playlist_cur h = -1 ∧ stream h = None.

Definition handle_set (o : option nat) : gset nat :=
  match o with
  | Some i => {[ i ]}
  | None => ∅
  end.

(** [entry_opens fs h i]: entry [i] exists and its resource opens. *)
Definition entry_opens (fs : media) (h : files_handle) (i : Z) : Prop :=
  0 ≤ i ∧ ∃ p, playlist h !! Z.to_nat i = Some p ∧ file_can_open fs (filename p) = true.

Definition entry_fails (fs : media) (h : files_handle) (i : Z) : Prop :=
  0 ≤ i ∧ ∃ p, playlist h !! Z.to_nat i = Some p ∧ file_can_open fs (filename p) = false.

(** The streams registered at the output are the current one and the
    single previous one, the open files likewise; the two slots never
    alias, and handles in use are older than the next handle. *)
Record resources_ok (h : files_handle) : Prop := {
  streams_owned :
    dom (streams (output h)) = handle_set (stream h) ∪ handle_set (prev_stream h);
  files_owned :
    opened (files h) = handle_set (file h) ∪ handle_set (prev_file h);
  streams_old : ∀ s, s ∈ dom (streams (output h)) → (s < next_stream (output h))%nat;
  files_old : ∀ f, f ∈ opened (files h) → (f < next_file (files h))%nat;
  streams_apart : ∀ s, stream h = Some s → prev_stream h ≠ Some s;
  files_apart : ∀ f, file h = Some f → prev_file h ≠ Some f
}.

(** The invariant of the engine between two operations. *)
Definition wf (h : files_handle) : Prop :=
  cur_in_range h ∧ resources_ok h ∧ playlist_len h ≤ playlist_alloc h.

(** What a scan of the playlist ([files_play_next], [files_play_prev])
    leaves alone, and where its new handles come from. *)
Record scan_frame (h h' : files_handle) : Prop := {
  frame_playlist : playlist h' = playlist h;
  frame_prev_stream : prev_stream h' = prev_stream h;
  frame_prev_file : prev_file h' = prev_file h;
  frame_is_playing : is_playing h' = is_playing h;
  frame_alloc : playlist_alloc h' = playlist_alloc h;
  frame_path : path h' = path h;
  frame_stream_new : ∀ s, stream h' = Some s → (next_stream (output h) ≤ s)%nat;
  frame_file_new : ∀ f, file h' = Some f → (next_file (files h) ≤ f)%nat;
  frame_next_stream : (next_stream (output h) ≤ next_stream (output h'))%nat;
  frame_next_file : (next_file (files h) ≤ next_file (files h'))%nat
}.

(** The state in which a scan ends when it runs off the playlist. *)
Definition scan_ended (h : files_handle) : files_handle :=
  set_file None (set_stream None (set_playlist_cur (-1) h)).

(** The state after the previous pair has been released (the previous
    slot still names it). *)
Definition released_previous (h : files_handle) : files_handle :=
  set_files (file_close (files h) (prev_file h))
    (set_output
       (match prev_stream h with
        | Some s => output_remove_stream (output h) s
        | None => output h
        end) h).

(** The state in which a scan starts: the previous pair released, the
    current pair copied into the previous slot. *)
Definition handed_over (h : files_handle) : files_handle :=
  set_prev_file (file h) (set_prev_stream (stream h) (released_previous h)).

(** The state after [files_next] and [files_prev] have released the pair
    they have just superseded. *)
Definition dropped_previous (h : files_handle) : files_handle :=
  set_prev_file None (set_prev_stream None (released_previous h)).

(** The state [files_stop] leaves behind. *)
Definition stopped (h : files_handle) : files_handle :=
  {| output :=
       let o := match stream h with
                | Some s => output_remove_stream (output h) s
                | None => output h
                end in
       match prev_stream h with
       | Some s => output_remove_stream o s
       | None => o
       end;
     file := None; stream := None; prev_file := None; prev_stream := None;
     is_playing := false; playlist := playlist h;
     playlist_alloc := playlist_alloc h; playlist_cur := -1;
     stop := stop h; path := path h;
     files := file_close (file_close (files h) (file h)) (prev_file h) |}.

(** The state [files_new_player] leaves behind when the file opens: a new
    file handle and a new, running stream. *)
Definition player_started (h : files_handle) : files_handle :=
  {| output :=
       {| streams := alter (λ _, true) (next_stream (output h))
                       (<[next_stream (output h) := false]> (streams (output h)));
          next_stream := S (next_stream (output h)) |};
     file := Some (next_file (files h));
     stream := Some (next_stream (output h));
     prev_file := prev_file h; prev_stream := prev_stream h;
     is_playing := is_playing h; playlist := playlist h;
     playlist_alloc := playlist_alloc h; playlist_cur := playlist_cur h;
     stop := stop h; path := path h;
     files := {| opened := {[ next_file (files h) ]} ∪ opened (files h);
                 next_file := S (next_file (files h)) |} |}.

(** The state it leaves behind when the file does not open: the handle
    that [file_open] allocated is closed again, nothing is current. *)
Definition player_failed (h : files_handle) : files_handle :=
  {| output := output h;
     file := None; stream := None;
     prev_file := prev_file h; prev_stream := prev_stream h;
     is_playing := is_playing h; playlist := playlist h;
     playlist_alloc := playlist_alloc h; playlist_cur := playlist_cur h;
     stop := stop h; path := path h;
     files := {| opened := ({[ next_file (files h) ]} ∪ opened (files h))
                             ∖ {[ next_file (files h) ]};
                 next_file := S (next_file (files h)) |} |}.

(** Total-correctness triple: the run ends, without fault, in [Q]. *)
Definition total {A} (c : M A) (h : files_handle) (Q : A → files_handle → Prop) : Prop :=
  match c h with
  | Done a h' => Q a h'
  | Fault => False
  | Stalled => False
  end.

(** Partial-correctness triple for [M]: a run that ends satisfies [Q]; a
    fault satisfies anything; the iteration budget is never exhausted. *)
Definition post {A} (c : M A) (h : files_handle) (Q : A → files_handle → Prop) : Prop :=
  match c h with
  | Done a h' => Q a h'
  | Fault => True
  | Stalled => False
  end.

(** Facades in their initial state: no stream, no open file. *)
Definition output_init : output_handle := {| streams := ∅; next_stream := 0 |}.
Definition decoder_init : decoder := {| opened := ∅; next_file := 0 |}.

(** ** Status, playlist and directory listings *)

(** [S_IFREG] and [S_IFDIR] of sys/stat.h (0100000 and 0040000). *)
Definition S_IFREG : Z := 32768.
Definition S_IFDIR : Z := 16384.

(** The extensions that [files_get_json_list] accepts, in its order. *)
Definition ext : list string :=
  [".mp3"; ".m4a"; ".mp4"; ".aac"; ".ogg"; ".wav"]%string.

(** The string literal that [files_get_json_status] returns when nothing
    is current: an object whose member [file] is null. *)
Definition status_none : string :=
  let q := String (Ascii.ascii_of_nat 34) EmptyString in
  ("{ " +:+ q +:+ "file" +:+ q +:+ ": null }")%string.

Section Listing.

(** The media library; the C library's [basename] of libgen.h, which
    takes a [char *] and may write into it (it cuts trailing slashes off
    in place): the name it returns, and what it leaves in the string it
    was given; [json_export] and [base64_encode] of the absent utility
    code; what the Decoder facade answers for position and length of a
    file handle; and the directory tree: [opendir] with [readdir] gives
    the entry names of a directory in order (nothing when it cannot be
    opened), [stat] the mode of a path (nothing when it fails). *)
Context (fs : media)
        (basename : string → string * string)
        (json_export : option Json.json → string)
        (base64_encode : string → string)
        (file_get_pos file_get_length : option nat → Z)
        (opendir : string → option (list string))
        (stat : string → option Z).

(** [files_get_file_json_object]. *)
Definition files_get_file_json_object (name : option string)
    (meta : option file_format) (add_pic : bool) : option Json.json :=
  match name with
  | None => None
  | Some filename =>
      let tmp := Json.json_new in
      let tmp := Json.json_set_string tmp "file" (Some filename) in
      Some
        match meta with
        | None => tmp
        | Some meta =>
            let tmp := Json.json_set_string tmp "title" (title meta) in
            let tmp := Json.json_set_string tmp "artist" (artist meta) in
            let tmp := Json.json_set_string tmp "album" (album meta) in
            let tmp := Json.json_set_string tmp "comment" (comment meta) in
            let tmp := Json.json_set_string tmp "genre" (genre meta) in
            let tmp := Json.json_set_int tmp "track" (track meta) in
            let tmp := Json.json_set_int tmp "year" (year meta) in
            let pic :=
              if add_pic then base64_encode <$> picture meta else None in
            let tmp := Json.json_set_string tmp "picture" pic in
            Json.json_set_string tmp "mime" (mime meta)
        end
  end.

(** [str = basename(h->playlist[i].filename)] for one entry: the name, and
    the entry with its file name as the call left it. *)
Definition basename_of (p : files_playlist) : string * files_playlist :=
  let '(str, kept) := basename (filename p) in
  (str, {| filename := kept; format := format p |}).

(** [files_get_json_status]. *)
Definition files_get_json_status (add_pic : bool) : M string :=
  do h <- get;
  let idx := playlist_cur h in
  if idx <? 0 then ret status_none else
  do p <- playlist_at idx;
  let '(str, p') := basename_of p in
  modify (set_playlist (<[Z.to_nat idx := p']> (playlist h))) ;;
  let tmp := files_get_file_json_object (Some str) (format p) add_pic in
  let tmp :=
    match tmp with
    | Some o =>
        Some (Json.json_set_int
                (Json.json_set_int o "pos" (file_get_pos (file h)))
                "length" (file_get_length (file h)))
    | None => None
    end in
  ret (json_export tmp).

(** [files_get_json_playlist]: the loop over the entries, then the export. *)
Definition files_get_json_playlist : M string :=
  do h <- get;
  let '(root, entries) :=
    foldl (λ '(root, entries) p,
             let '(str, p') := basename_of p in
             match files_get_file_json_object (Some str) (format p) false with
             | Some tmp => (Json.json_array_add root tmp, entries ++ [p'])
             | None => (root, entries ++ [p'])                  (* continue *)
             end)
      (Json.json_new_array, []) (playlist h) in
  modify (set_playlist entries) ;;
  ret (json_export (Some root)).

(** [strcmp(&d_name[len-4], ext[i]) == 0] for the first [i] that matches. *)
Fixpoint has_ext (tail : string) (exts : list string) : bool :=
  match exts with
  | [] => false
  | e :: exts' => if bool_decide (tail = e) then true else has_ext tail exts'
  end.

Definition hidden (d_name : string) : bool :=
  match d_name with
  | String c _ => bool_decide (c = Ascii.ascii_of_nat 46)      (* '.' *)
  | EmptyString => false
  end.

(** The [readdir] loop of [files_get_json_list].  [s] is the [struct stat]
    variable: the result of [stat] is not tested, so after a failure [s]
    still holds the mode of an earlier entry, and before the first success
    it holds nothing defined.  For a regular file the extension is read at
    [&d_name[len-4]], which lies before the name when it has fewer than
    four characters.  Both situations have no defined result. *)
Fixpoint list_loop (real_path : string) (entries : list string) (s : option Z)
    (dir_list file_list : Json.json) : option (Json.json * Json.json) :=
  match entries with
  | [] => Some (dir_list, file_list)
  | d_name :: rest =>
      if hidden d_name then list_loop real_path rest s dir_list file_list
      else
        let str := (real_path +:+ "/" +:+ d_name)%string in
        let s := match stat str with
                 | Some mode => Some mode
                 | None => s
                 end in
        match s with
        | None => None
        | Some mode =>
            if negb (Z.land mode S_IFREG =? 0) then
              let len := Z.of_nat (String.length d_name) in
              if len <? 4 then None
              else if has_ext (String.substring (Z.to_nat (len - 4)) 4 d_name) ext
              then
                let format := file_format_parse fs str in
                match files_get_file_json_object (Some d_name) format true with
                | Some tmp =>
                    list_loop real_path rest s dir_list
                      (Json.json_array_add file_list tmp)
                | None => list_loop real_path rest s dir_list file_list
                end
              else list_loop real_path rest s dir_list file_list
            else if negb (Z.land mode S_IFDIR =? 0) then
              list_loop real_path rest s
                (Json.json_array_add dir_list (Json.JString d_name)) file_list
            else list_loop real_path rest s dir_list file_list
        end
  end.

(** [files_get_json_list]; [sub] is [None] for a [NULL] path.  The result
    is [None] for [NULL]. *)
Definition files_get_json_list (sub : option string) : M (option string) :=
  do h <- get;
  let real_path :=
    match sub with
    | None => path h
    | Some x => (path h +:+ "/" +:+ x)%string
    end in
  match opendir real_path with
  | None => ret None
  | Some entries =>
      match list_loop real_path entries None Json.json_new_array Json.json_new_array with
      | None => fault
      | Some (dir_list, file_list) =>
          let root := Json.json_add Json.json_new "directory" dir_list in
          let root := Json.json_add root "file" file_list in
          ret (Some (json_export (Some root)))
      end
  end.

Definition files_httpd_playlist : M response :=
  do list <- files_get_json_playlist;
  ret (200, Some list).

Definition files_httpd_status (resource : string) : M response :=
  let add_pic := String.prefix "img" resource in
  do str <- files_get_json_status add_pic;
  ret (200, Some str).

Definition files_httpd_list (resource : option string) : M response :=
  do list <- files_get_json_list resource;
  match list with
  | None => ret (404, Some "Bad directory"%string)
  | Some body => ret (200, Some body)
  end.

End Listing.

(** The entries of a directory that a listing shows as media files, and
    those it shows as sub-directories, when every [stat] succeeds. *)
Definition listed_file (stat : string → option Z) (real_path d_name : string) : bool :=
  negb (hidden d_name)
  && match stat (real_path +:+ "/" +:+ d_name)%string with
     | Some mode =>
         negb (Z.land mode S_IFREG =? 0)
         && has_ext (String.substring (String.length d_name - 4) 4 d_name) ext
     | None => false
     end.

Definition listed_dir (stat : string → option Z) (real_path d_name : string) : bool :=
  negb (hidden d_name)
  && match stat (real_path +:+ "/" +:+ d_name)%string with
     | Some mode => (Z.land mode S_IFREG =? 0) && negb (Z.land mode S_IFDIR =? 0)
     | None => false
     end.

(** ** Configuration and shutdown of the module *)

Definition set_path (p : string) (h : files_handle) : files_handle :=
  {| output := output h; file := file h; stream := stream h;
     prev_file := prev_file h; prev_stream := prev_stream h;
     is_playing := is_playing h; playlist := playlist h;
     playlist_alloc := playlist_alloc h; playlist_cur := playlist_cur h;
     stop := stop h; path := p; files := files h |}.

Definition set_stop (b : bool) (h : files_handle) : files_handle :=
  {| output := output h; file := file h; stream := stream h;
     prev_file := prev_file h; prev_stream := prev_stream h;
     is_playing := is_playing h; playlist := playlist h;
     playlist_alloc := playlist_alloc h; playlist_cur := playlist_cur h;
     stop := b; path := path h; files := files h |}.

Definition default_path : string := "/var/aircat/files".

(** [files_set_config]; [c] is [None] for a [NULL] configuration.  The
    path is freed and set again, from the member "path" when there is one
    and from the built-in default otherwise. *)
Definition files_set_config (c : option Json.json) : M Z :=
  let parsed :=
    match c with
    | Some j => Json.json_get_string j "path"
    | None => None
    end in
  modify (set_path (match parsed with
                    | Some p => p
                    | None => default_path
                    end)) ;;
  ret 0.

(** [files_get_config]: a new object holding the current path. *)
Definition files_get_config : M (option Json.json) :=
  do h <- get;
  ret (Some (Json.json_set_string Json.json_new "path" (Some (path h)))).

(** [files_close], up to the release of the handle itself.  [pthread_join]
    returns 0 or a positive error number, so its test [< 0] never holds. *)
Definition files_close : M Z :=
  files_stop ;;
  modify (set_stop true) ;;
  files_flush ;;
  ret 0.

(** The counters as [files_remove] leaves them: its statements on
    [playlist_cur] and [playlist_len] (lines 288-303 and 312), which do not
    depend on the index lying inside the playlist. *)
Definition files_remove_counters (index cur len : Z) : Z * Z :=
  let cur :=
    if cur =? index then -1
    else if cur >? index then cur - 1
    else cur in
  (cur, len - 1).

(** ** The callbacks of [module_entry]

    [main] and the HTTP dispatcher hand the functions of this file their
    handle as a [void *].  What a function finds behind it: *)
Inductive handle_arg : Type :=
| ArgNull                            (* [NULL] *)
| ArgHandle (h : files_handle)       (* a handle that [files_open] set up *)
| ArgForeign.                        (* the address of some other object *)

(** A function of this file run on such an argument.  [on_null] is what
    its own test [h == NULL] answers, and nothing for a function without
    that test, which reads [h->...] at once.  Behind a foreign address
    the members of [struct files_handle] lie outside the object pointed
    to, and the call has no defined result. *)
Definition run_entry {A} (on_null : option A) (c : M A) (a : handle_arg) : option A :=
  match a with
  | ArgNull => on_null
  | ArgHandle h =>
      match c h with
      | Done r _ => Some r
      | Fault => None
      | Stalled => None
      end
  | ArgForeign => None
  end.

(** [module_entry.close]: [files_close], which tests [h == NULL] first. *)
Definition files_close_entry : handle_arg → option Z :=
  run_entry (Some 0) files_close.

(** The handler of /next, which calls [files_next]; neither tests [h]. *)
Definition files_httpd_next_entry (fs : media) : handle_arg → option response :=
  run_entry None (files_httpd_next fs).

End Files.

(** * The module start-up loop of main.c *)

Module Main.

(** A section of the configuration document ([struct json], opaque here). *)
Definition json : Type := string.

Import Httpd.

Record module_attr := {
  avahi : nat;
  output : nat;
  config : option json
}.

(** [struct module] as far as [main] uses it.  [open] yields the status
    and the value it stored through its [handle] argument; [close],
    [set_config] and [get_config] matter here only by being defined. *)
Record module := {
  id : string;
  name : string;
  description : string;
  open : option (module_attr → Z * option nat);
  close : bool;
  set_config : bool;
  get_config : bool;
  urls : option (list url_table);
  handle : option nat
}.

Definition set_handle (v : option nat) (m : module) : module :=
  {| id := id m; name := name m; description := description m;
     open := open m; close := close m;
     set_config := set_config m; get_config := get_config m;
     urls := urls m; handle := v |}.

(** What the loop does to the outside world, in order. *)
Inductive event : Type :=
| EvOpen (module_name : string) (status : Z)
| EvStderr (message : string)
| EvCloseAddr (module_name : string)   (* close(&mod->handle) *)
| EvAddUrls (module_name : string) (table : list url_table) (h : option nat).

(** The dispatcher's registrations ([httpd_add_urls]) and the event log. *)
Record app := {
  httpd : list (string * list url_table * option nat);
  trace : list event
}.

Definition emit (e : event) (a : app) : app :=
  {| httpd := httpd a; trace := trace a ++ [e] |}.

(** Modelled from the spec: [httpd_add_urls] of httpd.c, absent from the
    sources; the dispatcher adds the table under the module's name, with
    the handle its handlers will be given. *)
Definition httpd_add_urls (nm : string) (t : list url_table) (h : option nat) (a : app) : app :=
  {| httpd := httpd a ++ [(nm, t, h)]; trace := trace a ++ [EvAddUrls nm t h] |}.

Section Startup.

Context (avahi_h output_h : nat) (config_get_json : string → option json).

(** The body of the loop "Open all modules" for one list cell. *)
Definition open_module (m : module) (a : app) : module * app :=
  match open m with
  | None => (m, a)                                   (* continue *)
  | Some f =>
      let attr := {| avahi := avahi_h; output := output_h;
                     config := config_get_json (name m) |} in
      let '(status, stored) := f attr in
      let m := set_handle stored m in
      let a := emit (EvOpen (name m) status) a in
      let '(m, a) :=
        if negb (status =? 0) then
          let a := emit (EvStderr ("Failed to open " +:+ name m +:+ " module!")) a in
          let a := if close m then emit (EvCloseAddr (name m)) a else a in
          (set_handle None m, a)
        else (m, a) in
      let a := match urls m with
               | Some t => httpd_add_urls (name m) t (handle m) a
               | None => a
               end in
      (m, a)
  end.

Fixpoint open_all (l : list module) (a : app) : list module * app :=
  match l with
  | [] => ([], a)
  | m :: l' =>
      let '(m', a') := open_module m a in
      let '(l'', a'') := open_all l' a' in
      (m' :: l'', a'')
  end.

End Startup.

(** ** The start-up loop with the [close] callbacks run

    [close] of a module takes the module's handle, and the shutdown loop
    passes [list->mod->handle] (line 260); the start-up loop passes
    [&list->mod->handle], the address of the field of [struct module]
    that holds it (line 204). *)
Inductive close_arg : Type :=
| CloseHandle (h : option nat)
| CloseHandleAddr.

Section StartupRun.

(** [close_of m arg] is the status [close] of [m] returns for that
    argument, and nothing when the call has no defined result. *)
Context (avahi_h output_h : nat) (config_get_json : string → option json)
        (close_of : module → close_arg → option Z).

Definition open_module_run (m : module) (a : app) : option (module * app) :=
  match open m with
  | None => Some (m, a)                              (* continue *)
  | Some f =>
      let attr := {| avahi := avahi_h; output := output_h;
                     config := config_get_json (name m) |} in
      let '(status, stored) := f attr in
      let m := set_handle stored m in
      let a := emit (EvOpen (name m) status) a in
      r ← (if negb (status =? 0) then
             let a := emit (EvStderr ("Failed to open " +:+ name m +:+ " module!")) a in
             a ← (if close m then
                    _ ← close_of m CloseHandleAddr;
                    Some (emit (EvCloseAddr (name m)) a)
                  else Some a);
             Some (set_handle None m, a)
           else Some (m, a));
      let '(m, a) := r in
      let a := match urls m with
               | Some t => httpd_add_urls (name m) t (handle m) a
               | None => a
               end in
      Some (m, a)
  end.

Fixpoint open_all_run (l : list module) (a : app) : option (list module * app) :=
  match l with
  | [] => Some ([], a)
  | m :: l' =>
      r ← open_module_run m a;
      r' ← open_all_run l' r.2;
      Some (r.1 :: r'.1, r'.2)
  end.

End StartupRun.

(** The routes the dispatcher holds for a module name. *)
Definition routes_of (nm : string) (a : app) : list (list url_table * option nat) :=
  omap (λ r, if bool_decide (r.1.1 = nm) then Some (r.1.2, r.2) else None) (httpd a).

(** The state a module that failed to open leaves behind. *)
Definition after_failed_open (m : module) (status : Z) (a : app) : module * app :=
  let a := emit (EvOpen (name m) status) a in
  let a := emit (EvStderr ("Failed to open " +:+ name m +:+ " module!")) a in
  let a := if close m then emit (EvCloseAddr (name m)) a else a in
  (set_handle None m,
   match urls m with
   | Some t => httpd_add_urls (name m) t None a
   | None => a
   end).

(** ** Shutdown and the configuration endpoints *)

(** Calls into the modules and the HTTP layer, in order. *)
Inductive call : Type :=
| CallGetConfig (module_name : string) (h : option nat)
| CallSetConfig (module_name : string) (h : option nat) (cfg : option json)
| CallClose (module_name : string) (h : option nat)
| CallHttpdSetConfig (cfg : option json).

(** The daemon between two requests: the module list, the configuration
    document held in memory, the sections of the backing file, and the
    calls made so far. *)
Record daemon := {
  modules : list module;
  document : string → option json;
  disk : string → option json;
  calls : list call
}.

Definition record (c : call) (d : daemon) : daemon :=
  {| modules := modules d; document := document d; disk := disk d;
     calls := calls d ++ [c] |}.

(** A local [struct json *]: null, pointing to a live value, or still
    holding the address of a value that [json_free] has released. *)
Inductive cfg_ptr : Type :=
| CfgNull
| CfgLive (j : json)
| CfgFreed.

Definition cfg_of (r : option json) : cfg_ptr :=
  match r with
  | Some j => CfgLive j
  | None => CfgNull
  end.

(** Modelled from the spec: [json_free] of json.h, absent from the
    sources.  The handlers call it on each value they were given
    ("detached value"); the model takes the value to be released by the
    call, so that the variable keeps a stale address. *)
Definition json_free (p : cfg_ptr) : cfg_ptr :=
  match p with
  | CfgLive _ => CfgFreed
  | CfgNull => CfgNull
  | CfgFreed => CfgFreed
  end.

(** Modelled from the spec: [config_get_json] of config_file.c, absent
    from the sources ("get_section(id) -> detached value or null"). *)
Definition config_get_json (d : daemon) (nm : string) : option json := document d nm.

(** Modelled from the spec: [config_set_json] of config_file.c, absent
    from the sources ("set_section(id, value)"): the section [nm] of the
    document becomes the value given.  Reading a released value is
    undefined: no result. *)
Definition config_set_json (nm : string) (p : cfg_ptr) (d : daemon) : option daemon :=
  let put v :=
    {| modules := modules d;
       document := λ k, if bool_decide (k = nm) then v else document d k;
       disk := disk d; calls := calls d |} in
  match p with
  | CfgNull => Some (put None)
  | CfgLive j => Some (put (Some j))
  | CfgFreed => None
  end.

(** Modelled from the spec: [config_load] of config_file.c, absent from
    the sources ("replace whole document from the backing file"). *)
Definition config_load (d : daemon) : daemon :=
  {| modules := modules d; document := disk d; disk := disk d; calls := calls d |}.

(** Modelled from the spec: [config_save] of config_file.c, absent from
    the sources ("serialize whole document"). *)
Definition config_save (d : daemon) : daemon :=
  {| modules := modules d; document := document d; disk := document d;
     calls := calls d |}.

(** [resource == NULL || *resource == 0 || strcmp(resource, key) == 0]. *)
Definition selects (resource : option string) (key : string) : bool :=
  match resource with
  | None => true
  | Some r => bool_decide (r = ""%string) || bool_decide (r = key)
  end.

Section Config.

(** What [get_config] of a module returns for its handle, and what
    [httpd_get_config] returns, at the time of the request. *)
Context (get_config_of : module → option json) (httpd_get_config : option json).

(** The loop "Close all modules" of [main]. *)
Fixpoint close_all (l : list module) (d : daemon) : option daemon :=
  match l with
  | [] => Some d
  | m :: l' =>
      d ← (if get_config m then
             let cfg := cfg_of (get_config_of m) in
             config_set_json (name m) cfg (record (CallGetConfig (name m) (handle m)) d)
           else Some d);
      let d := if close m then record (CallClose (name m) (handle m)) d else d in
      close_all l' d
  end.

(** The end of [main]: close the modules, then save the configuration. *)
Definition shutdown (d : daemon) : option daemon :=
  d ← close_all (modules d) d;
  Some (config_save d).

Definition config_httpd_default (d : daemon) : Z * daemon :=
  let d := record (CallHttpdSetConfig None) d in
  (200,
   foldl (λ d m, if set_config m
                 then record (CallSetConfig (name m) (handle m) None) d
                 else d)
     d (modules d)).

Definition config_httpd_reload (d : daemon) : Z * daemon :=
  let d := config_load d in
  let d := record (CallHttpdSetConfig (config_get_json d "httpd")) d in
  (200,
   foldl (λ d m, if set_config m
                 then record (CallSetConfig (name m) (handle m)
                                (config_get_json d (name m))) d
                 else d)
     d (modules d)).

(** The loop of [config_httpd_save]; [cfg] is the local variable, which
    keeps its value when a module has no [get_config]. *)
Fixpoint save_loop (l : list module) (cfg : cfg_ptr) (d : daemon) : option daemon :=
  match l with
  | [] => Some d
  | m :: l' =>
      let '(cfg, d) :=
        if get_config m
        then (cfg_of (get_config_of m), record (CallGetConfig (name m) (handle m)) d)
        else (cfg, d) in
      d ← config_set_json (name m) cfg d;
      (* json_free(cfg); cfg = NULL; *)
      save_loop l' CfgNull d
  end.

Definition config_httpd_save (d : daemon) : option (Z * daemon) :=
  let cfg := cfg_of httpd_get_config in
  d ← config_set_json "httpd" cfg d;
  let cfg := json_free cfg in
  d ← save_loop (modules d) cfg d;
  Some (200, config_save d).

(** The GET branch of [config_httpd]: the members handed to [json_add],
    in order; [tmp] is the local variable, which keeps its value when a
    module has no [get_config]. *)
Fixpoint get_loop (resource : option string) (l : list module)
    (tmp : option json) (acc : list (string * json)) : list (string * json) :=
  match l with
  | [] => acc
  | m :: l' =>
      let tmp := if get_config m then get_config_of m else tmp in
      match tmp with
      | None => get_loop resource l' tmp acc                    (* continue *)
      | Some j =>
          get_loop resource l' tmp
            (if selects resource (name m) then acc ++ [(name m, j)] else acc)
      end
  end.

Definition config_httpd_get (resource : option string) (d : daemon)
  : Z * list (string * json) :=
  let tmp := httpd_get_config in
  let acc :=
    match tmp with
    | Some j => if selects resource "httpd" then [("httpd"%string, j)] else []
    | None => []
    end in
  (200, get_loop resource (modules d) tmp acc).

(** The PUT branch of [config_httpd], for one member of the request. *)
Definition put_entry (resource : option string) (d : daemon) (kv : string * json)
  : daemon :=
  if negb (selects resource kv.1) then d                            (* continue *)
  else if bool_decide (kv.1 = "httpd"%string)
  then record (CallHttpdSetConfig (Some kv.2)) d
  else foldl (λ d m, if bool_decide (kv.1 = name m) && set_config m
                     then record (CallSetConfig (name m) (handle m) (Some kv.2)) d
                     else d)
         d (modules d).

Definition config_httpd_put (resource : option string) (body : list (string * json))
    (d : daemon) : Z * daemon :=
  (200, foldl (put_entry resource) d body).

End Config.

(** The calls that one member of a PUT body leads to. *)
Definition put_calls (resource : option string) (l : list module)
    (kv : string * json) : list call :=
  if negb (selects resource kv.1) then []
  else if bool_decide (kv.1 = "httpd"%string) then [CallHttpdSetConfig (Some kv.2)]
  else (λ m, CallSetConfig (name m) (handle m) (Some kv.2))
         <$> filter (λ m, kv.1 = name m ∧ set_config m = true) l.

(** The modules that can be configured. *)
Definition configurable (l : list module) : list module :=
  filter (λ m, set_config m = true) l.

(** The registration that the start-up loop makes for one module. *)
Definition registration (avahi_h output_h : nat) (cfg : string → option json)
    (m : module) : option (string * list url_table * option nat) :=
  match open m, urls m with
  | Some f, Some t =>
      let r := f {| avahi := avahi_h; output := output_h; config := cfg (name m) |} in
      Some (name m, t, if r.1 =? 0 then r.2 else None)
  | _, _ => None
  end.

(** The handle the start-up loop leaves in one module. *)
Definition opened_handle (avahi_h output_h : nat) (cfg : string → option json)
    (m : module) : option nat :=
  match open m with
  | Some f =>
      let r := f {| avahi := avahi_h; output := output_h; config := cfg (name m) |} in
      if r.1 =? 0 then r.2 else None
  | None => handle m
  end.

End Main.

(** * Concrete media libraries, engine states and module lists *)

Module Examples.

Import Files.

Definition tags (t : string) : file_format :=
  {| title := Some t; artist := None; album := None; comment := None;
     genre := None; track := 1; year := 2014; picture := None; mime := None |}.

(** A library in which [bad.mp3] neither parses nor opens. *)
Definition library : media :=
  {| file_format_parse := λ n,
       if bool_decide (n = "/music/bad.mp3"%string) then None else Some (tags n);
     file_can_open := λ n, bool_decide (n ≠ "/music/bad.mp3"%string) |}.

Definition fresh : files_handle := files_open output_init decoder_init "/music".

Definition state_after (ops : list op) (h : files_handle) : files_handle :=
  match run_ops library ops h with
  | Done _ h' => h'
  | Fault => h
  | Stalled => h
  end.

Definition load_three : list op :=
  [OpAdd (Some "a.mp3"%string); OpAdd (Some "bad.mp3"%string);
   OpAdd (Some "c.mp3"%string)].

Definition session : list op :=
  load_three ++ [OpPlay (-1); OpWatch true; OpPause; OpPrev; OpRemove 0; OpNext].

(** Three entries, nothing playing. *)
Definition loaded : files_handle := Eval vm_compute in state_after load_three fresh.

(** Three entries, the first one playing. *)
Definition playing_first : files_handle :=
  Eval vm_compute in state_after (load_three ++ [OpPlay 0]) fresh.

(** Three entries, the last one playing. *)
Definition playing_last : files_handle :=
  Eval vm_compute in state_after (load_three ++ [OpPlay 2]) fresh.

(** The last entry playing after a watcher advance: the first entry's
    stream and file are retained in the previous slot. *)
Definition advanced : files_handle :=
  Eval vm_compute in state_after (load_three ++ [OpPlay 0; OpWatch true]) fresh.

(** One entry, nothing playing. *)
Definition one_entry : files_handle :=
  Eval vm_compute in state_after [OpAdd (Some "a.mp3"%string)] fresh.

Definition session_end : files_handle := Eval vm_compute in state_after session fresh.

(** A module whose [open] allocates a handle and then fails, the way
    [files_open] does when the watcher thread cannot be created. *)
Definition broken : Main.module :=
  {| Main.id := "files"; Main.name := "File browser";
     Main.description := "Browse through local and remote folder and play any music file.";
     Main.open := Some (λ _, (-1, Some 7%nat));
     Main.close := true; Main.set_config := true; Main.get_config := true;
     Main.urls := Some files_url; Main.handle := None |}.

Definition healthy : Main.module :=
  {| Main.id := "radio"; Main.name := "Radio";
     Main.description := "Listen to web radios.";
     Main.open := Some (λ _, (0, Some 9%nat));
     Main.close := true; Main.set_config := true; Main.get_config := true;
     Main.urls := Some [ {| Httpd.url := "/play"; Httpd.extended := true;
                            Httpd.methods := [Httpd.HTTPD_PUT];
                            Httpd.json_body := false |} ];
     Main.handle := None |}.

Definition no_config : string → option Main.json := λ _, None.

Definition app_init : Main.app := {| Main.httpd := []; Main.trace := [] |}.

(** A module that can be configured but not asked for its configuration. *)
Definition mute : Main.module :=
  {| Main.id := "airtunes"; Main.name := "AirTunes";
     Main.description := "Receive audio from the network.";
     Main.open := Some (λ _, (0, Some 4%nat));
     Main.close := true; Main.set_config := true; Main.get_config := false;
     Main.urls := None; Main.handle := Some 4%nat |}.

Definition radio : Main.module := Main.set_handle (Some 9%nat) healthy.

(** What the modules report when asked for their configuration. *)
Definition reports (m : Main.module) : option Main.json :=
  if bool_decide (Main.name m = "Radio"%string) then Some "radio-section"%string
  else None.

Definition running (l : list Main.module) : Main.daemon :=
  {| Main.modules := l;
     Main.document := λ k, if bool_decide (k = "AirTunes"%string)
                           then Some "airtunes-section"%string else None;
     Main.disk := λ _, None;
     Main.calls := [] |}.

(** The [basename] of the GNU C library's libgen.h ([__xpg_basename]),
    on the characters of the string in reverse: "." for the empty string;
    a string of slashes only gives "/" and is left alone; otherwise the
    trailing slashes are cut off the string in place and the last
    component of what remains is returned. *)
Definition slash : Ascii.ascii := Ascii.ascii_of_nat 47.

Fixpoint drop_slashes (l : list Ascii.ascii) : list Ascii.ascii :=
  match l with
  | c :: l' => if bool_decide (c = slash) then drop_slashes l' else l
  | [] => []
  end.

Fixpoint last_component (l : list Ascii.ascii) : list Ascii.ascii :=
  match l with
  | c :: l' => if bool_decide (c = slash) then [] else c :: last_component l'
  | [] => []
  end.

Definition xpg_basename (s : string) : string * string :=
  let text l := String.string_of_list_ascii (rev l) in
  match rev (String.list_ascii_of_string s) with
  | [] => ("."%string, s)
  | r =>
      match drop_slashes r with
      | [] => ("/"%string, s)
      | kept => (text (last_component kept), text kept)
      end
  end.

(** One entry whose name ends in a slash, playing. *)
Definition playing_dir : files_handle :=
  Eval vm_compute in state_after [OpAdd (Some "sub/"%string); OpPlay 0] fresh.

(** One entry, playing. *)
Definition playing_one : files_handle :=
  Eval vm_compute in state_after [OpAdd (Some "a.mp3"%string); OpPlay 0] fresh.

(** The [close] callbacks of an installation: [files_close] for the
    module of files.c, whose handle, when it has one, points to [fresh];
    the [close] of the other modules returns 0. *)
Definition closes (m : Main.module) (arg : Main.close_arg) : option Z :=
  if bool_decide (Main.id m = "files"%string) then
    files_close_entry
      match arg with
      | Main.CloseHandleAddr => ArgForeign
      | Main.CloseHandle None => ArgNull
      | Main.CloseHandle (Some _) => ArgHandle fresh
      end
  else Some 0.

(** A directory tree: /music holds a hidden entry, two media files (one
    with an upper-case extension), a picture and a sub-directory. *)
Definition tree_opendir (p : string) : option (list string) :=
  if bool_decide (p = "/music"%string)
  then Some [".git"; "a.mp3"; "cover.jpg"; "live"; "B.MP3"]%string
  else None.

Definition tree_stat (p : string) : option Z :=
  if bool_decide (p = "/music/live"%string) then Some (S_IFDIR + 493)
  else Some (S_IFREG + 420).

End Examples.

(** * Properties of the playback engine *)

Module FilesProofs.

Import Files.

(** ** Rules of the two triples *)

Lemma total_post {A} (c : M A) h Q : total c h Q → post c h Q.
Proof. unfold total, post. destruct (c h); tauto. Qed.

Lemma total_done {A} (c : M A) h Q :
  total c h Q ↔ ∃ a h', c h = Done a h' ∧ Q a h'.
Proof.
  unfold total. split.
  - destruct (c h) as [a h'| |]; try tauto. eauto.
  - intros (a & h' & -> & HQ). exact HQ.
Qed.

Lemma post_done {A} (c : M A) h Q a h' : post c h Q → c h = Done a h' → Q a h'.
Proof. unfold post. intros H E. rewrite E in H. exact H. Qed.

Lemma post_mono {A} (c : M A) h (Q Q' : A → files_handle → Prop) :
  post c h Q → (∀ a h', Q a h' → Q' a h') → post c h Q'.
Proof. unfold post. destruct (c h); auto. Qed.

Lemma total_mono {A} (c : M A) h (Q Q' : A → files_handle → Prop) :
  total c h Q → (∀ a h', Q a h' → Q' a h') → total c h Q'.
Proof. unfold total. destruct (c h); auto. Qed.

Lemma post_bind {A B} (c : M A) (k : A → M B) h Q :
  post c h (λ a h', post (k a) h' Q) → post (bind c k) h Q.
Proof. unfold post, bind. destruct (c h); auto. Qed.

Lemma total_bind {A B} (c : M A) (k : A → M B) h Q :
  total c h (λ a h', total (k a) h' Q) → total (bind c k) h Q.
Proof. unfold total, bind. destruct (c h); auto. Qed.

Lemma post_ret {A} (a : A) h (Q : A → files_handle → Prop) : Q a h → post (ret a) h Q.
Proof. auto. Qed.

Lemma total_ret {A} (a : A) h (Q : A → files_handle → Prop) : Q a h → total (ret a) h Q.
Proof. auto. Qed.

Lemma post_get h (Q : files_handle → files_handle → Prop) : Q h h → post get h Q.
Proof. auto. Qed.

Lemma total_get h (Q : files_handle → files_handle → Prop) : Q h h → total get h Q.
Proof. auto. Qed.

Lemma post_modify f h (Q : unit → files_handle → Prop) : Q tt (f h) → post (modify f) h Q.
Proof. auto. Qed.

Lemma total_modify f h (Q : unit → files_handle → Prop) : Q tt (f h) → total (modify f) h Q.
Proof. auto. Qed.

Lemma post_fault {A} h (Q : A → files_handle → Prop) : post fault h Q.
Proof. exact I. Qed.

#[local] Ltac wp :=
  repeat (cbv beta; match goal with
    | |- post (bind _ _) _ _ => apply post_bind
    | |- post get _ _ => apply post_get
    | |- post (modify _) _ _ => apply post_modify
    | |- post (ret _) _ _ => apply post_ret
    | |- post fault _ _ => apply post_fault
    end); cbv beta.

#[local] Ltac fields :=
  cbn [playlist_alloc playlist_cur stopped player_started player_failed
       set_playlist set_playlist_cur set_playlist_alloc set_is_playing
       set_output set_files set_file set_stream set_prev_file set_prev_stream] in *.

#[local] Ltac twp :=
  repeat (cbv beta; match goal with
    | |- total (bind _ _) _ _ => apply total_bind
    | |- total get _ _ => apply total_get
    | |- total (modify _) _ _ => apply total_modify
    | |- total (ret _) _ _ => apply total_ret
    end); cbv beta.

(** ** Exact results of the straight-line functions *)

Lemma playlist_len_nonneg (h : files_handle) : 0 ≤ playlist_len h.
Proof. unfold playlist_len. lia. Qed.

Lemma playlist_len_lookup (h : files_handle) (i : Z) :
  0 ≤ i < playlist_len h → ∃ p, playlist h !! Z.to_nat i = Some p.
Proof.
  intros Hi. apply lookup_lt_is_Some_2. unfold playlist_len in Hi. lia.
Qed.

Lemma files_stop_eq (h : files_handle) : files_stop h = Done 0 (stopped h).
Proof.
  unfold files_stop, stopped, bind, modify, get, ret.
  destruct h as [o f s pf ps ip pl pa pc st pt d]; simpl.
  destruct s, ps; reflexivity.
Qed.

Lemma files_new_player_eq fs (h : files_handle) p :
  0 ≤ playlist_cur h →
  playlist h !! Z.to_nat (playlist_cur h) = Some p →
  files_new_player fs h =
    if file_can_open fs (filename p) then Done 0 (player_started h)
    else Done (-1) (player_failed h).
Proof.
  intros Hc Hp.
  unfold files_new_player, bind, get, playlist_at, file_open.
  destruct (playlist_cur h <? 0) eqn:E; [lia|].
  rewrite Hp.
  destruct (file_can_open fs (filename p)); reflexivity.
Qed.

Lemma files_new_player_fault fs (h : files_handle) :
  playlist_cur h < 0 ∨ playlist h !! Z.to_nat (playlist_cur h) = None →
  files_new_player fs h = Fault.
Proof.
  intros Hc.
  unfold files_new_player, bind, get, playlist_at.
  destruct (playlist_cur h <? 0) eqn:E; [reflexivity|].
  destruct Hc as [Hc| ->]; [lia | reflexivity].
Qed.

(** ** One iteration of the two scanning loops *)

Lemma play_next_loop_exit fs fuel (h : files_handle) :
  playlist_len h < playlist_cur h → play_next_loop fs fuel h = Done tt h.
Proof.
  intros Hc. destruct fuel; simpl; unfold bind, get, ret;
    destruct (playlist_cur h <=? playlist_len h) eqn:E; try lia; reflexivity.
Qed.

Lemma play_next_loop_end fs fuel (h : files_handle) :
  playlist_cur h ≤ playlist_len h →
  playlist_len h ≤ playlist_cur h + 1 →
  play_next_loop fs (S fuel) h = Done tt (scan_ended h).
Proof.
  intros Hc Hl. simpl. unfold bind, get, modify.
  destruct (playlist_cur h <=? playlist_len h) eqn:E; [|lia].
  change (playlist_len (set_playlist_cur (playlist_cur h + 1) h)) with (playlist_len h).
  cbn [playlist_cur set_playlist_cur].
  destruct (playlist_cur h + 1 >=? playlist_len h) eqn:E'; [|lia].
  reflexivity.
Qed.

Lemma play_next_loop_step fs fuel (h : files_handle) p :
  -1 ≤ playlist_cur h →
  playlist h !! Z.to_nat (playlist_cur h + 1) = Some p →
  play_next_loop fs (S fuel) h =
    if file_can_open fs (filename p)
    then Done tt (player_started (set_playlist_cur (playlist_cur h + 1) h))
    else play_next_loop fs fuel (player_failed (set_playlist_cur (playlist_cur h + 1) h)).
Proof.
  intros Hc Hp.
  pose proof (lookup_lt_Some _ _ _ Hp) as Hlt.
  assert (playlist_cur h + 1 < playlist_len h) by (unfold playlist_len; lia).
  simpl. unfold bind at 1, get at 1.
  destruct (playlist_cur h <=? playlist_len h) eqn:E; [|lia].
  unfold bind at 1, modify at 1. unfold bind at 1, get at 1.
  change (playlist_len (set_playlist_cur (playlist_cur h + 1) h)) with (playlist_len h).
  cbn [playlist_cur set_playlist_cur].
  destruct (playlist_cur h + 1 >=? playlist_len h) eqn:E'; [lia|].
  unfold bind at 1.
  rewrite (files_new_player_eq fs _ p) by (simpl; first [lia | exact Hp]).
  destruct (file_can_open fs (filename p)); reflexivity.
Qed.

Lemma play_prev_loop_exit fs fuel (h : files_handle) :
  playlist_cur h < 0 → play_prev_loop fs fuel h = Done tt h.
Proof.
  intros Hc. destruct fuel; simpl; unfold bind, get, ret;
    destruct (playlist_cur h >=? 0) eqn:E; try lia; reflexivity.
Qed.

Lemma play_prev_loop_end fs fuel (h : files_handle) :
  playlist_cur h = 0 →
  play_prev_loop fs (S fuel) h = Done tt (scan_ended h).
Proof.
  intros Hc. simpl. unfold bind, get, modify. rewrite Hc. reflexivity.
Qed.

Lemma play_prev_loop_step fs fuel (h : files_handle) p :
  1 ≤ playlist_cur h →
  playlist h !! Z.to_nat (playlist_cur h - 1) = Some p →
  play_prev_loop fs (S fuel) h =
    if file_can_open fs (filename p)
    then Done tt (player_started (set_playlist_cur (playlist_cur h - 1) h))
    else play_prev_loop fs fuel (player_failed (set_playlist_cur (playlist_cur h - 1) h)).
Proof.
  intros Hc Hp.
  simpl. unfold bind at 1, get at 1.
  destruct (playlist_cur h >=? 0) eqn:E; [|lia].
  unfold bind at 1, modify at 1. unfold bind at 1, get at 1.
  cbn [playlist_cur set_playlist_cur].
  destruct (playlist_cur h - 1 <? 0) eqn:E'; [lia|].
  unfold bind at 1.
  rewrite (files_new_player_eq fs _ p) by (simpl; first [lia | exact Hp]).
  destruct (file_can_open fs (filename p)); reflexivity.
Qed.

(** ** Ownership of streams and files *)

Lemma resources_ok_ext (h h' : files_handle) :
  output h' = output h → files h' = files h →
  stream h' = stream h → file h' = file h →
  prev_stream h' = prev_stream h → prev_file h' = prev_file h →
  resources_ok h → resources_ok h'.
Proof.
  intros Ho Hd Hs Hf Hps Hpf [Ra Rb Rc Rd Re Rf].
  split; rewrite ?Ho, ?Hd, ?Hs, ?Hf, ?Hps, ?Hpf; assumption.
Qed.

Lemma handle_set_Some (o : option nat) i : i ∈ handle_set o ↔ o = Some i.
Proof. destruct o; simpl; set_solver. Qed.

Lemma player_started_ok (h : files_handle) :
  resources_ok (set_stream None (set_file None h)) → resources_ok (player_started h).
Proof.
  intros [Hso Hfo Hsl Hfl _ _]. simpl in *.
  assert (Hs : next_stream (output h) ∉ dom (streams (output h))).
  { intros Hin. apply Hsl in Hin. lia. }
  assert (Hf : next_file (files h) ∉ opened (files h)).
  { intros Hin. apply Hfl in Hin. lia. }
  split; simpl.
  - rewrite dom_alter_L, dom_insert_L, Hso. set_solver.
  - rewrite Hfo. set_solver.
  - intros s. rewrite dom_alter_L, dom_insert_L, elem_of_union, elem_of_singleton.
    intros [->|Hin]; [lia|]. apply Hsl in Hin. lia.
  - intros f. rewrite elem_of_union, elem_of_singleton.
    intros [->|Hin]; [lia|]. apply Hfl in Hin. lia.
  - intros s [= <-] Hp. apply Hs. rewrite Hso. rewrite Hp. set_solver.
  - intros f [= <-] Hp. apply Hf. rewrite Hfo. rewrite Hp. set_solver.
Qed.

Lemma player_failed_ok (h : files_handle) :
  resources_ok (set_stream None (set_file None h)) → resources_ok (player_failed h).
Proof.
  intros [Hso Hfo Hsl Hfl _ _]. simpl in *.
  assert (Hf : next_file (files h) ∉ opened (files h)).
  { intros Hin. apply Hfl in Hin. lia. }
  split; simpl; try done.
  - rewrite <- Hfo. set_solver.
  - intros f Hin. assert (f ∈ opened (files h)) as Hin' by set_solver.
    apply Hfl in Hin'. lia.
Qed.

Lemma scan_frame_refl (h : files_handle) :
  stream h = None → file h = None → scan_frame h h.
Proof. intros Hs Hf. split; try done; rewrite ?Hs, ?Hf; done. Qed.

Lemma scan_frame_trans (h1 h2 h3 : files_handle) :
  scan_frame h1 h2 → scan_frame h2 h3 → scan_frame h1 h3.
Proof.
  intros [A1 A2 A3 A4 A5 A6 A7 A8 A9 A10] [B1 B2 B3 B4 B5 B6 B7 B8 B9 B10].
  split; try congruence.
  - intros s Hs. apply B7 in Hs. lia.
  - intros f Hf. apply B8 in Hf. lia.
  - lia.
  - lia.
Qed.

(** ** The scanning loops keep the invariant and always end *)

Lemma play_next_loop_wf fs fuel : ∀ h : files_handle,
  -1 ≤ playlist_cur h ≤ playlist_len h →
  playlist_len h - playlist_cur h < Z.of_nat fuel →
  resources_ok (set_stream None (set_file None h)) →
  playlist_len h ≤ playlist_alloc h →
  total (play_next_loop fs fuel) h (λ _ h', wf h' ∧ scan_frame h h').
Proof.
  induction fuel as [|fuel IH]; intros h Hc Hfuel Hres Hcap; [lia|].
  destruct (Z_lt_le_dec (playlist_cur h + 1) (playlist_len h)) as [Hlt|Hge].
  - destruct (lookup_lt_is_Some_2 (playlist h) (Z.to_nat (playlist_cur h + 1)))
      as [p Hp]; [unfold playlist_len in Hlt; lia|].
    unfold total. rewrite (play_next_loop_step fs fuel h p) by (lia || exact Hp).
    destruct (file_can_open fs (filename p)).
    + split; [split; [|split]|].
      * right. simpl. change (playlist_len (player_started _)) with (playlist_len h). lia.
      * apply player_started_ok. revert Hres. apply resources_ok_ext; reflexivity.
      * exact Hcap.
      * split; simpl; try done; try lia; intros ? [= <-]; lia.
    + fold (total (play_next_loop fs fuel)
              (player_failed (set_playlist_cur (playlist_cur h + 1) h))
              (λ _ h', wf h' ∧ scan_frame h h')).
      eapply total_mono.
      * apply IH.
        -- change (playlist_len (player_failed _)) with (playlist_len h). simpl. lia.
        -- change (playlist_len (player_failed _)) with (playlist_len h). simpl. lia.
        -- eapply resources_ok_ext;
             [..| apply (player_failed_ok (set_playlist_cur (playlist_cur h + 1) h));
                  revert Hres; apply resources_ok_ext; reflexivity ]; reflexivity.
        -- exact Hcap.
      * intros _ h' [Hwf Hfr]. split; [exact Hwf|].
        eapply scan_frame_trans; [|exact Hfr].
        split; simpl; try done; lia.
  - unfold total. rewrite play_next_loop_end by lia.
    split; [split; [|split]|].
    + left. reflexivity.
    + revert Hres. apply resources_ok_ext; reflexivity.
    + exact Hcap.
    + split; simpl; try done.
Qed.

Lemma play_prev_loop_wf fs fuel : ∀ h : files_handle,
  0 ≤ playlist_cur h ≤ playlist_len h →
  playlist_cur h < Z.of_nat fuel →
  resources_ok (set_stream None (set_file None h)) →
  playlist_len h ≤ playlist_alloc h →
  total (play_prev_loop fs fuel) h (λ _ h', wf h' ∧ scan_frame h h').
Proof.
  induction fuel as [|fuel IH]; intros h Hc Hfuel Hres Hcap; [lia|].
  destruct (Z.eq_dec (playlist_cur h) 0) as [Hz|Hnz].
  - unfold total. rewrite play_prev_loop_end by exact Hz.
    split; [split; [|split]|].
    + left. reflexivity.
    + revert Hres. apply resources_ok_ext; reflexivity.
    + exact Hcap.
    + split; simpl; try done.
  - destruct (lookup_lt_is_Some_2 (playlist h) (Z.to_nat (playlist_cur h - 1)))
      as [p Hp]; [unfold playlist_len in Hc; lia|].
    unfold total. rewrite (play_prev_loop_step fs fuel h p) by (lia || exact Hp).
    destruct (file_can_open fs (filename p)).
    + split; [split; [|split]|].
      * right. simpl. change (playlist_len (player_started _)) with (playlist_len h). lia.
      * apply player_started_ok. revert Hres. apply resources_ok_ext; reflexivity.
      * exact Hcap.
      * split; simpl; try done; try lia; intros ? [= <-]; lia.
    + fold (total (play_prev_loop fs fuel)
              (player_failed (set_playlist_cur (playlist_cur h - 1) h))
              (λ _ h', wf h' ∧ scan_frame h h')).
      eapply total_mono.
      * apply IH.
        -- change (playlist_len (player_failed _)) with (playlist_len h). simpl. lia.
        -- simpl. lia.
        -- eapply resources_ok_ext;
             [..| apply (player_failed_ok (set_playlist_cur (playlist_cur h - 1) h));
                  revert Hres; apply resources_ok_ext; reflexivity ]; reflexivity.
        -- exact Hcap.
      * intros _ h' [Hwf Hfr]. split; [exact Hwf|].
        eapply scan_frame_trans; [|exact Hfr].
        split; simpl; try done; lia.
Qed.

(** ** Exact results of the hand-over *)

Lemma close_previous_eq (h : files_handle) :
  close_previous h = Done tt (released_previous h).
Proof.
  unfold close_previous, released_previous, bind, get, modify, ret.
  destruct h as [o f s pf ps ip pl pa pc st pt d]; simpl.
  destruct ps; reflexivity.
Qed.

Lemma files_play_next_eq fs (h : files_handle) :
  files_play_next fs h =
    play_next_loop fs (S (Z.to_nat (playlist_len h - playlist_cur h))) (handed_over h).
Proof.
  unfold files_play_next. unfold bind at 1. rewrite close_previous_eq.
  unfold move_current_to_previous, bind, get, modify.
  unfold handed_over, released_previous. destruct (prev_stream h); reflexivity.
Qed.

Lemma files_play_prev_eq fs (h : files_handle) :
  files_play_prev fs h =
    play_prev_loop fs (S (Z.to_nat (playlist_cur h + 1))) (handed_over h).
Proof.
  unfold files_play_prev. unfold bind at 1. rewrite close_previous_eq.
  unfold move_current_to_previous, bind, get, modify.
  unfold handed_over, released_previous. destruct (prev_stream h); reflexivity.
Qed.

Lemma drop_previous_eq (h : files_handle) :
  (close_previous ;; modify (set_prev_stream None) ;; modify (set_prev_file None)) h
  = Done tt (dropped_previous h).
Proof.
  unfold bind at 1. rewrite close_previous_eq. reflexivity.
Qed.

Lemma handed_over_ok (h : files_handle) :
  resources_ok h → resources_ok (set_stream None (set_file None (handed_over h))).
Proof.
  intros [Hso Hfo Hsl Hfl Hsa Hfa].
  split; simpl.
  - destruct (prev_stream h) as [ps|] eqn:Eps; simpl.
    + rewrite dom_delete_L, Hso.
      destruct (stream h) as [s|] eqn:Es; simpl; [|set_solver].
      assert (s ≠ ps) by (intros ->; by eapply Hsa).
      set_solver.
    + rewrite Hso. set_solver.
  - destruct (prev_stream h); simpl;
      (destruct (prev_file h) as [pf|] eqn:Epf; simpl;
       [ rewrite Hfo; destruct (file h) as [f|] eqn:Ef; simpl; [|set_solver];
         assert (f ≠ pf) by (intros ->; by eapply Hfa); set_solver
       | rewrite Hfo; set_solver ]).
  - intros s. destruct (prev_stream h); simpl; [rewrite dom_delete_L|]; intros Hin;
      apply Hsl; set_solver.
  - intros f. destruct (prev_stream h), (prev_file h); simpl; intros Hin;
      apply Hfl; set_solver.
  - done.
  - done.
Qed.

Lemma dropped_previous_ok (h : files_handle) :
  resources_ok h → resources_ok (dropped_previous h).
Proof.
  intros [Hso Hfo Hsl Hfl Hsa Hfa].
  split; simpl.
  - destruct (prev_stream h) as [ps|] eqn:Eps; simpl.
    + rewrite dom_delete_L, Hso.
      destruct (stream h) as [s|] eqn:Es; simpl; [|set_solver].
      assert (s ≠ ps) by (intros ->; by eapply Hsa).
      set_solver.
    + rewrite Hso. set_solver.
  - destruct (prev_stream h); simpl;
      (destruct (prev_file h) as [pf|] eqn:Epf; simpl;
       [ rewrite Hfo; destruct (file h) as [f|] eqn:Ef; simpl; [|set_solver];
         assert (f ≠ pf) by (intros ->; by eapply Hfa); set_solver
       | rewrite Hfo; set_solver ]).
  - intros s. destruct (prev_stream h); simpl; [rewrite dom_delete_L|]; intros Hin;
      apply Hsl; set_solver.
  - intros f. destruct (prev_stream h), (prev_file h); simpl; intros Hin;
      apply Hfl; set_solver.
  - done.
  - done.
Qed.

Lemma stopped_ok (h : files_handle) : resources_ok h → resources_ok (stopped h).
Proof.
  intros [Hso Hfo Hsl Hfl Hsa Hfa].
  split; simpl; try done.
  - destruct (stream h), (prev_stream h); simpl in *;
      rewrite ?dom_delete_L, Hso; set_solver.
  - destruct (file h), (prev_file h); simpl in *; rewrite Hfo; set_solver.
  - intros s.
    destruct (stream h), (prev_stream h); simpl in *;
      rewrite ?dom_delete_L; intros Hin; apply Hsl; set_solver.
  - intros f.
    destruct (file h), (prev_file h); simpl in *; intros Hin; apply Hfl; set_solver.
Qed.

(** ** Exact results of [files_play], [files_remove] and [files_add] *)

Lemma files_play_out_of_range fs (h : files_handle) index :
  playlist_len h ≤ play_index h index →
  files_play fs index h = Done (-1) h.
Proof.
  intros Hge. unfold files_play, bind at 1, get at 1. cbv zeta.
  destruct (play_index h index >=? playlist_len h) eqn:E; [reflexivity|lia].
Qed.

Lemma files_play_in_range fs (h : files_handle) index p :
  0 ≤ play_index h index →
  playlist h !! Z.to_nat (play_index h index) = Some p →
  files_play fs index h =
    if file_can_open fs (filename p)
    then Done 0 (set_is_playing true
                   (player_started (set_playlist_cur (play_index h index) (stopped h))))
    else Done (-1) (set_is_playing false
                      (set_playlist_cur (-1)
                         (player_failed (set_playlist_cur (play_index h index) (stopped h))))).
Proof.
  intros Hge Hp.
  pose proof (lookup_lt_Some _ _ _ Hp) as Hlt.
  unfold files_play, bind at 1, get at 1. cbv zeta.
  destruct (play_index h index >=? playlist_len h) eqn:E;
    [unfold playlist_len in E; lia|].
  unfold bind at 1. rewrite files_stop_eq.
  unfold bind at 1, modify at 1. unfold bind at 1.
  rewrite (files_new_player_eq fs _ p) by (simpl; first [lia | exact Hp]).
  destruct (file_can_open fs (filename p)); reflexivity.
Qed.

Lemma files_play_negative fs (h : files_handle) index :
  play_index h index < 0 → files_play fs index h = Fault.
Proof.
  intros Hneg. pose proof (playlist_len_nonneg h).
  unfold files_play, bind at 1, get at 1. cbv zeta.
  destruct (play_index h index >=? playlist_len h) eqn:E; [lia|].
  unfold bind at 1. rewrite files_stop_eq.
  unfold bind at 1, modify at 1. unfold bind at 1.
  rewrite files_new_player_fault by (left; simpl; lia).
  reflexivity.
Qed.

(** The index adjustment at the head of [files_remove]. *)
Lemma files_remove_in_range (h : files_handle) index :
  0 ≤ index < playlist_len h →
  files_remove index h =
    Done 0 (set_playlist (delete (Z.to_nat index) (playlist h))
              (if playlist_cur h =? index then stopped h
               else if playlist_cur h >? index
                    then set_playlist_cur (playlist_cur h - 1) h
                    else h)).
Proof.
  intros Hi.
  destruct (lookup_lt_is_Some_2 (playlist h) (Z.to_nat index)) as [p Hp];
    [unfold playlist_len in Hi; lia|].
  unfold files_remove, bind at 1, get at 1. unfold bind at 1.
  destruct (playlist_cur h =? index) eqn:E.
  - unfold bind at 1. rewrite files_stop_eq. unfold modify at 1.
    unfold bind, playlist_at, get, modify, ret, fault.
    cbn [playlist set_playlist_cur stopped].
    destruct (index <? 0) eqn:E1; [lia|]. rewrite Hp.
    change (playlist_len (set_playlist_cur (-1) (stopped h))) with (playlist_len h).
    destruct (playlist_len h - index - 1 <? 0) eqn:E2; [lia|]. reflexivity.
  - destruct (playlist_cur h >? index) eqn:E0.
    + unfold bind, playlist_at, get, modify, ret, fault.
      cbn [playlist set_playlist_cur].
      destruct (index <? 0) eqn:E1; [lia|]. rewrite Hp.
      change (playlist_len (set_playlist_cur (playlist_cur h - 1) h)) with (playlist_len h).
      destruct (playlist_len h - index - 1 <? 0) eqn:E2; [lia|]. reflexivity.
    + unfold bind, playlist_at, get, modify, ret, fault.
      destruct (index <? 0) eqn:E1; [lia|]. rewrite Hp.
      destruct (playlist_len h - index - 1 <? 0) eqn:E2; [lia|]. reflexivity.
Qed.

Lemma files_remove_out_of_range (h : files_handle) index :
  index < 0 ∨ playlist_len h ≤ index →
  files_remove index h = Fault.
Proof.
  intros Hi.
  assert (Hat : ∀ h' : files_handle, playlist h' = playlist h →
                 playlist_at index h' = Fault).
  { intros h' Hpl. unfold playlist_at. destruct (index <? 0) eqn:E1; [reflexivity|].
    rewrite Hpl, lookup_ge_None_2; [reflexivity|].
    unfold playlist_len in Hi. lia. }
  unfold files_remove, bind at 1, get at 1. unfold bind at 1.
  destruct (playlist_cur h =? index) eqn:E.
  - unfold bind at 1. rewrite files_stop_eq. unfold modify at 1.
    unfold bind at 1. rewrite Hat by reflexivity. reflexivity.
  - destruct (playlist_cur h >? index) eqn:E0.
    + unfold modify at 1. unfold bind at 1. rewrite Hat by reflexivity. reflexivity.
    + unfold ret at 1. unfold bind at 1. rewrite Hat by reflexivity. reflexivity.
Qed.

(** The entry that [files_add] builds for a file name. *)
Lemma files_add_eq fs (h : files_handle) name :
  playlist_len h ≤ playlist_alloc h →
  playlist_len h < INT_MAX →
  (playlist_len h = playlist_alloc h →
   playlist_alloc h + PLAYLIST_ALLOC_SIZE ≤ INT_MAX) →
  files_add fs (Some name) h =
    Done (playlist_len h)
      (set_playlist
         (playlist h ++
            [ {| filename := (path h +:+ "/" +:+ name)%string;
                 format := file_format_parse fs (path h +:+ "/" +:+ name)%string |} ])
         (if playlist_len h =? playlist_alloc h
          then set_playlist_alloc (playlist_alloc h + PLAYLIST_ALLOC_SIZE) h
          else h)).
Proof.
  intros Ha Hm Hov.
  unfold files_add, bind at 1, get at 1. cbv zeta. unfold bind at 1.
  destruct (playlist_len h =? playlist_alloc h) eqn:E.
  - destruct (INT_MAX - PLAYLIST_ALLOC_SIZE <? playlist_alloc h) eqn:E0; [lia|].
    unfold modify at 1. unfold bind at 1, get at 1.
    change (playlist_len (set_playlist_alloc _ h)) with (playlist_len h).
    cbn [playlist_alloc set_playlist_alloc]. unfold PLAYLIST_ALLOC_SIZE.
    destruct (playlist_alloc h + 32 <=? playlist_len h) eqn:E1; [lia|].
    destruct (INT_MAX <=? playlist_len h) eqn:E2; [lia|].
    unfold bind, modify, get, ret. f_equal.
    unfold playlist_len. cbn [playlist set_playlist].
    rewrite length_app. simpl. lia.
  - unfold ret at 1. unfold bind at 1, get at 1.
    destruct (playlist_alloc h <=? playlist_len h) eqn:E1; [lia|].
    destruct (INT_MAX <=? playlist_len h) eqn:E2; [lia|].
    unfold bind, modify, get, ret. f_equal.
    unfold playlist_len. cbn [playlist set_playlist].
    rewrite length_app. simpl. lia.
Qed.

(** ** Every operation keeps the invariant *)

Lemma files_open_wf root : wf (files_open output_init decoder_init root).
Proof.
  split; [|split].
  - left. reflexivity.
  - split; simpl; try done; set_solver.
  - unfold playlist_len, files_open, PLAYLIST_ALLOC_SIZE. simpl. lia.
Qed.

Lemma stopped_wf (h : files_handle) : wf h → wf (stopped h).
Proof.
  intros (_ & Hres & Hcap). split; [|split].
  - left. reflexivity.
  - by apply stopped_ok.
  - exact Hcap.
Qed.

Lemma dropped_previous_wf (h : files_handle) : wf h → wf (dropped_previous h).
Proof.
  intros (Hcur & Hres & Hcap). split; [|split].
  - exact Hcur.
  - by apply dropped_previous_ok.
  - exact Hcap.
Qed.

Lemma files_play_next_wf fs (h : files_handle) :
  wf h →
  total (files_play_next fs) h (λ _ h', wf h' ∧ scan_frame (handed_over h) h').
Proof.
  intros (Hcur & Hres & Hcap). pose proof (playlist_len_nonneg h).
  unfold total. rewrite files_play_next_eq.
  apply play_next_loop_wf.
  - change (playlist_len (handed_over h)) with (playlist_len h).
    change (playlist_cur (handed_over h)) with (playlist_cur h).
    destruct Hcur; lia.
  - change (playlist_len (handed_over h)) with (playlist_len h).
    change (playlist_cur (handed_over h)) with (playlist_cur h). lia.
  - by apply handed_over_ok.
  - exact Hcap.
Qed.

Lemma files_play_prev_wf fs (h : files_handle) :
  wf h → 0 ≤ playlist_cur h →
  total (files_play_prev fs) h (λ _ h', wf h' ∧ scan_frame (handed_over h) h').
Proof.
  intros (Hcur & Hres & Hcap) Hpos.
  unfold total. rewrite files_play_prev_eq.
  apply play_prev_loop_wf.
  - change (playlist_len (handed_over h)) with (playlist_len h).
    change (playlist_cur (handed_over h)) with (playlist_cur h).
    destruct Hcur; lia.
  - change (playlist_cur (handed_over h)) with (playlist_cur h). lia.
  - by apply handed_over_ok.
  - exact Hcap.
Qed.

Lemma files_next_wf fs (h : files_handle) :
  wf h → total (files_next fs) h (λ r h', r = 0 ∧ wf h').
Proof.
  intros Hwf. unfold files_next. twp.
  destruct (negb (playlist_cur h =? -1) && (playlist_cur h + 1 <=? playlist_len h)).
  - apply total_bind. eapply total_mono; [by apply files_play_next_wf|].
    intros _ h1 [Hwf1 _]. unfold total. rewrite drop_previous_eq.
    split; [reflexivity|]. by apply dropped_previous_wf.
  - twp. done.
Qed.

Lemma files_prev_wf fs (h : files_handle) :
  wf h → total (files_prev fs) h (λ r h', r = 0 ∧ wf h').
Proof.
  intros Hwf. unfold files_prev. twp.
  destruct (negb (playlist_cur h =? -1) && (playlist_cur h >=? 0)) eqn:E.
  - apply total_bind. eapply total_mono; [apply files_play_prev_wf; [done|lia]|].
    intros _ h1 [Hwf1 _]. unfold total. rewrite drop_previous_eq.
    split; [reflexivity|]. by apply dropped_previous_wf.
  - twp. done.
Qed.

Lemma files_thread_step_wf fs at_end (h : files_handle) :
  wf h → total (files_thread_step fs at_end) h (λ _ h', wf h').
Proof.
  intros Hwf. unfold files_thread_step. twp.
  destruct (negb (playlist_cur h =? -1) && (playlist_cur h + 1 <=? playlist_len h)).
  - destruct (bool_decide (file h ≠ None) && at_end).
    + eapply total_mono; [by apply files_play_next_wf|]. by intros _ h1 [Hwf1 _].
    + twp. done.
  - twp. done.
Qed.

Lemma files_stop_wf (h : files_handle) :
  wf h → total files_stop h (λ r h', r = 0 ∧ wf h').
Proof.
  intros Hwf. unfold total. rewrite files_stop_eq.
  split; [reflexivity|]. by apply stopped_wf.
Qed.

Lemma resources_ok_output (h h' : files_handle) :
  dom (streams (output h')) = dom (streams (output h)) →
  next_stream (output h') = next_stream (output h) →
  files h' = files h →
  stream h' = stream h → file h' = file h →
  prev_stream h' = prev_stream h → prev_file h' = prev_file h →
  resources_ok h → resources_ok h'.
Proof.
  intros Ho Hn Hd Hs Hf Hps Hpf [Ra Rb Rc Rd Re Rf].
  split; rewrite ?Ho, ?Hn, ?Hd, ?Hs, ?Hf, ?Hps, ?Hpf; assumption.
Qed.

Lemma files_pause_wf (h : files_handle) :
  wf h → total files_pause h (λ r h', r = 0 ∧ wf h').
Proof.
  intros (Hcur & Hres & Hcap). unfold files_pause. twp.
  destruct (stream h) as [s|] eqn:Es.
  - destruct (is_playing h); cbn [negb]; twp;
      (split; [reflexivity|]); (split; [exact Hcur|split; [|exact Hcap]]);
      (eapply resources_ok_output; [..|exact Hres]); simpl; rewrite ?Es; simpl;
      rewrite ?dom_alter_L; reflexivity.
  - twp. split; [reflexivity|]. done.
Qed.

Lemma files_flush_wf (h : files_handle) :
  wf h → total files_flush h (λ _ h', wf h').
Proof.
  intros Hwf. unfold files_flush. apply total_bind.
  unfold total at 1. rewrite files_stop_eq. twp.
  destruct (stopped_wf h Hwf) as (_ & Hres & Hcap).
  pose proof (playlist_len_nonneg h).
  split; [|split].
  - left. reflexivity.
  - revert Hres. apply resources_ok_ext; reflexivity.
  - change (playlist_len (stopped h)) with (playlist_len h) in Hcap.
    cbn [playlist_alloc stopped] in Hcap.
    unfold playlist_len at 1. simpl. lia.
Qed.

Lemma files_add_wf fs name (h : files_handle) :
  wf h → post (files_add fs name) h (λ _ h', wf h').
Proof.
  intros (Hcur & Hres & Hcap). destruct name as [name|]; [|by apply post_ret].
  destruct (Z_lt_le_dec (playlist_len h) INT_MAX) as [Hlt|Hge].
  - destruct (decide (playlist_len h = playlist_alloc h
                      ∧ INT_MAX < playlist_alloc h + PLAYLIST_ALLOC_SIZE))
      as [[He Hov]|Hok].
    { unfold files_add. wp. rewrite (proj2 (Z.eqb_eq _ _) He). wp.
      destruct (INT_MAX - PLAYLIST_ALLOC_SIZE <? playlist_alloc h) eqn:E0; [wp|lia]. }
    unfold post. rewrite files_add_eq by first [assumption | lia].
    assert (Hlen : ∀ x (h' : files_handle), playlist h' = playlist h →
              playlist_len (set_playlist (playlist h ++ [x]) h') = playlist_len h + 1).
    { intros x h' Hpl. unfold playlist_len. simpl. rewrite length_app. simpl. lia. }
    split; [|split].
    + destruct Hcur as [Hc|Hc]; [left|right].
      * destruct (playlist_len h =? playlist_alloc h); exact Hc.
      * rewrite Hlen by (destruct (playlist_len h =? playlist_alloc h); reflexivity).
        destruct (playlist_len h =? playlist_alloc h); simpl; lia.
    + revert Hres. apply resources_ok_ext;
        destruct (playlist_len h =? playlist_alloc h); reflexivity.
    + rewrite Hlen by (destruct (playlist_len h =? playlist_alloc h); reflexivity).
      unfold PLAYLIST_ALLOC_SIZE.
      destruct (playlist_len h =? playlist_alloc h) eqn:E; simpl; lia.
  - unfold files_add. wp.
    destruct (playlist_len h =? playlist_alloc h); wp.
    + destruct (INT_MAX - PLAYLIST_ALLOC_SIZE <? playlist_alloc h); wp.
      change (playlist_len (set_playlist_alloc _ h)) with (playlist_len h).
      destruct (_ <=? playlist_len h); wp.
      destruct (INT_MAX <=? playlist_len h) eqn:E; [wp; done | lia].
    + destruct (_ <=? playlist_len h); wp.
      destruct (INT_MAX <=? playlist_len h) eqn:E; [wp; done | lia].
Qed.

Lemma files_remove_wf index (h : files_handle) :
  wf h → post (files_remove index) h (λ _ h', wf h').
Proof.
  intros Hwf.
  destruct (Z_lt_le_dec index 0) as [Hneg|Hpos];
    [unfold post; rewrite files_remove_out_of_range by lia; exact I|].
  destruct (Z_lt_le_dec index (playlist_len h)) as [Hlt|Hge];
    [|unfold post; rewrite files_remove_out_of_range by lia; exact I].
  unfold post. rewrite files_remove_in_range by lia.
  destruct (playlist_len_lookup h index) as [p Hp]; [lia|].
  assert (Hlen : ∀ h' : files_handle, playlist h' = playlist h →
            playlist_len (set_playlist (delete (Z.to_nat index) (playlist h)) h')
            = playlist_len h - 1).
  { intros h' Hpl. unfold playlist_len in *. simpl.
    rewrite length_delete by eauto. lia. }
  destruct (playlist_cur h =? index) eqn:E.
  - destruct (stopped_wf h Hwf) as (_ & Hres & Hcap).
    split; [|split].
    + left. reflexivity.
    + revert Hres. apply resources_ok_ext; reflexivity.
    + rewrite Hlen by reflexivity.
      change (playlist_len (stopped h)) with (playlist_len h) in Hcap. fields. lia.
  - destruct Hwf as (Hcur & Hres & Hcap).
    destruct (playlist_cur h >? index) eqn:E0.
    + split; [|split].
      * right. rewrite Hlen by reflexivity. fields. destruct Hcur; lia.
      * revert Hres. apply resources_ok_ext; reflexivity.
      * rewrite Hlen by reflexivity. fields. lia.
    + split; [|split].
      * destruct Hcur as [Hc|Hc]; [by left|right].
        rewrite Hlen by reflexivity. fields. lia.
      * revert Hres. apply resources_ok_ext; reflexivity.
      * rewrite Hlen by reflexivity. fields. lia.
Qed.

Lemma files_play_wf fs index (h : files_handle) :
  wf h → post (files_play fs index) h (λ _ h', wf h').
Proof.
  intros Hwf.
  destruct (Z_lt_le_dec (play_index h index) 0) as [Hneg|Hpos];
    [unfold post; rewrite files_play_negative by lia; exact I|].
  destruct (Z_lt_le_dec (play_index h index) (playlist_len h)) as [Hlt|Hge];
    [|unfold post; rewrite files_play_out_of_range by lia; exact Hwf].
  destruct (playlist_len_lookup h (play_index h index)) as [p Hp]; [lia|].
  unfold post. rewrite (files_play_in_range fs h index p) by assumption.
  destruct (stopped_wf h Hwf) as (_ & Hres & Hcap).
  assert (Hmid : resources_ok
            (set_stream None (set_file None
               (set_playlist_cur (play_index h index) (stopped h)))))
    by (revert Hres; apply resources_ok_ext; reflexivity).
  destruct (file_can_open fs (filename p)).
  - split; [|split].
    + right. simpl.
      change (playlist_len (set_is_playing true _)) with (playlist_len h). lia.
    + apply player_started_ok in Hmid. revert Hmid.
      apply resources_ok_ext; reflexivity.
    + exact Hcap.
  - split; [|split].
    + left. reflexivity.
    + apply player_failed_ok in Hmid. revert Hmid.
      apply resources_ok_ext; reflexivity.
    + exact Hcap.
Qed.

Lemma run_op_wf fs o (h : files_handle) :
  wf h → post (run_op fs o) h (λ _ h', wf h').
Proof.
  intros Hwf. destruct o; simpl.
  - apply post_bind. eapply post_mono; [by apply files_add_wf|].
    intros; by apply post_ret.
  - apply post_bind. eapply post_mono; [by apply files_remove_wf|].
    intros; by apply post_ret.
  - apply total_post. by apply files_flush_wf.
  - apply post_bind. eapply post_mono; [by apply files_play_wf|].
    intros; by apply post_ret.
  - apply post_bind. eapply post_mono; [by apply total_post, files_pause_wf|].
    intros ? ? [_ ?]; by apply post_ret.
  - apply post_bind. eapply post_mono; [by apply total_post, files_stop_wf|].
    intros ? ? [_ ?]; by apply post_ret.
  - apply post_bind. eapply post_mono; [by apply total_post, files_next_wf|].
    intros ? ? [_ ?]; by apply post_ret.
  - apply post_bind. eapply post_mono; [by apply total_post, files_prev_wf|].
    intros ? ? [_ ?]; by apply post_ret.
  - apply total_post. by apply files_thread_step_wf.
Qed.

Lemma run_ops_wf fs ops : ∀ h : files_handle,
  wf h → post (run_ops fs ops) h (λ _ h', wf h').
Proof.
  induction ops as [|o ops IH]; intros h Hwf; simpl.
  - by apply post_ret.
  - apply post_bind. eapply post_mono; [by apply run_op_wf|].
    intros ? h' Hwf'. by apply IH.
Qed.

(** ** Which entry a scan selects *)

Lemma play_next_loop_found fs fuel : ∀ (h : files_handle) j,
  -1 ≤ playlist_cur h < j →
  (∀ i, playlist_cur h < i < j → entry_fails fs h i) →
  entry_opens fs h j →
  j - playlist_cur h ≤ Z.of_nat fuel →
  ∃ h', play_next_loop fs fuel h = Done tt h' ∧ playlist_cur h' = j ∧
        is_Some (stream h') ∧ is_Some (file h') ∧ scan_frame h h'.
Proof.
  induction fuel as [|fuel IH]; intros h j Hc Hfail Hopen Hfuel; [lia|].
  destruct (Z.eq_dec (playlist_cur h + 1) j) as [Heq|Hne].
  - destruct Hopen as (_ & p & Hp & Hcan). rewrite <- Heq in Hp.
    rewrite (play_next_loop_step fs fuel h p) by (lia || exact Hp).
    rewrite Hcan. eexists. split; [reflexivity|].
    split; [simpl; lia|]. split; [simpl; eauto|]. split; [simpl; eauto|].
    split; simpl; try done; try lia; intros ? [= <-]; lia.
  - destruct (Hfail (playlist_cur h + 1)) as (_ & p & Hp & Hcan); [lia|].
    rewrite (play_next_loop_step fs fuel h p) by (lia || exact Hp).
    rewrite Hcan.
    destruct (IH (player_failed (set_playlist_cur (playlist_cur h + 1) h)) j)
      as (h' & Hrun & Hcur & Hs & Hf & Hfr).
    + simpl. lia.
    + intros i Hi. apply Hfail. simpl in Hi. lia.
    + exact Hopen.
    + simpl. lia.
    + exists h'. do 4 (split; [assumption|]).
      eapply scan_frame_trans; [|exact Hfr].
      split; simpl; try done; lia.
Qed.

Lemma play_next_loop_none fs fuel : ∀ h : files_handle,
  -1 ≤ playlist_cur h < playlist_len h →
  (∀ i, playlist_cur h < i < playlist_len h → entry_fails fs h i) →
  playlist_len h - playlist_cur h ≤ Z.of_nat fuel →
  ∃ h', play_next_loop fs fuel h = Done tt h' ∧ playlist_cur h' = -1 ∧
        stream h' = None ∧ file h' = None ∧ playlist h' = playlist h.
Proof.
  induction fuel as [|fuel IH]; intros h Hc Hfail Hfuel; [lia|].
  destruct (Z.eq_dec (playlist_cur h + 1) (playlist_len h)) as [Heq|Hne].
  - rewrite play_next_loop_end by lia. eexists. split; [reflexivity|]. done.
  - destruct (Hfail (playlist_cur h + 1)) as (_ & p & Hp & Hcan); [lia|].
    rewrite (play_next_loop_step fs fuel h p) by (lia || exact Hp).
    rewrite Hcan.
    destruct (IH (player_failed (set_playlist_cur (playlist_cur h + 1) h)))
      as (h' & Hrun & Hcur & Hs & Hf & Hpl).
    + change (playlist_len (player_failed _)) with (playlist_len h). simpl. lia.
    + change (playlist_len (player_failed _)) with (playlist_len h).
      intros i Hi. apply Hfail. simpl in Hi. lia.
    + change (playlist_len (player_failed _)) with (playlist_len h). simpl. lia.
    + exists h'. do 4 (split; [assumption|]). exact Hpl.
Qed.

Lemma play_prev_loop_found fs fuel : ∀ (h : files_handle) j,
  0 ≤ j < playlist_cur h →
  (∀ i, j < i < playlist_cur h → entry_fails fs h i) →
  entry_opens fs h j →
  playlist_cur h - j ≤ Z.of_nat fuel →
  ∃ h', play_prev_loop fs fuel h = Done tt h' ∧ playlist_cur h' = j ∧
        is_Some (stream h') ∧ is_Some (file h') ∧ scan_frame h h'.
Proof.
  induction fuel as [|fuel IH]; intros h j Hc Hfail Hopen Hfuel; [lia|].
  destruct (Z.eq_dec (playlist_cur h - 1) j) as [Heq|Hne].
  - destruct Hopen as (_ & p & Hp & Hcan). rewrite <- Heq in Hp.
    rewrite (play_prev_loop_step fs fuel h p) by (lia || exact Hp).
    rewrite Hcan. eexists. split; [reflexivity|].
    split; [simpl; lia|]. split; [simpl; eauto|]. split; [simpl; eauto|].
    split; simpl; try done; try lia; intros ? [= <-]; lia.
  - destruct (Hfail (playlist_cur h - 1)) as (_ & p & Hp & Hcan); [lia|].
    rewrite (play_prev_loop_step fs fuel h p) by (lia || exact Hp).
    rewrite Hcan.
    destruct (IH (player_failed (set_playlist_cur (playlist_cur h - 1) h)) j)
      as (h' & Hrun & Hcur & Hs & Hf & Hfr).
    + simpl. lia.
    + intros i Hi. apply Hfail. simpl in Hi. lia.
    + exact Hopen.
    + simpl. lia.
    + exists h'. do 4 (split; [assumption|]).
      eapply scan_frame_trans; [|exact Hfr].
      split; simpl; try done; lia.
Qed.

Lemma play_prev_loop_none fs fuel : ∀ h : files_handle,
  0 ≤ playlist_cur h →
  (∀ i, 0 ≤ i < playlist_cur h → entry_fails fs h i) →
  playlist_cur h < Z.of_nat fuel →
  ∃ h', play_prev_loop fs fuel h = Done tt h' ∧ playlist_cur h' = -1 ∧
        stream h' = None ∧ file h' = None ∧ playlist h' = playlist h.
Proof.
  induction fuel as [|fuel IH]; intros h Hc Hfail Hfuel; [lia|].
  destruct (Z.eq_dec (playlist_cur h) 0) as [Heq|Hne].
  - rewrite play_prev_loop_end by lia. eexists. split; [reflexivity|]. done.
  - destruct (Hfail (playlist_cur h - 1)) as (_ & p & Hp & Hcan); [lia|].
    rewrite (play_prev_loop_step fs fuel h p) by (lia || exact Hp).
    rewrite Hcan.
    destruct (IH (player_failed (set_playlist_cur (playlist_cur h - 1) h)))
      as (h' & Hrun & Hcur & Hs & Hf & Hpl).
    + simpl. lia.
    + intros i Hi. apply Hfail. simpl in Hi. lia.
    + simpl. lia.
    + exists h'. do 4 (split; [assumption|]). exact Hpl.
Qed.

(** [files_next] and [files_prev] in terms of the scan they run. *)
Lemma files_next_eq fs (h h1 : files_handle) :
  playlist_cur h ≠ -1 → playlist_cur h + 1 ≤ playlist_len h →
  files_play_next fs h = Done tt h1 →
  files_next fs h = Done 0 (dropped_previous h1).
Proof.
  intros Hc Hl Hrun. unfold files_next, bind at 1, get at 1. unfold bind at 1.
  destruct (negb (playlist_cur h =? -1) && (playlist_cur h + 1 <=? playlist_len h)) eqn:E;
    [|lia].
  unfold bind at 1. rewrite Hrun. rewrite drop_previous_eq. reflexivity.
Qed.

Lemma files_prev_eq fs (h h1 : files_handle) :
  0 ≤ playlist_cur h →
  files_play_prev fs h = Done tt h1 →
  files_prev fs h = Done 0 (dropped_previous h1).
Proof.
  intros Hc Hrun. unfold files_prev, bind at 1, get at 1. unfold bind at 1.
  destruct (negb (playlist_cur h =? -1) && (playlist_cur h >=? 0)) eqn:E; [|lia].
  unfold bind at 1. rewrite Hrun. rewrite drop_previous_eq. reflexivity.
Qed.

(** ** [files_next] and [files_prev]: the entry selected *)

Lemma entry_opens_lt fs (h : files_handle) j :
  entry_opens fs h j → 0 ≤ j < playlist_len h.
Proof.
  intros (Hj & p & Hp & _). apply lookup_lt_Some in Hp.
  unfold playlist_len. lia.
Qed.

Lemma files_next_found fs (h : files_handle) j :
  0 ≤ playlist_cur h < j →
  (∀ i, playlist_cur h < i < j → entry_fails fs h i) →
  entry_opens fs h j →
  ∃ h', files_next fs h = Done 0 h' ∧ playlist_cur h' = j
    ∧ is_Some (stream h') ∧ is_Some (file h')
    ∧ prev_stream h' = None ∧ prev_file h' = None
    ∧ playlist h' = playlist h.
Proof.
  intros Hc Hfail Hopen.
  pose proof (entry_opens_lt fs h j Hopen) as Hj.
  destruct (play_next_loop_found fs
              (S (Z.to_nat (playlist_len h - playlist_cur h))) (handed_over h) j)
    as (h1 & Hrun & Hcur & Hs & Hf & Hfr).
  - simpl. lia.
  - exact Hfail.
  - exact Hopen.
  - simpl. lia.
  - exists (dropped_previous h1). split.
    + apply files_next_eq; [lia|lia|]. rewrite files_play_next_eq. exact Hrun.
    + split; [exact Hcur|]. split; [exact Hs|]. split; [exact Hf|].
      split; [reflexivity|]. split; [reflexivity|]. apply (frame_playlist _ _ Hfr).
Qed.

Lemma files_next_none fs (h : files_handle) :
  0 ≤ playlist_cur h < playlist_len h →
  (∀ i, playlist_cur h < i < playlist_len h → entry_fails fs h i) →
  ∃ h', files_next fs h = Done 0 h' ∧ STOPPED h' ∧ file h' = None
    ∧ prev_stream h' = None ∧ prev_file h' = None
    ∧ playlist h' = playlist h.
Proof.
  intros Hc Hfail.
  destruct (play_next_loop_none fs
              (S (Z.to_nat (playlist_len h - playlist_cur h))) (handed_over h))
    as (h1 & Hrun & Hcur & Hs & Hf & Hpl).
  - change (playlist_len (handed_over h)) with (playlist_len h). simpl. lia.
  - exact Hfail.
  - change (playlist_len (handed_over h)) with (playlist_len h). simpl. lia.
  - exists (dropped_previous h1). split.
    + apply files_next_eq; [lia|lia|]. rewrite files_play_next_eq. exact Hrun.
    + split; [split; [exact Hcur|exact Hs]|]. split; [exact Hf|].
      split; [reflexivity|]. split; [reflexivity|]. exact Hpl.
Qed.

Lemma files_prev_found fs (h : files_handle) j :
  0 ≤ j < playlist_cur h →
  (∀ i, j < i < playlist_cur h → entry_fails fs h i) →
  entry_opens fs h j →
  ∃ h', files_prev fs h = Done 0 h' ∧ playlist_cur h' = j
    ∧ is_Some (stream h') ∧ is_Some (file h')
    ∧ prev_stream h' = None ∧ prev_file h' = None
    ∧ playlist h' = playlist h.
Proof.
  intros Hc Hfail Hopen.
  destruct (play_prev_loop_found fs
              (S (Z.to_nat (playlist_cur h + 1))) (handed_over h) j)
    as (h1 & Hrun & Hcur & Hs & Hf & Hfr).
  - simpl. lia.
  - exact Hfail.
  - exact Hopen.
  - simpl. lia.
  - exists (dropped_previous h1). split.
    + apply files_prev_eq; [lia|]. rewrite files_play_prev_eq. exact Hrun.
    + split; [exact Hcur|]. split; [exact Hs|]. split; [exact Hf|].
      split; [reflexivity|]. split; [reflexivity|]. apply (frame_playlist _ _ Hfr).
Qed.

Lemma files_prev_none fs (h : files_handle) :
  0 ≤ playlist_cur h →
  (∀ i, 0 ≤ i < playlist_cur h → entry_fails fs h i) →
  ∃ h', files_prev fs h = Done 0 h' ∧ STOPPED h' ∧ file h' = None
    ∧ prev_stream h' = None ∧ prev_file h' = None
    ∧ playlist h' = playlist h.
Proof.
  intros Hc Hfail.
  destruct (play_prev_loop_none fs
              (S (Z.to_nat (playlist_cur h + 1))) (handed_over h))
    as (h1 & Hrun & Hcur & Hs & Hf & Hpl).
  - simpl. lia.
  - exact Hfail.
  - simpl. lia.
  - exists (dropped_previous h1). split.
    + apply files_prev_eq; [lia|]. rewrite files_play_prev_eq. exact Hrun.
    + split; [split; [exact Hcur|exact Hs]|]. split; [exact Hf|].
      split; [reflexivity|]. split; [reflexivity|]. exact Hpl.
Qed.

(** ** Release of the previous pair *)

Lemma released_previous_free (h : files_handle) :
  handle_set (prev_stream h) ## dom (streams (output (released_previous h)))
  ∧ handle_set (prev_file h) ## opened (files (released_previous h))
  ∧ prev_stream (released_previous h) = prev_stream h
  ∧ prev_file (released_previous h) = prev_file h.
Proof.
  split; [|split; [|split; reflexivity]]; simpl.
  - destruct (prev_stream h); simpl; rewrite ?dom_delete_L; set_solver.
  - destruct (prev_file h); simpl; set_solver.
Qed.

Lemma handed_over_free (h : files_handle) :
  resources_ok h →
  handle_set (prev_stream h) ## dom (streams (output (handed_over h)))
  ∧ handle_set (prev_file h) ## opened (files (handed_over h)).
Proof.
  intros _. destruct (released_previous_free h) as (Hs & Hf & _). split; assumption.
Qed.

Lemma handed_over_next (h : files_handle) :
  next_stream (output (handed_over h)) = next_stream (output h)
  ∧ next_file (files (handed_over h)) = next_file (files h).
Proof.
  unfold handed_over, released_previous. simpl.
  destruct (prev_stream h), (prev_file h); split; reflexivity.
Qed.

Lemma scan_releases (h h2 : files_handle) :
  resources_ok h → resources_ok h2 → scan_frame (handed_over h) h2 →
  handle_set (prev_stream h) ## dom (streams (output h2))
  ∧ handle_set (prev_file h) ## opened (files h2)
  ∧ prev_stream h2 = stream h ∧ prev_file h2 = file h.
Proof.
  intros [Hso Hfo Hsl Hfl Hsa Hfa] [Hso2 Hfo2 _ _ _ _] Hfr.
  pose proof (frame_prev_stream _ _ Hfr) as Hps. simpl in Hps.
  pose proof (frame_prev_file _ _ Hfr) as Hpf. simpl in Hpf.
  pose proof (frame_stream_new _ _ Hfr) as Hsn.
  pose proof (frame_file_new _ _ Hfr) as Hfn.
  split; [|split; [|split; assumption]].
  - destruct (prev_stream h) as [ps|] eqn:Eps; simpl; [|set_solver].
    apply disjoint_singleton_l. rewrite Hso2. intros Hin.
    apply elem_of_union in Hin as [Hin|Hin]; apply handle_set_Some in Hin.
    + apply Hsn in Hin.
      assert (ps < next_stream (output h))%nat
        by (apply Hsl; rewrite Hso; simpl; set_solver).
      rewrite (proj1 (handed_over_next h)) in Hin. lia.
    + rewrite Hps in Hin. by apply (Hsa ps Hin).
  - destruct (prev_file h) as [pf|] eqn:Epf; simpl; [|set_solver].
    apply disjoint_singleton_l. rewrite Hfo2. intros Hin.
    apply elem_of_union in Hin as [Hin|Hin]; apply handle_set_Some in Hin.
    + apply Hfn in Hin.
      assert (pf < next_file (files h))%nat
        by (apply Hfl; rewrite Hfo; simpl; set_solver).
      rewrite (proj2 (handed_over_next h)) in Hin. lia.
    + rewrite Hpf in Hin. by apply (Hfa pf Hin).
Qed.

(** ** The properties of the design document *)

(** The index range on the runs that have a defined result: whatever
    sequence of add, remove, flush, play, pause, stop, next, prev and
    watcher wake-ups has run from the state [files_open] builds without
    leaving the playlist, the state reached has its current index equal to
    -1 or inside [0, playlist length). *)
Theorem cur_always_in_range fs root ops (h : files_handle) :
  run_ops fs ops (files_open output_init decoder_init root) = Done tt h →
  cur_in_range h.
Proof.
  intros Hrun.
  pose proof (run_ops_wf fs ops _ (files_open_wf root)) as Hpost.
  apply (post_done _ _ _ _ _ Hpost) in Hrun. exact (proj1 Hrun).
Qed.

Lemma cur_always_in_range_witness :
  run_ops Examples.library Examples.session
    (files_open output_init decoder_init "/music") = Done tt Examples.session_end
  ∧ cur_in_range Examples.session_end.
Proof.
  assert (Hrun : run_ops Examples.library Examples.session
                   (files_open output_init decoder_init "/music")
                 = Done tt Examples.session_end) by (vm_compute; reflexivity).
  split; [exact Hrun|].
  exact (cur_always_in_range Examples.library "/music" Examples.session
           Examples.session_end Hrun).
Defined.

(** No sequence of operations exhausts the iteration budget of a scan. *)
Lemma run_ops_never_stalls fs root ops :
  run_ops fs ops (files_open output_init decoder_init root) ≠ Stalled.
Proof.
  intros Hrun.
  pose proof (run_ops_wf fs ops _ (files_open_wf root)) as Hpost.
  unfold post in Hpost. rewrite Hrun in Hpost. exact Hpost.
Qed.

(** C9.  [files_stop] ends in every state; afterwards no stream and no
    file is current or previous, the streams and files that were are
    removed from the output and closed, the playing flag is clear and the
    current index is -1; stopping again changes nothing. *)
Theorem stop_tears_down_and_is_idempotent (h : files_handle) :
  ∃ h', files_stop h = Done 0 h'
    ∧ stream h' = None ∧ file h' = None
    ∧ prev_stream h' = None ∧ prev_file h' = None
    ∧ is_playing h' = false ∧ playlist_cur h' = -1
    ∧ dom (streams (output h'))
        = dom (streams (output h)) ∖ (handle_set (stream h) ∪ handle_set (prev_stream h))
    ∧ opened (files h')
        = opened (files h) ∖ (handle_set (file h) ∪ handle_set (prev_file h))
    ∧ playlist h' = playlist h
    ∧ files_stop h' = Done 0 h'
    ∧ (files_stop ;; files_stop) h = files_stop h.
Proof.
  exists (stopped h). rewrite !files_stop_eq.
  split; [reflexivity|]. do 6 (split; [reflexivity|]).
  split; [|split; [|split; [reflexivity|split]]].
  - simpl. destruct (stream h), (prev_stream h); simpl;
      rewrite ?dom_delete_L; set_solver.
  - simpl. destruct (file h), (prev_file h); simpl; set_solver.
  - reflexivity.
  - unfold bind. rewrite !files_stop_eq. reflexivity.
Qed.

(** C5.  An index at or beyond the playlist length makes [files_play]
    (and the handler of /playlist/play/<index>) report an error and leave
    the handle as it was; so does "resume last" ([-1], the request /play
    without a file name) on an empty playlist with no current index. *)
Theorem play_out_of_range_is_rejected fs (h : files_handle) :
  (∀ index, playlist_len h ≤ index →
     files_play fs index h = Done (-1) h
     ∧ files_httpd_playlist_play fs index h
       = Done (500, Some "Playlist error"%string) h)
  ∧ (playlist h = [] → playlist_cur h < 0 →
     files_play fs (-1) h = Done (-1) h
     ∧ files_httpd_play fs "" h
       = Done (406, Some "Cannot play the file"%string) h).
Proof.
  pose proof (playlist_len_nonneg h) as Hlen.
  split.
  - intros index Hge.
    assert (Hidx : play_index h index = index).
    { unfold play_index. destruct (index =? -1) eqn:E; [lia|reflexivity]. }
    assert (Hplay : files_play fs index h = Done (-1) h)
      by (apply files_play_out_of_range; lia).
    split; [exact Hplay|].
    unfold files_httpd_playlist_play.
    destruct (index <? 0) eqn:E; [lia|].
    unfold bind. rewrite Hplay. reflexivity.
  - intros Hnil Hcur.
    assert (Hplay : files_play fs (-1) h = Done (-1) h).
    { apply files_play_out_of_range. unfold play_index, playlist_len.
      rewrite Hnil. simpl.
      destruct (playlist_cur h <? 0) eqn:E; simpl; lia. }
    split; [exact Hplay|].
    unfold files_httpd_play. simpl. unfold bind. rewrite Hplay. reflexivity.
Qed.

Lemma play_out_of_range_is_rejected_witness :
  (playlist_len Examples.fresh ≤ 3
   ∧ files_play Examples.library 3 Examples.fresh = Done (-1) Examples.fresh
   ∧ files_httpd_playlist_play Examples.library 3 Examples.fresh
     = Done (500, Some "Playlist error"%string) Examples.fresh)
  ∧ (playlist Examples.fresh = [] ∧ playlist_cur Examples.fresh < 0
     ∧ files_play Examples.library (-1) Examples.fresh = Done (-1) Examples.fresh
     ∧ files_httpd_play Examples.library "" Examples.fresh
       = Done (406, Some "Cannot play the file"%string) Examples.fresh).
Proof.
  destruct (play_out_of_range_is_rejected Examples.library Examples.fresh)
    as [Hrange Hresume].
  assert (Hle : playlist_len Examples.fresh ≤ 3) by (vm_compute; discriminate).
  assert (Hnil : playlist Examples.fresh = []) by reflexivity.
  assert (Hcur : playlist_cur Examples.fresh < 0) by reflexivity.
  split.
  - split; [exact Hle|]. exact (Hrange 3 Hle).
  - split; [exact Hnil|]. split; [exact Hcur|]. exact (Hresume Hnil Hcur).
Defined.

(** C10.  When the entry at an in-range index does not open, [files_play]
    reports an error and leaves the engine stopped: index -1, no current or
    previous stream or file, playing flag clear, the streams of the prior
    playback removed from the output.  The playlist is kept.  If something
    was playing, the state therefore differs from the one before the call. *)
Theorem play_failure_leaves_stopped fs (h : files_handle) index p :
  0 ≤ index →
  playlist h !! Z.to_nat index = Some p →
  file_can_open fs (filename p) = false →
  ∃ h', files_play fs index h = Done (-1) h'
    ∧ files_httpd_playlist_play fs index h
      = Done (500, Some "Playlist error"%string) h'
    ∧ playlist_cur h' = -1
    ∧ stream h' = None ∧ file h' = None
    ∧ prev_stream h' = None ∧ prev_file h' = None
    ∧ is_playing h' = false
    ∧ playlist h' = playlist h
    ∧ dom (streams (output h'))
        = dom (streams (output h)) ∖ (handle_set (stream h) ∪ handle_set (prev_stream h))
    ∧ (stream h ≠ None → h' ≠ h).
Proof.
  intros Hpos Hp Hcan.
  assert (Hidx : play_index h index = index).
  { unfold play_index. destruct (index =? -1) eqn:E; [lia|reflexivity]. }
  assert (Hplay : files_play fs index h =
            Done (-1) (set_is_playing false
                         (set_playlist_cur (-1)
                            (player_failed (set_playlist_cur index (stopped h)))))).
  { rewrite (files_play_in_range fs h index p) by (rewrite Hidx; assumption).
    rewrite Hcan, Hidx. reflexivity. }
  eexists. split; [exact Hplay|].
  split.
  { unfold files_httpd_playlist_play.
    destruct (index <? 0) eqn:E; [lia|].
    unfold bind. rewrite Hplay. reflexivity. }
  do 7 (split; [reflexivity|]).
  split.
  - simpl. destruct (stream h), (prev_stream h); simpl;
      rewrite ?dom_delete_L; set_solver.
  - intros Hs Heq. apply Hs. rewrite <- Heq. reflexivity.
Qed.

Lemma play_failure_leaves_stopped_witness :
  0 ≤ 1
  ∧ playlist Examples.playing_first !! Z.to_nat 1
    = Some {| filename := "/music/bad.mp3"; format := None |}
  ∧ file_can_open Examples.library "/music/bad.mp3" = false
  ∧ ∃ h', files_play Examples.library 1 Examples.playing_first = Done (-1) h'
      ∧ playlist_cur h' = -1 ∧ stream h' = None ∧ is_playing h' = false
      ∧ h' ≠ Examples.playing_first.
Proof.
  assert (Hpos : 0 ≤ 1) by lia.
  assert (Hp : playlist Examples.playing_first !! Z.to_nat 1
               = Some {| filename := "/music/bad.mp3"; format := None |})
    by reflexivity.
  assert (Hcan : file_can_open Examples.library "/music/bad.mp3" = false)
    by reflexivity.
  do 3 (split; [assumption|]).
  destruct (play_failure_leaves_stopped Examples.library Examples.playing_first 1 _
              Hpos Hp Hcan)
    as (h' & Hplay & _ & Hcur & Hs & _ & _ & _ & Hip & _ & _ & Hne).
  exists h'. do 4 (split; [assumption|]).
  apply Hne. discriminate.
Defined.

(** C7.  Removing the current entry is [files_stop] followed by the
    deletion of that entry: one entry fewer, engine stopped.  Removing an
    entry below the current one moves the current index down by one; the
    entry it designates, the current stream and file, the playing flag and
    the output are the same as before. *)
Theorem remove_current_or_below (h : files_handle) index :
  0 ≤ index < playlist_len h →
  (playlist_cur h = index →
     files_remove index h
     = (files_stop ;;
        modify (set_playlist (delete (Z.to_nat index) (playlist h))) ;;
        ret 0) h
     ∧ ∃ h', files_remove index h = Done 0 h'
         ∧ playlist h' = delete (Z.to_nat index) (playlist h)
         ∧ playlist_len h' = playlist_len h - 1
         ∧ STOPPED h' ∧ is_playing h' = false)
  ∧ (index < playlist_cur h →
     ∃ h', files_remove index h = Done 0 h'
       ∧ playlist h' = delete (Z.to_nat index) (playlist h)
       ∧ playlist_len h' = playlist_len h - 1
       ∧ playlist_cur h' = playlist_cur h - 1
       ∧ playlist h' !! Z.to_nat (playlist_cur h')
         = playlist h !! Z.to_nat (playlist_cur h)
       ∧ stream h' = stream h ∧ file h' = file h
       ∧ is_playing h' = is_playing h ∧ output h' = output h).
Proof.
  intros Hi.
  destruct (playlist_len_lookup h index Hi) as [p Hp].
  assert (Hlen : Z.of_nat (length (delete (Z.to_nat index) (playlist h)))
                 = playlist_len h - 1).
  { unfold playlist_len in *. rewrite length_delete by eauto. lia. }
  rewrite files_remove_in_range by exact Hi.
  split.
  - intros Hcur. rewrite Hcur, Z.eqb_refl. split.
    + unfold bind. rewrite files_stop_eq. reflexivity.
    + eexists. split; [reflexivity|]. split; [reflexivity|].
      split; [exact Hlen|]. split; [split; reflexivity|reflexivity].
  - intros Hlt.
    destruct (playlist_cur h =? index) eqn:E; [lia|].
    destruct (playlist_cur h >? index) eqn:E0; [|lia].
    eexists. split; [reflexivity|]. split; [reflexivity|].
    split; [exact Hlen|]. split; [reflexivity|].
    split; [|repeat split].
    cbn [playlist playlist_cur set_playlist set_playlist_cur].
    rewrite list_lookup_delete_ge by lia.
    f_equal. lia.
Qed.

Lemma remove_current_or_below_witness :
  (0 ≤ 0 < playlist_len Examples.advanced
   ∧ 0 < playlist_cur Examples.advanced
   ∧ ∃ h', files_remove 0 Examples.advanced = Done 0 h'
       ∧ playlist_cur h' = 1
       ∧ playlist h' !! 1%nat = playlist Examples.advanced !! 2%nat
       ∧ stream h' = stream Examples.advanced)
  ∧ (0 ≤ 2 < playlist_len Examples.advanced
     ∧ playlist_cur Examples.advanced = 2
     ∧ ∃ h', files_remove 2 Examples.advanced = Done 0 h'
         ∧ playlist_len h' = 2 ∧ STOPPED h').
Proof.
  assert (Hi : 0 ≤ 0 < playlist_len Examples.advanced) by (vm_compute; split; congruence).
  assert (Hlt : 0 < playlist_cur Examples.advanced) by reflexivity.
  assert (Hj : 0 ≤ 2 < playlist_len Examples.advanced) by (vm_compute; split; congruence).
  assert (Heq : playlist_cur Examples.advanced = 2) by reflexivity.
  split.
  - split; [exact Hi|]. split; [exact Hlt|].
    destruct (proj2 (remove_current_or_below Examples.advanced 0 Hi) Hlt)
      as (h' & Hrun & _ & _ & Hcur & Hsame & Hs & _).
    exists h'. split; [exact Hrun|]. split; [exact Hcur|].
    split; [|exact Hs].
    rewrite Hcur in Hsame. exact Hsame.
  - split; [exact Hj|]. split; [exact Heq|].
    destruct (proj1 (remove_current_or_below Examples.advanced 2 Hj) Heq)
      as (_ & h' & Hrun & _ & Hlen & Hst & _).
    exists h'. split; [exact Hrun|]. split; [exact Hlen|exact Hst].
Defined.

(** C6.  [files_next] at the last index and [files_prev] at index 0 end
    stopped (index -1, no current stream, no current file).  In between,
    [files_next] selects the first later entry that opens and [files_prev]
    the nearest earlier one, passing over the entries that fail to open;
    when every candidate fails, the engine ends stopped. *)
Theorem next_prev_scan_and_stop fs (h : files_handle) :
  (0 ≤ playlist_cur h → playlist_cur h = playlist_len h - 1 →
     ∃ h', files_next fs h = Done 0 h' ∧ STOPPED h' ∧ file h' = None)
  ∧ (playlist_cur h = 0 →
     ∃ h', files_prev fs h = Done 0 h' ∧ STOPPED h' ∧ file h' = None)
  ∧ (∀ j, 0 ≤ playlist_cur h < j →
       (∀ i, playlist_cur h < i < j → entry_fails fs h i) →
       entry_opens fs h j →
       ∃ h', files_next fs h = Done 0 h' ∧ playlist_cur h' = j
         ∧ is_Some (stream h') ∧ is_Some (file h'))
  ∧ (0 ≤ playlist_cur h < playlist_len h →
       (∀ i, playlist_cur h < i < playlist_len h → entry_fails fs h i) →
       ∃ h', files_next fs h = Done 0 h' ∧ STOPPED h' ∧ file h' = None)
  ∧ (∀ j, 0 ≤ j < playlist_cur h →
       (∀ i, j < i < playlist_cur h → entry_fails fs h i) →
       entry_opens fs h j →
       ∃ h', files_prev fs h = Done 0 h' ∧ playlist_cur h' = j
         ∧ is_Some (stream h') ∧ is_Some (file h'))
  ∧ (0 ≤ playlist_cur h →
       (∀ i, 0 ≤ i < playlist_cur h → entry_fails fs h i) →
       ∃ h', files_prev fs h = Done 0 h' ∧ STOPPED h' ∧ file h' = None).
Proof.
  split; [|split; [|split; [|split; [|split]]]].
  - intros Hc Hlast.
    destruct (files_next_none fs h) as (h' & Hrun & Hst & Hf & _); [lia| |eauto].
    intros i Hi. lia.
  - intros Hz.
    destruct (files_prev_none fs h) as (h' & Hrun & Hst & Hf & _); [lia| |eauto].
    intros i Hi. lia.
  - intros j Hc Hfail Hopen.
    destruct (files_next_found fs h j Hc Hfail Hopen) as (h' & Hrun & Hcur & Hs & Hf & _).
    eauto.
  - intros Hc Hfail.
    destruct (files_next_none fs h Hc Hfail) as (h' & Hrun & Hst & Hf & _). eauto.
  - intros j Hc Hfail Hopen.
    destruct (files_prev_found fs h j Hc Hfail Hopen) as (h' & Hrun & Hcur & Hs & Hf & _).
    eauto.
  - intros Hc Hfail.
    destruct (files_prev_none fs h Hc Hfail) as (h' & Hrun & Hst & Hf & _). eauto.
Qed.

Lemma next_prev_scan_and_stop_witness :
  (∃ h', files_next Examples.library Examples.playing_last = Done 0 h' ∧ STOPPED h')
  ∧ (∃ h', files_prev Examples.library Examples.playing_first = Done 0 h' ∧ STOPPED h')
  ∧ (∃ h', files_next Examples.library Examples.playing_first = Done 0 h'
           ∧ playlist_cur h' = 2)
  ∧ (∃ h', files_prev Examples.library Examples.playing_last = Done 0 h'
           ∧ playlist_cur h' = 0).
Proof.
  assert (Hbad : ∀ h : files_handle,
            playlist h = playlist Examples.loaded →
            ∀ i, 0 < i < 2 → entry_fails Examples.library h i).
  { intros h Hpl i Hi. assert (i = 1) as -> by lia.
    split; [lia|]. rewrite Hpl. eexists. split; reflexivity. }
  split; [|split; [|split]].
  - destruct (proj1 (next_prev_scan_and_stop Examples.library Examples.playing_last))
      as (h' & Hrun & Hst & _); [vm_compute; congruence | reflexivity | eauto].
  - destruct (proj1 (proj2 (next_prev_scan_and_stop Examples.library
                              Examples.playing_first)))
      as (h' & Hrun & Hst & _); [reflexivity | eauto].
  - destruct (proj1 (proj2 (proj2 (next_prev_scan_and_stop Examples.library
                                     Examples.playing_first))) 2)
      as (h' & Hrun & Hcur & _).
    + vm_compute. split; congruence.
    + apply Hbad. reflexivity.
    + split; [lia|]. eexists. split; reflexivity.
    + eauto.
  - destruct (proj1 (proj2 (proj2 (proj2 (proj2 (next_prev_scan_and_stop
                Examples.library Examples.playing_last))))) 0)
      as (h' & Hrun & Hcur & _).
    + vm_compute. split; congruence.
    + apply Hbad. reflexivity.
    + split; [lia|]. eexists. split; reflexivity.
    + eauto.
Defined.

(** C8.  In every state reached by a sequence of operations the streams
    registered at the output are the current one and the one in the single
    previous slot, and the open files likewise.  A transition that
    supersedes the current stream ([files_play_next], [files_play_prev])
    first releases the pair still named by the previous slot: its stream is
    no longer registered and its file no longer open in the state in which
    the slot is then overwritten with the superseded pair, nor at the end
    of the transition. *)
Theorem previous_pair_released_before_reuse fs root ops (h : files_handle) :
  run_ops fs ops (files_open output_init decoder_init root) = Done tt h →
  resources_ok h
  ∧ ∃ h1 h2 h3,
      close_previous h = Done tt h1
      ∧ prev_stream h1 = prev_stream h ∧ prev_file h1 = prev_file h
      ∧ handle_set (prev_stream h) ## dom (streams (output h1))
      ∧ handle_set (prev_file h) ## opened (files h1)
      ∧ files_play_next fs h
        = (move_current_to_previous ;;
           do h0 <- get;
           play_next_loop fs (S (Z.to_nat (playlist_len h0 - playlist_cur h0)))) h1
      ∧ files_play_next fs h = Done tt h2
      ∧ prev_stream h2 = stream h ∧ prev_file h2 = file h
      ∧ handle_set (prev_stream h) ## dom (streams (output h2))
      ∧ handle_set (prev_file h) ## opened (files h2)
      ∧ files_play_prev fs h
        = (move_current_to_previous ;;
           do h0 <- get;
           play_prev_loop fs (S (Z.to_nat (playlist_cur h0 + 1)))) h1
      ∧ files_play_prev fs h = Done tt h3
      ∧ prev_stream h3 = stream h ∧ prev_file h3 = file h
      ∧ handle_set (prev_stream h) ## dom (streams (output h3))
      ∧ handle_set (prev_file h) ## opened (files h3).
Proof.
  intros Hrun.
  pose proof (run_ops_wf fs ops _ (files_open_wf root)) as Hpost.
  apply (post_done _ _ _ _ _ Hpost) in Hrun. clear Hpost.
  destruct Hrun as (Hcur & Hres & Hcap).
  split; [exact Hres|].
  destruct (released_previous_free h) as (Hs1 & Hf1 & Hps1 & Hpf1).
  pose proof (files_play_next_wf fs h (conj Hcur (conj Hres Hcap))) as Hnext.
  apply total_done in Hnext as ([] & h2 & Hnext & (_ & Hres2 & _) & Hfr2).
  destruct (scan_releases h h2 Hres Hres2 Hfr2) as (Hs2 & Hf2 & Hps2 & Hpf2).
  assert (Hprev : ∃ h3, files_play_prev fs h = Done tt h3
            ∧ prev_stream h3 = stream h ∧ prev_file h3 = file h
            ∧ handle_set (prev_stream h) ## dom (streams (output h3))
            ∧ handle_set (prev_file h) ## opened (files h3)).
  { destruct (Z_lt_le_dec (playlist_cur h) 0) as [Hneg|Hpos].
    - exists (handed_over h). rewrite files_play_prev_eq.
      rewrite play_prev_loop_exit by exact Hneg.
      split; [reflexivity|]. split; [reflexivity|]. split; [reflexivity|].
      by apply handed_over_free.
    - pose proof (files_play_prev_wf fs h (conj Hcur (conj Hres Hcap)) Hpos) as Hp.
      apply total_done in Hp as ([] & h3 & Hp & (_ & Hres3 & _) & Hfr3).
      destruct (scan_releases h h3 Hres Hres3 Hfr3) as (Hs3 & Hf3 & Hps3 & Hpf3).
      exists h3. repeat (split; [assumption|]). assumption. }
  destruct Hprev as (h3 & Hprev & Hps3 & Hpf3 & Hs3 & Hf3).
  exists (released_previous h), h2, h3.
  split; [apply close_previous_eq|].
  do 4 (split; [assumption|]).
  split.
  { unfold files_play_next. unfold bind at 1. rewrite close_previous_eq. reflexivity. }
  do 5 (split; [assumption|]).
  split.
  { unfold files_play_prev. unfold bind at 1. rewrite close_previous_eq. reflexivity. }
  do 4 (split; [assumption|]). assumption.
Qed.

Lemma previous_pair_released_before_reuse_witness :
  run_ops Examples.library (Examples.load_three ++ [OpPlay 0; OpWatch true])
    (files_open output_init decoder_init "/music") = Done tt Examples.advanced
  ∧ prev_stream Examples.advanced = Some 0%nat
  ∧ prev_file Examples.advanced = Some 0%nat
  ∧ ∃ h2, files_play_next Examples.library Examples.advanced = Done tt h2
      ∧ (0%nat ∉ dom (streams (output h2))) ∧ (0%nat ∉ opened (files h2))
      ∧ prev_stream h2 = Some 1%nat.
Proof.
  assert (Hrun : run_ops Examples.library
                   (Examples.load_three ++ [OpPlay 0; OpWatch true])
                   (files_open output_init decoder_init "/music")
                 = Done tt Examples.advanced) by (vm_compute; reflexivity).
  split; [exact Hrun|]. split; [reflexivity|]. split; [reflexivity|].
  destruct (previous_pair_released_before_reuse Examples.library "/music" _ _ Hrun)
    as (_ & h1 & h2 & h3 & _ & _ & _ & _ & _ & _ & Hnext & Hps & _ & Hs & Hf & _).
  exists h2. split; [exact Hnext|].
  split; [|split].
  - intros Hin. apply (Hs 0%nat); [|exact Hin].
    change (prev_stream Examples.advanced) with (Some 0%nat). simpl. set_solver.
  - intros Hin. apply (Hf 0%nat); [|exact Hin].
    change (prev_file Examples.advanced) with (Some 0%nat). simpl. set_solver.
  - exact Hps.
Defined.

(** C4, as the code has it.  [files_add] appends an entry for every file
    name it is given, whether or not the media parses or opens: the entry
    carries whatever [file_format_parse] returned (nothing, for a file it
    cannot read), the new index is returned, and nothing else in the
    handle changes apart from the capacity when the array was full.  The
    counters are [int]: when the array is full the capacity must have room
    for its next step.  A file that cannot be opened shows when the entry
    is reached: [files_play] of its index reports an error and leaves the
    engine stopped, and [files_next] from the entry before it passes over
    it; the entry stays in the playlist. *)
Theorem add_appends_any_entry fs (h : files_handle) name :
  playlist_len h ≤ playlist_alloc h →
  playlist_len h < INT_MAX →
  (playlist_len h = playlist_alloc h →
   playlist_alloc h + PLAYLIST_ALLOC_SIZE ≤ INT_MAX) →
  let entry := {| filename := (path h +:+ "/" +:+ name)%string;
                  format := file_format_parse fs (path h +:+ "/" +:+ name)%string |} in
  ∃ h', files_add fs (Some name) h = Done (playlist_len h) h'
    ∧ files_httpd_playlist_add fs (Some name) h = Done (200, None) h'
    ∧ playlist h' = playlist h ++ [entry]
    ∧ playlist_len h' = playlist_len h + 1
    ∧ playlist_cur h' = playlist_cur h
    ∧ stream h' = stream h ∧ file h' = file h
    ∧ is_playing h' = is_playing h ∧ output h' = output h
    ∧ (file_can_open fs (filename entry) = false →
       (∃ h2, files_play fs (playlist_len h) h' = Done (-1) h2
          ∧ files_httpd_playlist_play fs (playlist_len h) h'
            = Done (500, Some "Playlist error"%string) h2
          ∧ STOPPED h2 ∧ is_playing h2 = false
          ∧ playlist h2 = playlist h ++ [entry])
       ∧ (0 ≤ playlist_cur h → playlist_cur h = playlist_len h - 1 →
          ∃ h2, files_next fs h' = Done 0 h2 ∧ STOPPED h2
            ∧ playlist h2 = playlist h ++ [entry])).
Proof.
  intros Hcap Hmax Hov entry. pose proof (playlist_len_nonneg h) as Hlen.
  set (h' := set_playlist (playlist h ++ [entry])
               (if playlist_len h =? playlist_alloc h
                then set_playlist_alloc (playlist_alloc h + PLAYLIST_ALLOC_SIZE) h
                else h)).
  assert (Hadd : files_add fs (Some name) h = Done (playlist_len h) h')
    by (apply files_add_eq; assumption).
  assert (Hpl : playlist h' = playlist h ++ [entry]) by reflexivity.
  assert (Hlen' : playlist_len h' = playlist_len h + 1).
  { unfold playlist_len. rewrite Hpl, length_app. simpl. lia. }
  assert (Hcur : playlist_cur h' = playlist_cur h)
    by (unfold h'; destruct (playlist_len h =? playlist_alloc h); reflexivity).
  assert (Hat : playlist h' !! Z.to_nat (playlist_len h) = Some entry).
  { rewrite Hpl. apply list_lookup_middle. unfold playlist_len. lia. }
  exists h'. split; [exact Hadd|].
  split.
  { unfold files_httpd_playlist_add, bind. rewrite Hadd.
    destruct (playlist_len h <? 0) eqn:E; [lia|]. reflexivity. }
  split; [exact Hpl|]. split; [exact Hlen'|]. split; [exact Hcur|].
  do 4 (split; [unfold h'; destruct (playlist_len h =? playlist_alloc h);
                reflexivity|]).
  intros Hcan. split.
  - assert (Hidx : play_index h' (playlist_len h) = playlist_len h).
    { unfold play_index. destruct (playlist_len h =? -1) eqn:E; [lia|reflexivity]. }
    assert (Hplay : files_play fs (playlist_len h) h' =
              Done (-1) (set_is_playing false
                           (set_playlist_cur (-1)
                              (player_failed
                                 (set_playlist_cur (playlist_len h) (stopped h')))))).
    { rewrite (files_play_in_range fs h' (playlist_len h) entry)
        by (rewrite Hidx; first [lia | exact Hat]).
      rewrite Hcan, Hidx. reflexivity. }
    eexists. split; [exact Hplay|].
    split.
    { unfold files_httpd_playlist_play.
      destruct (playlist_len h <? 0) eqn:E; [lia|].
      unfold bind. rewrite Hplay. reflexivity. }
    repeat split.
  - intros Hpos Hlast.
    destruct (files_next_none fs h') as (h2 & Hn & Hst & _ & _ & _ & Hp2).
    + rewrite Hcur, Hlen'. lia.
    + intros i Hi. rewrite Hcur, Hlen' in Hi.
      assert (i = playlist_len h) as -> by lia.
      split; [lia|]. exists entry. split; [exact Hat|exact Hcan].
    + exists h2. split; [exact Hn|]. split; [exact Hst|]. rewrite Hp2. exact Hpl.
Qed.

Lemma add_appends_any_entry_witness :
  playlist_len Examples.fresh ≤ playlist_alloc Examples.fresh
  ∧ playlist_len Examples.fresh < INT_MAX
  ∧ file_can_open Examples.library "/music/bad.mp3" = false
  ∧ file_format_parse Examples.library "/music/bad.mp3" = None
  ∧ ∃ h', files_add Examples.library (Some "bad.mp3"%string) Examples.fresh = Done 0 h'
      ∧ playlist h' = [ {| filename := "/music/bad.mp3"; format := None |} ]
      ∧ ∃ h2, files_play Examples.library 0 h' = Done (-1) h2 ∧ STOPPED h2
          ∧ playlist h2 = [ {| filename := "/music/bad.mp3"; format := None |} ].
Proof.
  assert (Hcap : playlist_len Examples.fresh ≤ playlist_alloc Examples.fresh)
    by (vm_compute; discriminate).
  assert (Hmax : playlist_len Examples.fresh < INT_MAX) by reflexivity.
  assert (Hov : playlist_len Examples.fresh = playlist_alloc Examples.fresh →
                playlist_alloc Examples.fresh + PLAYLIST_ALLOC_SIZE ≤ INT_MAX)
    by (intros _; vm_compute; discriminate).
  split; [exact Hcap|]. split; [exact Hmax|].
  split; [reflexivity|]. split; [reflexivity|].
  destruct (add_appends_any_entry Examples.library Examples.fresh "bad.mp3"
              Hcap Hmax Hov)
    as (h' & Hrun & _ & Hpl & _ & _ & _ & _ & _ & _ & Hbad).
  destruct (Hbad eq_refl) as [(h2 & Hplay & _ & Hst & _ & Hp2) _].
  exists h'. split; [exact Hrun|]. split; [exact Hpl|].
  exists h2. split; [exact Hplay|]. split; [exact Hst|exact Hp2].
Defined.

(** C4, as the design document words it, fails: a file that neither parses
    nor opens is appended all the same. *)
Lemma add_does_not_skip_unreadable :
  ¬ (∀ fs (h : files_handle) name r h',
       file_can_open fs (path h +:+ "/" +:+ name)%string = false →
       file_format_parse fs (path h +:+ "/" +:+ name)%string = None →
       files_add fs (Some name) h = Done r h' →
       playlist h' = playlist h).
Proof.
  intros Hclaim.
  specialize (Hclaim Examples.library Examples.fresh "bad.mp3"%string 0
                (set_playlist [ {| filename := "/music/bad.mp3"; format := None |} ]
                   Examples.fresh)).
  discriminate Hclaim; reflexivity.
Qed.

(** The counters of [files_remove] are those of its result wherever the
    result is defined. *)
Lemma files_remove_counters_agree (h : files_handle) index :
  0 ≤ index < playlist_len h →
  ∃ h', files_remove index h = Done 0 h'
    ∧ (playlist_cur h', playlist_len h')
      = files_remove_counters index (playlist_cur h) (playlist_len h).
Proof.
  intros Hi. rewrite files_remove_in_range by exact Hi.
  eexists. split; [reflexivity|].
  unfold files_remove_counters. f_equal.
  - destruct (playlist_cur h =? index); [reflexivity|].
    destruct (playlist_cur h >? index); reflexivity.
  - unfold playlist_len in *. cbn [playlist set_playlist].
    rewrite length_delete by (apply lookup_lt_is_Some_2; lia).
    destruct (playlist_cur h =? index); [simpl; lia|].
    destruct (playlist_cur h >? index); simpl; lia.
Qed.

(** Past the end they leave the index of a playing last entry where it
    was, at or above the new length. *)
Lemma files_remove_counters_past_end index cur len :
  0 ≤ cur → cur = len - 1 → len ≤ index →
  files_remove_counters index cur len = (cur, cur).
Proof.
  intros Hc Hl Hi. unfold files_remove_counters.
  destruct (cur =? index) eqn:E1; [lia|].
  destruct (cur >? index) eqn:E2; [lia|]. f_equal. lia.
Qed.

(** C2: the index does not stay in range along every sequence of
    operations.  After add and play of one entry the index is 0 and the
    length 1.  The request PUT /playlist/remove/1 is let through by its
    handler, and [files_remove] has no range check: it frees and moves
    entries outside the playlist, so the run has no defined result, and
    its statements on the counters leave the index at 0 with the length
    at 0, which is outside the range. *)
Theorem remove_past_end_breaks_index_range :
  run_ops Examples.library [OpAdd (Some "a.mp3"%string); OpPlay 0] Examples.fresh
  = Done tt Examples.playing_one
  ∧ cur_in_range Examples.playing_one
  ∧ playlist_cur Examples.playing_one = 0
  ∧ playlist_len Examples.playing_one = 1
  ∧ files_httpd_playlist_remove 1 Examples.playing_one = Fault
  ∧ run_ops Examples.library
      [OpAdd (Some "a.mp3"%string); OpPlay 0; OpRemove 1] Examples.fresh
    = Fault
  ∧ files_remove_counters 1 (playlist_cur Examples.playing_one)
      (playlist_len Examples.playing_one)
    = (0, 0)
  ∧ ∀ h : files_handle, playlist_cur h = 0 → playlist_len h = 0 → ¬ cur_in_range h.
Proof.
  split; [vm_compute; reflexivity|].
  split; [right; vm_compute; split; [discriminate|reflexivity]|].
  split; [reflexivity|]. split; [reflexivity|].
  split; [vm_compute; reflexivity|].
  split; [vm_compute; reflexivity|].
  split; [reflexivity|].
  intros h Hc Hl [H|H]; lia.
Qed.

(** C3: what the code does for an index past the end.  The handler of
    /playlist/remove/<index> lets index 1 through for a playlist of one
    entry, and [files_remove] then reads and moves entries outside the
    playlist; a negative index is answered with 400 and no change. *)
Lemma remove_past_end_faults :
  playlist_len Examples.one_entry = 1
  ∧ files_remove 1 Examples.one_entry = Fault
  ∧ files_httpd_playlist_remove 1 Examples.one_entry = Fault
  ∧ files_httpd_playlist_remove (-1) Examples.one_entry
    = Done (400, Some "Bad index"%string) Examples.one_entry
  ∧ files_play Examples.library 1 Examples.one_entry = Done (-1) Examples.one_entry.
Proof. do 4 (split; [vm_compute; reflexivity|]). vm_compute. reflexivity. Qed.

(** The same for every handle and every index at or past the end. *)
Lemma files_httpd_playlist_remove_past_end (h : files_handle) index :
  playlist_len h ≤ index → files_httpd_playlist_remove index h = Fault.
Proof.
  intros Hge. pose proof (playlist_len_nonneg h).
  unfold files_httpd_playlist_remove.
  destruct (index <? 0) eqn:E; [lia|].
  unfold bind. rewrite files_remove_out_of_range by lia. reflexivity.
Qed.

(** ** Further properties of the engine *)

Lemma files_pause_eq (h : files_handle) s :
  stream h = Some s →
  files_pause h =
    Done 0 (set_output
              {| streams := alter (λ _, negb (is_playing h)) s (streams (output h));
                 next_stream := next_stream (output h) |}
              (set_is_playing (negb (is_playing h)) h)).
Proof.
  intros Hs. unfold files_pause, bind, get, modify, ret. rewrite Hs.
  destruct (is_playing h); simpl; rewrite Hs; reflexivity.
Qed.

Lemma alter_back (m : gmap nat bool) s b b' :
  m !! s = Some b → alter (λ _, b) s (alter (λ _, b') s m) = m.
Proof.
  intros Hm. apply map_eq. intros i.
  destruct (decide (s = i)) as [->|Hne].
  - rewrite !lookup_alter_eq, Hm. reflexivity.
  - rewrite !lookup_alter_ne by exact Hne. reflexivity.
Qed.

(** [files_pause] is a toggle.  Without a current stream it changes
    nothing.  With one, it inverts the playing flag and sets the running
    flag of that stream alone to the new value; playlist, index, files and
    the previous pair are untouched, and a second call restores the state
    when flag and stream agreed at the start. *)
Theorem pause_is_a_toggle (h : files_handle) :
  (stream h = None → files_pause h = Done 0 h)
  ∧ (∀ s, stream h = Some s →
       ∃ h', files_pause h = Done 0 h'
         ∧ is_playing h' = negb (is_playing h)
         ∧ streams (output h')
           = alter (λ _, negb (is_playing h)) s (streams (output h))
         ∧ stream h' = stream h ∧ file h' = file h
         ∧ prev_stream h' = prev_stream h ∧ prev_file h' = prev_file h
         ∧ playlist h' = playlist h ∧ playlist_cur h' = playlist_cur h
         ∧ files h' = files h
         ∧ (streams (output h) !! s = Some (is_playing h) →
            (files_pause ;; files_pause) h = Done 0 h)).
Proof.
  split.
  - intros Hs. unfold files_pause, bind, get, ret. rewrite Hs. reflexivity.
  - intros s Hs. eexists. split; [by apply files_pause_eq|].
    do 9 (split; [reflexivity|]).
    intros Hflag. unfold bind. rewrite (files_pause_eq h s Hs).
    rewrite (files_pause_eq _ s) by exact Hs.
    cbn [is_playing set_output set_is_playing output streams next_stream].
    rewrite negb_involutive, alter_back by exact Hflag.
    destruct h as [[m n] f st pf ps ip pl pa pc sp pt d]. reflexivity.
Qed.

Lemma pause_is_a_toggle_witness :
  stream Examples.playing_first = Some 0%nat
  ∧ streams (output Examples.playing_first) !! 0%nat
    = Some (is_playing Examples.playing_first)
  ∧ (∃ h', files_pause Examples.playing_first = Done 0 h'
       ∧ is_playing h' = false
       ∧ streams (output h') !! 0%nat = Some false)
  ∧ (files_pause ;; files_pause) Examples.playing_first
    = Done 0 Examples.playing_first
  ∧ stream Examples.loaded = None
  ∧ files_pause Examples.loaded = Done 0 Examples.loaded.
Proof.
  assert (Hs : stream Examples.playing_first = Some 0%nat) by reflexivity.
  assert (Hf : streams (output Examples.playing_first) !! 0%nat
               = Some (is_playing Examples.playing_first))
    by (vm_compute; reflexivity).
  assert (Hn : stream Examples.loaded = None) by reflexivity.
  split; [exact Hs|]. split; [exact Hf|].
  destruct (proj2 (pause_is_a_toggle Examples.playing_first) 0%nat Hs)
    as (h' & Hrun & Hip & Hst & _ & _ & _ & _ & _ & _ & _ & Htwice).
  split; [|split; [exact (Htwice Hf)|split; [exact Hn|]]].
  - exists h'. split; [exact Hrun|]. split; [exact Hip|].
    rewrite Hst. vm_compute. reflexivity.
  - exact (proj1 (pause_is_a_toggle Examples.loaded) Hn).
Defined.

(** With no current index, [files_next], [files_prev] and the watcher
    leave the handle exactly as it is; the watcher also does nothing as
    long as the decoder has not reached the end of the current file, and
    when no file is current. *)
Theorem nothing_current_nothing_moves fs (h : files_handle) :
  (playlist_cur h = -1 →
     files_next fs h = Done 0 h ∧ files_prev fs h = Done 0 h
     ∧ ∀ at_end, files_thread_step fs at_end h = Done tt h)
  ∧ files_thread_step fs false h = Done tt h
  ∧ (file h = None → ∀ at_end, files_thread_step fs at_end h = Done tt h).
Proof.
  split; [|split].
  - intros Hc. unfold files_next, files_prev, files_thread_step, bind, get, ret.
    rewrite Hc. simpl. done.
  - unfold files_thread_step, bind, get, ret.
    destruct (negb (playlist_cur h =? -1) && (playlist_cur h + 1 <=? playlist_len h));
      [|reflexivity].
    rewrite andb_false_r. reflexivity.
  - intros Hf at_end. unfold files_thread_step, bind, get, ret.
    destruct (negb (playlist_cur h =? -1) && (playlist_cur h + 1 <=? playlist_len h));
      [|reflexivity].
    rewrite Hf. reflexivity.
Qed.

Lemma nothing_current_nothing_moves_witness :
  playlist_cur Examples.loaded = -1
  ∧ files_next Examples.library Examples.loaded = Done 0 Examples.loaded
  ∧ files_prev Examples.library Examples.loaded = Done 0 Examples.loaded
  ∧ files_thread_step Examples.library true Examples.loaded = Done tt Examples.loaded.
Proof.
  assert (Hc : playlist_cur Examples.loaded = -1) by reflexivity.
  split; [exact Hc|].
  destruct (proj1 (nothing_current_nothing_moves Examples.library Examples.loaded) Hc)
    as (Hn & Hp & Hw).
  split; [exact Hn|]. split; [exact Hp|exact (Hw true)].
Defined.

Lemma files_flush_eq (h : files_handle) :
  files_flush h = Done tt (set_playlist_cur (-1) (set_playlist [] (stopped h))).
Proof.
  unfold files_flush. unfold bind at 1. rewrite files_stop_eq. reflexivity.
Qed.

(** [files_flush] ends in every state with an empty playlist and the
    engine stopped; the capacity of the array and the configured path are
    kept; flushing twice is flushing once. *)
Theorem flush_empties_and_is_idempotent (h : files_handle) :
  ∃ h', files_flush h = Done tt h'
    ∧ playlist h' = [] ∧ playlist_len h' = 0 ∧ playlist_cur h' = -1
    ∧ stream h' = None ∧ file h' = None
    ∧ prev_stream h' = None ∧ prev_file h' = None
    ∧ is_playing h' = false
    ∧ playlist_alloc h' = playlist_alloc h ∧ path h' = path h
    ∧ output h' = output (stopped h) ∧ files h' = files (stopped h)
    ∧ (files_flush ;; files_flush) h = files_flush h.
Proof.
  eexists. split; [apply files_flush_eq|].
  do 12 (split; [reflexivity|]).
  unfold bind. rewrite !files_flush_eq. reflexivity.
Qed.

Lemma files_close_eq (h : files_handle) :
  files_close h =
    Done 0 (set_playlist_cur (-1) (set_playlist [] (set_stop true (stopped h)))).
Proof.
  unfold files_close. unfold bind at 1. rewrite files_stop_eq.
  unfold bind at 1, modify at 1. unfold bind at 1. rewrite files_flush_eq.
  reflexivity.
Qed.

Lemma stopped_empty (h : files_handle) :
  resources_ok h →
  streams (output (stopped h)) = ∅ ∧ opened (files (stopped h)) = ∅.
Proof.
  intros [Hso Hfo _ _ _ _]. split.
  - apply dom_empty_iff_L. simpl.
    destruct (stream h), (prev_stream h); simpl in *;
      rewrite ?dom_delete_L, Hso; set_solver.
  - simpl. destruct (file h), (prev_file h); simpl in *; rewrite Hfo; set_solver.
Qed.

(** In whatever state a sequence of operations has left the engine,
    [files_stop], [files_flush] and [files_close] leave no stream
    registered at the output and no file open; [files_close] also raises
    the flag that ends the watcher and empties the playlist. *)
Theorem stop_flush_close_leave_nothing_behind fs root ops (h : files_handle) :
  run_ops fs ops (files_open output_init decoder_init root) = Done tt h →
  (∃ h', files_stop h = Done 0 h'
     ∧ streams (output h') = ∅ ∧ opened (files h') = ∅)
  ∧ (∃ h', files_flush h = Done tt h'
       ∧ streams (output h') = ∅ ∧ opened (files h') = ∅)
  ∧ (∃ h', files_close h = Done 0 h'
       ∧ streams (output h') = ∅ ∧ opened (files h') = ∅
       ∧ stop h' = true ∧ playlist h' = [] ∧ playlist_cur h' = -1
       ∧ stream h' = None ∧ prev_stream h' = None).
Proof.
  intros Hrun.
  pose proof (run_ops_wf fs ops _ (files_open_wf root)) as Hpost.
  apply (post_done _ _ _ _ _ Hpost) in Hrun. destruct Hrun as (_ & Hres & _).
  destruct (stopped_empty h Hres) as [Hs Hf].
  split; [|split].
  - exists (stopped h). split; [apply files_stop_eq|]. split; assumption.
  - eexists. split; [apply files_flush_eq|]. split; assumption.
  - eexists. split; [apply files_close_eq|].
    split; [exact Hs|]. split; [exact Hf|]. repeat split.
Qed.

Lemma stop_flush_close_leave_nothing_behind_witness :
  run_ops Examples.library (Examples.load_three ++ [OpPlay 0; OpWatch true])
    (files_open output_init decoder_init "/music") = Done tt Examples.advanced
  ∧ size (streams (output Examples.advanced)) = 2%nat
  ∧ ∃ h', files_close Examples.advanced = Done 0 h'
      ∧ streams (output h') = ∅ ∧ opened (files h') = ∅ ∧ stop h' = true.
Proof.
  assert (Hrun : run_ops Examples.library
                   (Examples.load_three ++ [OpPlay 0; OpWatch true])
                   (files_open output_init decoder_init "/music")
                 = Done tt Examples.advanced) by (vm_compute; reflexivity).
  split; [exact Hrun|]. split; [vm_compute; reflexivity|].
  destruct (stop_flush_close_leave_nothing_behind Examples.library "/music" _ _ Hrun)
    as (_ & _ & h' & Hclose & Hs & Hf & Hstop & _).
  exists h'. split; [exact Hclose|]. split; [exact Hs|]. split; [exact Hf|exact Hstop].
Defined.

Lemma reachable_wf fs root ops (h : files_handle) :
  run_ops fs ops (files_open output_init decoder_init root) = Done tt h → wf h.
Proof.
  intros Hrun.
  pose proof (run_ops_wf fs ops _ (files_open_wf root)) as Hpost.
  exact (post_done _ _ _ _ _ Hpost Hrun).
Qed.

Lemma files_thread_step_advance fs (h : files_handle) :
  wf h → playlist_cur h ≠ -1 → file h ≠ None →
  files_thread_step fs true h = files_play_next fs h.
Proof.
  intros (Hcur & _ & _) Hc Hf.
  unfold files_thread_step, bind at 1, get at 1.
  destruct (negb (playlist_cur h =? -1) && (playlist_cur h + 1 <=? playlist_len h)) eqn:E;
    [|destruct Hcur; lia].
  rewrite bool_decide_eq_true_2 by exact Hf. reflexivity.
Qed.

(** When the watcher finds the current file at its end, the stream and
    file it supersedes move to the previous slot and stay registered and
    open (the output can drain them); an explicit [files_next] from the same
    state selects the same entry but removes that stream and closes that
    file at once. *)
Theorem watcher_retains_what_next_releases fs root ops (h : files_handle) s f :
  run_ops fs ops (files_open output_init decoder_init root) = Done tt h →
  playlist_cur h ≠ -1 → stream h = Some s → file h = Some f →
  ∃ hw hn,
    files_thread_step fs true h = Done tt hw
    ∧ prev_stream hw = Some s ∧ prev_file hw = Some f
    ∧ s ∈ dom (streams (output hw)) ∧ f ∈ opened (files hw)
    ∧ files_next fs h = Done 0 hn
    ∧ playlist_cur hn = playlist_cur hw
    ∧ stream hn = stream hw ∧ file hn = file hw
    ∧ prev_stream hn = None ∧ prev_file hn = None
    ∧ (s ∉ dom (streams (output hn))) ∧ (f ∉ opened (files hn)).
Proof.
  intros Hrun Hc Hs Hf.
  pose proof (reachable_wf _ _ _ _ Hrun) as Hwf.
  pose proof (files_play_next_wf fs h Hwf) as Hnext.
  apply total_done in Hnext as ([] & hw & Hnext & (_ & Hres & _) & Hfr).
  pose proof (frame_prev_stream _ _ Hfr) as Hps. simpl in Hps.
  pose proof (frame_prev_file _ _ Hfr) as Hpf. simpl in Hpf.
  exists hw, (dropped_previous hw).
  split.
  { rewrite files_thread_step_advance by (done || congruence). exact Hnext. }
  split; [congruence|]. split; [congruence|].
  split.
  { rewrite (streams_owned _ Hres), Hps, Hs. simpl. set_solver. }
  split.
  { rewrite (files_owned _ Hres), Hpf, Hf. simpl. set_solver. }
  split.
  { apply files_next_eq; [exact Hc| |exact Hnext].
    destruct Hwf as (Hcur & _ & _). destruct Hcur; lia. }
  do 5 (split; [reflexivity|]).
  split; simpl.
  - rewrite Hps, Hs. simpl. rewrite dom_delete_L. set_solver.
  - rewrite Hpf, Hf. simpl. set_solver.
Qed.

Lemma watcher_retains_what_next_releases_witness :
  run_ops Examples.library (Examples.load_three ++ [OpPlay 0])
    (files_open output_init decoder_init "/music") = Done tt Examples.playing_first
  ∧ playlist_cur Examples.playing_first ≠ -1
  ∧ stream Examples.playing_first = Some 0%nat
  ∧ file Examples.playing_first = Some 0%nat
  ∧ ∃ hw hn,
      files_thread_step Examples.library true Examples.playing_first = Done tt hw
      ∧ 0%nat ∈ dom (streams (output hw))
      ∧ files_next Examples.library Examples.playing_first = Done 0 hn
      ∧ (0%nat ∉ dom (streams (output hn))).
Proof.
  assert (Hrun : run_ops Examples.library (Examples.load_three ++ [OpPlay 0])
                   (files_open output_init decoder_init "/music")
                 = Done tt Examples.playing_first) by (vm_compute; reflexivity).
  assert (Hc : playlist_cur Examples.playing_first ≠ -1) by discriminate.
  assert (Hs : stream Examples.playing_first = Some 0%nat) by reflexivity.
  assert (Hf : file Examples.playing_first = Some 0%nat) by reflexivity.
  do 4 (split; [assumption|]).
  destruct (watcher_retains_what_next_releases Examples.library "/music" _ _ _ _
              Hrun Hc Hs Hf)
    as (hw & hn & Hw & _ & _ & Hin & _ & Hn & _ & _ & _ & _ & _ & Hout & _).
  exists hw, hn. repeat (split; [assumption|]). assumption.
Defined.

(** [files_next], [files_prev] and the watcher never change the playing
    flag, the playlist, its capacity or the configured path.  So a scan
    that runs off the playlist leaves the engine without a current entry
    while the playing flag keeps the value it had. *)
Theorem scans_keep_flag_and_playlist fs root ops at_end (h : files_handle) :
  run_ops fs ops (files_open output_init decoder_init root) = Done tt h →
  (∃ h', files_next fs h = Done 0 h'
     ∧ is_playing h' = is_playing h ∧ playlist h' = playlist h
     ∧ playlist_alloc h' = playlist_alloc h ∧ path h' = path h)
  ∧ (∃ h', files_prev fs h = Done 0 h'
       ∧ is_playing h' = is_playing h ∧ playlist h' = playlist h
       ∧ playlist_alloc h' = playlist_alloc h ∧ path h' = path h)
  ∧ (∃ h', files_thread_step fs at_end h = Done tt h'
       ∧ is_playing h' = is_playing h ∧ playlist h' = playlist h
       ∧ playlist_alloc h' = playlist_alloc h ∧ path h' = path h)
  ∧ (0 ≤ playlist_cur h → playlist_cur h = playlist_len h - 1 →
     ∃ h', files_next fs h = Done 0 h' ∧ STOPPED h'
       ∧ is_playing h' = is_playing h).
Proof.
  intros Hrun.
  pose proof (reachable_wf _ _ _ _ Hrun) as Hwf.
  pose proof (files_play_next_wf fs h Hwf) as Hnext.
  apply total_done in Hnext as ([] & hn & Hnext & _ & Hfrn).
  destruct Hfrn as [Fpl _ _ Fip Fal Fpa _ _ _ _]. simpl in Fpl, Fip, Fal, Fpa.
  assert (Hnx : ∃ h', files_next fs h = Done 0 h'
            ∧ is_playing h' = is_playing h ∧ playlist h' = playlist h
            ∧ playlist_alloc h' = playlist_alloc h ∧ path h' = path h
            ∧ (playlist_cur h ≠ -1 → playlist_cur h' = playlist_cur hn
                                     ∧ stream h' = stream hn)).
  { destruct (negb (playlist_cur h =? -1) && (playlist_cur h + 1 <=? playlist_len h))
      eqn:E.
    - exists (dropped_previous hn). split; [apply files_next_eq; [lia|lia|exact Hnext]|].
      repeat split; assumption.
    - exists h. split.
      + unfold files_next, bind, get, ret. rewrite E. reflexivity.
      + do 4 (split; [reflexivity|]). intros Hc.
        destruct Hwf as (Hcur & _ & _). destruct Hcur; lia. }
  split; [|split; [|split]].
  - destruct Hnx as (h' & ? & ? & ? & ? & ? & _). exists h'. repeat split; assumption.
  - destruct (Z_lt_le_dec (playlist_cur h) 0) as [Hneg|Hpos].
    + exists h. split; [|repeat split].
      unfold files_prev, bind, get, ret.
      destruct (negb (playlist_cur h =? -1) && (playlist_cur h >=? 0)) eqn:E; [lia|].
      reflexivity.
    + pose proof (files_play_prev_wf fs h Hwf Hpos) as Hprev.
      apply total_done in Hprev as ([] & hp & Hprev & _ & Hfrp).
      destruct Hfrp as [Gpl _ _ Gip Gal Gpa _ _ _ _]. simpl in Gpl, Gip, Gal, Gpa.
      exists (dropped_previous hp). split; [apply files_prev_eq; assumption|].
      repeat split; assumption.
  - unfold files_thread_step, bind at 1, get at 1.
    destruct (negb (playlist_cur h =? -1) && (playlist_cur h + 1 <=? playlist_len h)).
    + destruct (bool_decide (file h ≠ None) && at_end).
      * exists hn. split; [exact Hnext|]. repeat split; assumption.
      * exists h. repeat split.
    + exists h. repeat split.
  - intros Hpos Hlast.
    destruct (files_next_none fs h) as (h1 & Hrun1 & Hst & _); [lia| |].
    { intros i Hi. lia. }
    destruct Hnx as (h' & Hrun' & Hip & _). rewrite Hrun1 in Hrun'.
    injection Hrun' as <-. exists h1. repeat split; try assumption; apply Hst.
Qed.

Lemma scans_keep_flag_and_playlist_witness :
  run_ops Examples.library (Examples.load_three ++ [OpPlay 2])
    (files_open output_init decoder_init "/music") = Done tt Examples.playing_last
  ∧ 0 ≤ playlist_cur Examples.playing_last
  ∧ playlist_cur Examples.playing_last = playlist_len Examples.playing_last - 1
  ∧ ∃ h', files_next Examples.library Examples.playing_last = Done 0 h'
      ∧ STOPPED h' ∧ is_playing h' = true.
Proof.
  assert (Hrun : run_ops Examples.library (Examples.load_three ++ [OpPlay 2])
                   (files_open output_init decoder_init "/music")
                 = Done tt Examples.playing_last) by (vm_compute; reflexivity).
  assert (Hpos : 0 ≤ playlist_cur Examples.playing_last) by (vm_compute; discriminate).
  assert (Hlast : playlist_cur Examples.playing_last
                  = playlist_len Examples.playing_last - 1) by reflexivity.
  do 3 (split; [assumption|]).
  destruct (scans_keep_flag_and_playlist Examples.library "/music" _ true _ Hrun)
    as (_ & _ & _ & Hend).
  destruct (Hend Hpos Hlast) as (h' & Hn & Hst & Hip).
  exists h'. split; [exact Hn|]. split; [exact Hst|]. exact Hip.
Defined.

Lemma play_index_explicit (h : files_handle) index :
  index ≠ -1 → play_index h index = index.
Proof. intros Hi. unfold play_index. destruct (index =? -1) eqn:E; [lia|done]. Qed.

(** A successful [files_play] in a state reached by operations ends with
    the requested entry current, the playing flag set, and exactly one
    stream registered at the output, running, reading from the one open
    file; nothing is kept in the previous slot.  The index -1 stands for
    the current index, and for 0 when nothing is current. *)
Theorem play_starts_one_running_stream fs root ops (h : files_handle) index p :
  run_ops fs ops (files_open output_init decoder_init root) = Done tt h →
  0 ≤ play_index h index →
  playlist h !! Z.to_nat (play_index h index) = Some p →
  file_can_open fs (filename p) = true →
  ∃ h' s f,
    files_play fs index h = Done 0 h'
    ∧ playlist_cur h' = play_index h index
    ∧ play_index h (-1) = (if playlist_cur h <? 0 then 0 else playlist_cur h)
    ∧ is_playing h' = true
    ∧ stream h' = Some s ∧ file h' = Some f
    ∧ prev_stream h' = None ∧ prev_file h' = None
    ∧ streams (output h') = {[ s := true ]}
    ∧ opened (files h') = {[ f ]}
    ∧ playlist h' = playlist h.
Proof.
  intros Hrun Hpos Hp Hcan.
  destruct (reachable_wf _ _ _ _ Hrun) as (_ & Hres & _).
  destruct (stopped_empty h Hres) as [Hs Hf].
  eexists _, _, _. split.
  { rewrite (files_play_in_range fs h index p) by assumption.
    rewrite Hcan. reflexivity. }
  do 7 (split; [reflexivity|]).
  split; [|split; [|reflexivity]].
  - cbn [output streams set_is_playing player_started set_playlist_cur].
    change (streams (output (set_playlist_cur (play_index h index) (stopped h))))
      with (streams (output (stopped h))).
    rewrite Hs, alter_insert_eq, insert_empty. reflexivity.
  - cbn [files opened set_is_playing player_started set_playlist_cur].
    change (opened (files (set_playlist_cur (play_index h index) (stopped h))))
      with (opened (files (stopped h))).
    rewrite Hf. set_solver.
Qed.

Lemma play_starts_one_running_stream_witness :
  run_ops Examples.library Examples.load_three
    (files_open output_init decoder_init "/music") = Done tt Examples.loaded
  ∧ 0 ≤ play_index Examples.loaded (-1)
  ∧ ∃ h', files_play Examples.library (-1) Examples.loaded = Done 0 h'
      ∧ playlist_cur h' = 0 ∧ is_playing h' = true
      ∧ size (streams (output h')) = 1%nat.
Proof.
  assert (Hrun : run_ops Examples.library Examples.load_three
                   (files_open output_init decoder_init "/music")
                 = Done tt Examples.loaded) by (vm_compute; reflexivity).
  assert (Hpos : 0 ≤ play_index Examples.loaded (-1)) by (vm_compute; discriminate).
  split; [exact Hrun|]. split; [exact Hpos|].
  assert (Hp : playlist Examples.loaded !! Z.to_nat (play_index Examples.loaded (-1))
               = Some {| filename := "/music/a.mp3";
                         format := Some (Examples.tags "/music/a.mp3") |})
    by reflexivity.
  destruct (play_starts_one_running_stream Examples.library "/music" _ _ (-1) _
              Hrun Hpos Hp)
    as (h' & s & f & Hplay & Hcur & _ & Hip & _ & _ & _ & _ & Hst & _);
    [reflexivity |].
  exists h'. split; [exact Hplay|]. split; [exact Hcur|]. split; [exact Hip|].
  rewrite Hst. apply map_size_singleton.
Defined.

(** The request /play/<file>: the file is appended and then played.  When
    it opens, the answer is 200 and the new entry (at the former length) is
    current; when it does not, the answer is 406, the engine is stopped,
    and the entry that was appended stays in the playlist.  The counters
    are [int]: the length must be below [INT_MAX], and when the array is
    full the capacity must have room for its next step. *)
Theorem play_request_appends_then_plays fs (h : files_handle) resource :
  resource ≠ ""%string →
  playlist_len h ≤ playlist_alloc h →
  playlist_len h < INT_MAX →
  (playlist_len h = playlist_alloc h →
   playlist_alloc h + PLAYLIST_ALLOC_SIZE ≤ INT_MAX) →
  let entry := {| filename := (path h +:+ "/" +:+ resource)%string;
                  format := file_format_parse fs (path h +:+ "/" +:+ resource)%string |} in
  ∃ h', files_httpd_play fs resource h
        = Done (if file_can_open fs (filename entry)
                then (200, None)
                else (406, Some "Cannot play the file"%string)) h'
    ∧ playlist h' = playlist h ++ [entry]
    ∧ playlist_cur h'
      = (if file_can_open fs (filename entry) then playlist_len h else -1)
    ∧ is_playing h' = file_can_open fs (filename entry)
    ∧ (file_can_open fs (filename entry) = false → STOPPED h').
Proof.
  intros Hres Hcap Hmax Hov entry. pose proof (playlist_len_nonneg h) as Hlen.
  unfold files_httpd_play. rewrite bool_decide_eq_true_2 by exact Hres.
  unfold bind at 1. rewrite files_add_eq by assumption.
  destruct (playlist_len h <? 0) eqn:E; [lia|].
  unfold bind. fold entry.
  set (h1 := set_playlist (playlist h ++ [entry])
               (if playlist_len h =? playlist_alloc h
                then set_playlist_alloc (playlist_alloc h + PLAYLIST_ALLOC_SIZE) h
                else h)).
  assert (Hpl1 : playlist h1 = playlist h ++ [entry]) by reflexivity.
  assert (Hidx : play_index h1 (playlist_len h) = playlist_len h)
    by (apply play_index_explicit; lia).
  assert (Hp : playlist h1 !! Z.to_nat (play_index h1 (playlist_len h)) = Some entry).
  { rewrite Hidx, Hpl1. apply list_lookup_middle. unfold playlist_len. lia. }
  rewrite (files_play_in_range fs h1 (playlist_len h) entry) by (first [exact Hp | rewrite Hidx; lia]).
  rewrite Hidx.
  destruct (file_can_open fs (filename entry)); eexists;
    (split; [reflexivity|]); repeat split; discriminate.
Qed.

Lemma play_request_appends_then_plays_witness :
  "bad.mp3"%string ≠ ""%string
  ∧ playlist_len Examples.playing_first ≤ playlist_alloc Examples.playing_first
  ∧ playlist_len Examples.playing_first < INT_MAX
  ∧ ∃ h', files_httpd_play Examples.library "bad.mp3" Examples.playing_first
          = Done (406, Some "Cannot play the file"%string) h'
      ∧ playlist_len h' = 4 ∧ STOPPED h'.
Proof.
  assert (Hne : "bad.mp3"%string ≠ ""%string) by discriminate.
  assert (Hcap : playlist_len Examples.playing_first
                 ≤ playlist_alloc Examples.playing_first) by (vm_compute; discriminate).
  assert (Hmax : playlist_len Examples.playing_first < INT_MAX) by reflexivity.
  assert (Hov : playlist_len Examples.playing_first
                = playlist_alloc Examples.playing_first →
                playlist_alloc Examples.playing_first + PLAYLIST_ALLOC_SIZE ≤ INT_MAX)
    by (intros _; vm_compute; discriminate).
  do 3 (split; [assumption|]).
  destruct (play_request_appends_then_plays Examples.library Examples.playing_first
              "bad.mp3" Hne Hcap Hmax Hov)
    as (h' & Hrun & Hpl & _ & _ & Hst).
  exists h'. split; [exact Hrun|]. split.
  - unfold playlist_len. rewrite Hpl. reflexivity.
  - apply Hst. reflexivity.
Defined.

(** [files_remove] with an in-range index deletes that entry and nothing
    else: the entries before it keep their index, the entries after it
    move down by one.  When the index lies above the current one (or
    nothing is current), index, stream, file, playing flag and output stay
    as they are. *)
Theorem remove_shifts_later_entries (h : files_handle) index :
  0 ≤ index < playlist_len h →
  ∃ h', files_remove index h = Done 0 h'
    ∧ playlist_len h' = playlist_len h - 1
    ∧ (∀ i : nat, (i < Z.to_nat index)%nat → playlist h' !! i = playlist h !! i)
    ∧ (∀ i : nat, (Z.to_nat index ≤ i)%nat → playlist h' !! i = playlist h !! S i)
    ∧ playlist_alloc h' = playlist_alloc h
    ∧ (playlist_cur h < index →
       playlist_cur h' = playlist_cur h ∧ stream h' = stream h ∧ file h' = file h
       ∧ is_playing h' = is_playing h ∧ output h' = output h).
Proof.
  intros Hi.
  destruct (playlist_len_lookup h index Hi) as [p Hp].
  exists (set_playlist (delete (Z.to_nat index) (playlist h))
            (if playlist_cur h =? index then stopped h
             else if playlist_cur h >? index
                  then set_playlist_cur (playlist_cur h - 1) h
                  else h)).
  split; [by apply files_remove_in_range|].
  split.
  { unfold playlist_len in *. cbn [playlist set_playlist].
    rewrite length_delete by eauto. lia. }
  split; [intros i Hlt; by apply list_lookup_delete_lt|].
  split; [intros i Hge; by apply list_lookup_delete_ge|].
  split.
  { destruct (playlist_cur h =? index); [reflexivity|].
    destruct (playlist_cur h >? index); reflexivity. }
  intros Hlt.
  destruct (playlist_cur h =? index) eqn:E; [lia|].
  destruct (playlist_cur h >? index) eqn:E0; [lia|].
  repeat split.
Qed.

Lemma remove_shifts_later_entries_witness :
  0 ≤ 1 < playlist_len Examples.playing_first
  ∧ playlist_cur Examples.playing_first < 1
  ∧ ∃ h', files_remove 1 Examples.playing_first = Done 0 h'
      ∧ playlist h' !! 0%nat = playlist Examples.playing_first !! 0%nat
      ∧ playlist h' !! 1%nat = playlist Examples.playing_first !! 2%nat
      ∧ playlist_cur h' = 0 ∧ stream h' = Some 0%nat.
Proof.
  assert (Hi : 0 ≤ 1 < playlist_len Examples.playing_first)
    by (vm_compute; split; congruence).
  assert (Hlt : playlist_cur Examples.playing_first < 1) by reflexivity.
  split; [exact Hi|]. split; [exact Hlt|].
  destruct (remove_shifts_later_entries Examples.playing_first 1 Hi)
    as (h' & Hrun & _ & Hbefore & Hafter & _ & Hcur).
  destruct (Hcur Hlt) as (Hc & Hs & _).
  exists h'. split; [exact Hrun|].
  split; [apply Hbefore; vm_compute; lia|].
  split; [apply Hafter; vm_compute; lia|].
  split; [exact Hc|exact Hs].
Defined.

(** ** Capacity of the playlist array *)

Lemma post_conj {A} (c : M A) h (Q1 Q2 : A → files_handle → Prop) :
  post c h Q1 → post c h Q2 → post c h (λ a h', Q1 a h' ∧ Q2 a h').
Proof. unfold post. destruct (c h); auto. Qed.

Lemma scans_keep_alloc fs at_end (h : files_handle) :
  wf h →
  (∃ h', files_next fs h = Done 0 h' ∧ playlist_alloc h' = playlist_alloc h)
  ∧ (∃ h', files_prev fs h = Done 0 h' ∧ playlist_alloc h' = playlist_alloc h)
  ∧ (∃ h', files_thread_step fs at_end h = Done tt h'
       ∧ playlist_alloc h' = playlist_alloc h).
Proof.
  intros Hwf.
  pose proof (files_play_next_wf fs h Hwf) as Hnext.
  apply total_done in Hnext as ([] & hn & Hnext & _ & Hfrn).
  pose proof (frame_alloc _ _ Hfrn) as Fal. simpl in Fal.
  split; [|split].
  - destruct (negb (playlist_cur h =? -1) && (playlist_cur h + 1 <=? playlist_len h))
      eqn:E.
    + exists (dropped_previous hn). split; [apply files_next_eq; [lia|lia|exact Hnext]|].
      exact Fal.
    + exists h. split; [|reflexivity].
      unfold files_next, bind, get, ret. rewrite E. reflexivity.
  - destruct (Z_lt_le_dec (playlist_cur h) 0) as [Hneg|Hpos].
    + exists h. split; [|reflexivity].
      unfold files_prev, bind, get, ret.
      destruct (negb (playlist_cur h =? -1) && (playlist_cur h >=? 0)) eqn:E; [lia|].
      reflexivity.
    + pose proof (files_play_prev_wf fs h Hwf Hpos) as Hprev.
      apply total_done in Hprev as ([] & hp & Hprev & _ & Hfrp).
      pose proof (frame_alloc _ _ Hfrp) as Gal. simpl in Gal.
      exists (dropped_previous hp). split; [apply files_prev_eq; assumption|exact Gal].
  - unfold files_thread_step, bind at 1, get at 1.
    destruct (negb (playlist_cur h =? -1) && (playlist_cur h + 1 <=? playlist_len h)).
    + destruct (bool_decide (file h ≠ None) && at_end).
      * exists hn. split; [exact Hnext|exact Fal].
      * exists h. split; reflexivity.
    + exists h. split; reflexivity.
Qed.

Lemma run_op_alloc fs o (h : files_handle) :
  wf h →
  post (run_op fs o) h
    (λ _ h', ∃ k, 0 ≤ k
               ∧ playlist_alloc h' = playlist_alloc h + PLAYLIST_ALLOC_SIZE * k).
Proof.
  intros Hwf. pose proof Hwf as (Hcur & Hres & Hcap).
  assert (Hsame : ∀ h' : files_handle, playlist_alloc h' = playlist_alloc h →
            ∃ k, 0 ≤ k ∧ playlist_alloc h' = playlist_alloc h + PLAYLIST_ALLOC_SIZE * k).
  { intros h' Heq. exists 0. split; [lia|]. rewrite Heq. lia. }
  destruct o as [name|index| |index| | | | |at_end]; simpl.
  - destruct name as [name|]; [|apply post_bind, post_ret, post_ret; by apply Hsame].
    destruct (Z_lt_le_dec (playlist_len h) INT_MAX) as [Hlt|Hge].
    + destruct (decide (playlist_len h = playlist_alloc h
                        ∧ INT_MAX < playlist_alloc h + PLAYLIST_ALLOC_SIZE))
        as [[He Hov]|Hok].
      { unfold files_add. wp. rewrite (proj2 (Z.eqb_eq _ _) He). wp.
        destruct (INT_MAX - PLAYLIST_ALLOC_SIZE <? playlist_alloc h) eqn:E0; [wp|lia]. }
      unfold post, bind. rewrite files_add_eq by first [assumption | lia].
      destruct (playlist_len h =? playlist_alloc h).
      * exists 1. split; [lia|]. simpl. lia.
      * by apply Hsame.
    + unfold files_add. wp.
      destruct (playlist_len h =? playlist_alloc h); wp.
      * destruct (INT_MAX - PLAYLIST_ALLOC_SIZE <? playlist_alloc h); wp.
        change (playlist_len (set_playlist_alloc _ h)) with (playlist_len h).
        destruct (_ <=? playlist_len h); wp.
        destruct (INT_MAX <=? playlist_len h) eqn:E; [wp; done | lia].
      * destruct (_ <=? playlist_len h); wp.
        destruct (INT_MAX <=? playlist_len h) eqn:E; [wp; done | lia].
  - destruct (Z_lt_le_dec index 0) as [Hneg|Hpos];
      [unfold post, bind; rewrite files_remove_out_of_range by lia; exact I|].
    destruct (Z_lt_le_dec index (playlist_len h)) as [Hlt|Hge];
      [|unfold post, bind; rewrite files_remove_out_of_range by lia; exact I].
    unfold post, bind. rewrite files_remove_in_range by lia.
    apply Hsame. destruct (playlist_cur h =? index); [reflexivity|].
    destruct (playlist_cur h >? index); reflexivity.
  - unfold post. rewrite files_flush_eq. by apply Hsame.
  - destruct (Z_lt_le_dec (play_index h index) 0) as [Hneg|Hpos];
      [unfold post, bind; rewrite files_play_negative by lia; exact I|].
    destruct (Z_lt_le_dec (play_index h index) (playlist_len h)) as [Hlt|Hge];
      [|unfold post, bind; rewrite files_play_out_of_range by lia; by apply Hsame].
    destruct (playlist_len_lookup h (play_index h index)) as [p Hp]; [lia|].
    unfold post, bind. rewrite (files_play_in_range fs h index p) by assumption.
    destruct (file_can_open fs (filename p)); by apply Hsame.
  - destruct (stream h) as [s|] eqn:Es.
    + unfold post, bind. rewrite (files_pause_eq h s Es). by apply Hsame.
    + unfold post, bind, files_pause, bind, get, ret. rewrite Es. by apply Hsame.
  - unfold post, bind. rewrite files_stop_eq. by apply Hsame.
  - destruct (scans_keep_alloc fs true h Hwf) as ((h' & Hrun & Ha) & _).
    unfold post, bind. rewrite Hrun. by apply Hsame.
  - destruct (scans_keep_alloc fs true h Hwf) as (_ & (h' & Hrun & Ha) & _).
    unfold post, bind. rewrite Hrun. by apply Hsame.
  - destruct (scans_keep_alloc fs at_end h Hwf) as (_ & _ & (h' & Hrun & Ha)).
    unfold post. rewrite Hrun. by apply Hsame.
Qed.

Lemma run_ops_alloc fs ops : ∀ h : files_handle,
  wf h →
  post (run_ops fs ops) h
    (λ _ h', wf h' ∧ ∃ k, 0 ≤ k
               ∧ playlist_alloc h' = playlist_alloc h + PLAYLIST_ALLOC_SIZE * k).
Proof.
  induction ops as [|o ops IH]; intros h Hwf; simpl.
  - apply post_ret. split; [exact Hwf|]. exists 0. split; lia.
  - apply post_bind.
    eapply post_mono; [apply post_conj; [by apply run_op_wf|by apply run_op_alloc]|].
    intros ? h1 [Hwf1 (k1 & Hk1 & Ha1)]. cbv beta.
    eapply post_mono; [by apply IH|].
    intros ? h2 [Hwf2 (k2 & Hk2 & Ha2)]. split; [exact Hwf2|].
    exists (k1 + k2). split; [lia|]. rewrite Ha2, Ha1. lia.
Qed.

(** The capacity of the playlist array never shrinks, whatever is removed
    or flushed: along any sequence of operations it stays a positive
    multiple of the allocation step and an upper bound of the length. *)
Theorem capacity_never_shrinks fs root ops ops' (h h' : files_handle) :
  run_ops fs ops (files_open output_init decoder_init root) = Done tt h →
  run_ops fs ops' h = Done tt h' →
  playlist_alloc h ≤ playlist_alloc h'
  ∧ (∃ k, 1 ≤ k ∧ playlist_alloc h' = PLAYLIST_ALLOC_SIZE * k)
  ∧ playlist_len h' ≤ playlist_alloc h'.
Proof.
  intros Hrun Hrun'.
  pose proof (run_ops_alloc fs ops _ (files_open_wf root)) as Hpost.
  apply (post_done _ _ _ _ _ Hpost) in Hrun as [Hwf (k & Hk & Ha)].
  pose proof (run_ops_alloc fs ops' h Hwf) as Hpost'.
  apply (post_done _ _ _ _ _ Hpost') in Hrun' as [Hwf' (k' & Hk' & Ha')].
  cbn [playlist_alloc files_open] in Ha. unfold PLAYLIST_ALLOC_SIZE in *.
  split; [lia|]. split.
  - exists (1 + k + k'). split; [lia|]. rewrite Ha', Ha. lia.
  - apply Hwf'.
Qed.

Lemma capacity_never_shrinks_witness :
  run_ops Examples.library Examples.load_three
    (files_open output_init decoder_init "/music") = Done tt Examples.loaded
  ∧ run_ops Examples.library [OpFlush] Examples.loaded
    = Done tt (Examples.state_after [OpFlush] Examples.loaded)
  ∧ playlist_alloc Examples.loaded
    ≤ playlist_alloc (Examples.state_after [OpFlush] Examples.loaded)
  ∧ playlist (Examples.state_after [OpFlush] Examples.loaded) = [].
Proof.
  assert (Hrun : run_ops Examples.library Examples.load_three
                   (files_open output_init decoder_init "/music")
                 = Done tt Examples.loaded) by (vm_compute; reflexivity).
  assert (Hrun' : run_ops Examples.library [OpFlush] Examples.loaded
                  = Done tt (Examples.state_after [OpFlush] Examples.loaded))
    by (vm_compute; reflexivity).
  split; [exact Hrun|]. split; [exact Hrun'|].
  split; [|vm_compute; reflexivity].
  exact (proj1 (capacity_never_shrinks Examples.library "/music" _ _ _ _ Hrun Hrun')).
Defined.

(** In every state reached by operations the handlers of /pause, /stop,
    /prev, /next and /playlist/flush answer 200 without a body, also when
    nothing is playing or the playlist is empty. *)
Theorem control_handlers_always_answer_200 fs root ops (h : files_handle) :
  run_ops fs ops (files_open output_init decoder_init root) = Done tt h →
  (∃ h', files_httpd_pause h = Done (200, None) h')
  ∧ (∃ h', files_httpd_stop h = Done (200, None) h')
  ∧ (∃ h', files_httpd_prev fs h = Done (200, None) h')
  ∧ (∃ h', files_httpd_next fs h = Done (200, None) h')
  ∧ (∃ h', files_httpd_playlist_flush h = Done (200, None) h').
Proof.
  intros Hrun. pose proof (reachable_wf _ _ _ _ Hrun) as Hwf.
  pose proof (files_pause_wf h Hwf) as Hpause.
  apply total_done in Hpause as (r1 & h1 & Hpause & _).
  pose proof (files_prev_wf fs h Hwf) as Hprev.
  apply total_done in Hprev as (r2 & h2 & Hprev & _).
  pose proof (files_next_wf fs h Hwf) as Hnext.
  apply total_done in Hnext as (r3 & h3 & Hnext & _).
  split; [|split; [|split; [|split]]].
  - exists h1. unfold files_httpd_pause, bind. rewrite Hpause. reflexivity.
  - eexists. unfold files_httpd_stop, bind. rewrite files_stop_eq. reflexivity.
  - exists h2. unfold files_httpd_prev, bind. rewrite Hprev. reflexivity.
  - exists h3. unfold files_httpd_next, bind. rewrite Hnext. reflexivity.
  - eexists. unfold files_httpd_playlist_flush, bind. rewrite files_flush_eq. reflexivity.
Qed.

Lemma control_handlers_always_answer_200_witness :
  run_ops Examples.library [] (files_open output_init decoder_init "/music")
  = Done tt Examples.fresh
  ∧ (∃ h', files_httpd_next Examples.library Examples.fresh = Done (200, None) h')
  ∧ (∃ h', files_httpd_pause Examples.fresh = Done (200, None) h').
Proof.
  assert (Hrun : run_ops Examples.library [] (files_open output_init decoder_init "/music")
                 = Done tt Examples.fresh) by reflexivity.
  split; [exact Hrun|].
  destruct (control_handlers_always_answer_200 Examples.library "/music" [] _ Hrun)
    as (Hpause & _ & _ & Hnext & _).
  split; [exact Hnext|exact Hpause].
Defined.

(** ** Configuration of the module *)

Lemma assoc_add key v l :
  Json.assoc key (filter (λ kv, kv.1 ≠ key) l ++ [(key, v)]) = Some v.
Proof.
  induction l as [|[k x] l IH]; simpl.
  - rewrite bool_decide_eq_true_2 by reflexivity. reflexivity.
  - destruct (decide (k = key)) as [->|Hne].
    + rewrite filter_cons_False by (simpl; intros H; by apply H). exact IH.
    + rewrite filter_cons_True by exact Hne. simpl.
      rewrite bool_decide_eq_false_2 by exact Hne. exact IH.
Qed.

Lemma assoc_add_ne key key' v l :
  key' ≠ key →
  Json.assoc key' (filter (λ kv, kv.1 ≠ key) l ++ [(key, v)]) = Json.assoc key' l.
Proof.
  intros Hne. induction l as [|[k x] l IH]; simpl.
  - rewrite bool_decide_eq_false_2 by congruence. reflexivity.
  - destruct (decide (k = key)) as [->|Hk].
    + rewrite filter_cons_False by (simpl; intros H; by apply H).
      rewrite bool_decide_eq_false_2 by congruence. exact IH.
    + rewrite filter_cons_True by exact Hk. simpl.
      destruct (bool_decide (k = key')); [reflexivity|exact IH].
Qed.

Lemma json_get_add (c : Json.json) key v :
  (∃ l, c = Json.JObject l) →
  Json.json_get (Json.json_add c key v) key = Some v.
Proof. intros [l ->]. apply assoc_add. Qed.

Lemma json_get_add_ne (c : Json.json) key key' v :
  key' ≠ key →
  Json.json_get (Json.json_add c key v) key' = Json.json_get c key'.
Proof.
  intros Hne. destruct c as [| | | |l]; try reflexivity. by apply assoc_add_ne.
Qed.

Lemma json_add_object (c : Json.json) key v :
  (∃ l, c = Json.JObject l) → ∃ l, Json.json_add c key v = Json.JObject l.
Proof. intros [l ->]. by eexists. Qed.

Lemma json_get_set_string (c : Json.json) key v :
  (∃ l, c = Json.JObject l) →
  Json.json_get_string (Json.json_set_string c key (Some v)) key = Some v.
Proof.
  intros Hc. unfold Json.json_get_string, Json.json_set_string.
  rewrite json_get_add by exact Hc. reflexivity.
Qed.

(** The configuration that [files_get_config] returns carries the current
    path, and giving it back to [files_set_config] leaves the handle as it
    is.  A [NULL] configuration, and one without a string member "path",
    select the built-in path.  [files_set_config] changes nothing but the
    path: entries already in the playlist keep the file names they were
    added with, entries added afterwards are resolved against the new
    path. *)
Theorem config_round_trip fs (h : files_handle) :
  (∃ c, files_get_config h = Done (Some c) h
      ∧ Json.json_get_string c "path" = Some (path h)
      ∧ files_set_config (Some c) h = Done 0 h)
  ∧ files_set_config None h = Done 0 (set_path default_path h)
  ∧ (∀ c, Json.json_get_string c "path" = None →
          files_set_config (Some c) h = Done 0 (set_path default_path h))
  ∧ (∀ c p, Json.json_get_string c "path" = Some p →
       files_set_config (Some c) h = Done 0 (set_path p h)
       ∧ playlist (set_path p h) = playlist h
       ∧ playlist_cur (set_path p h) = playlist_cur h
       ∧ stream (set_path p h) = stream h
       ∧ (files_set_config (Some c) ;; files_get_config) h
         = Done (Some (Json.json_set_string Json.json_new "path" (Some p)))
             (set_path p h)
       ∧ ∀ name, playlist_len h < playlist_alloc h → playlist_len h < INT_MAX →
           ∃ h', (files_set_config (Some c) ;; files_add fs (Some name)) h
                 = Done (playlist_len h) h'
             ∧ playlist h'
               = playlist h ++
                   [ {| filename := (p +:+ "/" +:+ name)%string;
                        format := file_format_parse fs (p +:+ "/" +:+ name)%string |} ]).
Proof.
  split; [|split; [|split]].
  - eexists. split; [reflexivity|].
    assert (Hget : Json.json_get_string
                     (Json.json_set_string Json.json_new "path" (Some (path h))) "path"
                   = Some (path h))
      by (apply json_get_set_string; by eexists).
    split; [exact Hget|].
    unfold files_set_config, bind, modify, ret. rewrite Hget.
    destruct h. reflexivity.
  - reflexivity.
  - intros c Hc. unfold files_set_config, bind, modify, ret. rewrite Hc. reflexivity.
  - intros c p Hc.
    assert (Hset : files_set_config (Some c) h = Done 0 (set_path p h))
      by (unfold files_set_config, bind, modify, ret; rewrite Hc; reflexivity).
    split; [exact Hset|]. do 3 (split; [reflexivity|]).
    split; [unfold bind; rewrite Hset; reflexivity|].
    intros name Hcap Hmax. unfold bind. rewrite Hset.
    rewrite files_add_eq
      by (first [exact Hmax | change (playlist_len h ≤ playlist_alloc h); lia
                | intros He; change (playlist_len h = playlist_alloc h) in He; lia]).
    eexists. split; [reflexivity|].
    change (playlist_len (set_path p h)) with (playlist_len h).
    cbn [playlist_alloc set_path].
    destruct (playlist_len h =? playlist_alloc h) eqn:E; [lia|]. reflexivity.
Qed.

Lemma config_round_trip_witness :
  Json.json_get_string (Json.JObject [("path"%string, Json.JString "/srv/media")]) "path"
  = Some "/srv/media"%string
  ∧ playlist_len Examples.loaded < playlist_alloc Examples.loaded
  ∧ playlist_len Examples.loaded < INT_MAX
  ∧ ∃ h', (files_set_config
             (Some (Json.JObject [("path"%string, Json.JString "/srv/media")])) ;;
           files_add Examples.library (Some "d.mp3"%string)) Examples.loaded
          = Done 3 h'
      ∧ (filename <$> playlist h')
        = ["/music/a.mp3"; "/music/bad.mp3"; "/music/c.mp3"; "/srv/media/d.mp3"]%string.
Proof.
  assert (Hc : Json.json_get_string
                 (Json.JObject [("path"%string, Json.JString "/srv/media")]) "path"
               = Some "/srv/media"%string) by reflexivity.
  assert (Hcap : playlist_len Examples.loaded < playlist_alloc Examples.loaded)
    by reflexivity.
  assert (Hmax : playlist_len Examples.loaded < INT_MAX) by reflexivity.
  do 3 (split; [assumption|]).
  destruct (proj2 (proj2 (proj2 (config_round_trip Examples.library Examples.loaded)))
              _ _ Hc) as (_ & _ & _ & _ & _ & Hadd).
  destruct (Hadd "d.mp3"%string Hcap Hmax) as (h' & Hrun & Hpl).
  exists h'. split; [exact Hrun|]. rewrite Hpl. reflexivity.
Defined.

(** ** Status, playlist and directory listings *)

Lemma json_new_object : ∃ l, Json.json_new = Json.JObject l.
Proof. by eexists. Qed.

#[local] Ltac json_lookup :=
  unfold Json.json_get_string, Json.json_set_string, Json.json_set_int;
  rewrite ?json_get_add_ne by discriminate;
  try (rewrite json_get_add
         by (repeat apply json_add_object; apply json_new_object)).

Lemma file_object_members base64_encode name meta add_pic :
  ∃ o, files_get_file_json_object base64_encode (Some name) meta add_pic = Some o
    ∧ (∃ l, o = Json.JObject l)
    ∧ Json.json_get_string o "file" = Some name
    ∧ (add_pic = false → Json.json_get_string o "picture" = None)
    ∧ Json.json_get_string o "title" = (meta ≫= title)
    ∧ Json.json_get o "pos" = None ∧ Json.json_get o "length" = None.
Proof.
  intros. unfold files_get_file_json_object. eexists. split; [reflexivity|].
  destruct meta as [meta|].
  - split; [repeat apply json_add_object; apply json_new_object|].
    split; [json_lookup; reflexivity|].
    split; [intros ->; json_lookup; reflexivity|].
    split; [json_lookup; simpl; by destruct (title meta)|].
    split; json_lookup; reflexivity.
  - split; [repeat apply json_add_object; apply json_new_object|].
    split; [json_lookup; reflexivity|].
    split; [intros _; json_lookup; reflexivity|].
    split; [json_lookup; reflexivity|].
    split; json_lookup; reflexivity.
Qed.

(** The request /status.  With nothing current the answer is 200 with
    the fixed text for a null file, whatever the playlist holds, and the
    engine is left as it is.  With a current entry the body is the export
    of an object whose member [file] is the name [basename] returns for
    that entry, with the position and length the decoder gives for the
    current file; the picture is left out unless the resource starts with
    "img".  The call of [basename] is the only effect on the engine: the
    stored file name of the current entry is left as [basename] left it,
    so the engine is unchanged exactly when [basename] did not write into
    that name. *)
Theorem status_reports_current_entry
    basename json_export base64_encode file_get_pos file_get_length
    (h : files_handle) resource :
  (playlist_cur h < 0 →
     files_httpd_status basename json_export base64_encode
       file_get_pos file_get_length resource h
     = Done (200, Some status_none) h)
  ∧ (∀ p, 0 ≤ playlist_cur h →
       playlist h !! Z.to_nat (playlist_cur h) = Some p →
       let h' :=
         set_playlist
           (<[Z.to_nat (playlist_cur h) :=
                {| filename := (basename (filename p)).2; format := format p |}]>
              (playlist h)) h in
       ∃ o, files_httpd_status basename json_export base64_encode
              file_get_pos file_get_length resource h
            = Done (200, Some (json_export (Some o))) h'
         ∧ ((basename (filename p)).2 = filename p ↔ h' = h)
         ∧ Json.json_get_string o "file" = Some (basename (filename p)).1
         ∧ Json.json_get o "pos" = Some (Json.JInt (file_get_pos (file h)))
         ∧ Json.json_get o "length" = Some (Json.JInt (file_get_length (file h)))
         ∧ Json.json_get_string o "title" = (format p ≫= title)
         ∧ (String.prefix "img" resource = false →
            Json.json_get_string o "picture" = None)).
Proof.
  split.
  - intros Hc. unfold files_httpd_status, files_get_json_status, bind, get, ret.
    destruct (playlist_cur h <? 0) eqn:E; [reflexivity|lia].
  - intros p Hc Hp h'.
    destruct (file_object_members base64_encode (basename (filename p)).1
                (format p) (String.prefix "img" resource))
      as (o & Ho & Hobj & Hfile & Hpic & Htitle & _).
    eexists. split.
    { unfold files_httpd_status, files_get_json_status, bind, get, ret, playlist_at,
        modify, basename_of.
      destruct (playlist_cur h <? 0) eqn:E; [lia|]. rewrite Hp.
      unfold h'. destruct (basename (filename p)) as [str kept]. cbn [fst snd] in *.
      rewrite Ho. reflexivity. }
    split.
    { split.
      - intros Hk. unfold h'. rewrite Hk.
        replace {| filename := filename p; format := format p |} with p
          by (by destruct p).
        rewrite list_insert_id by exact Hp. by destruct h.
      - intros Heq. apply (f_equal playlist) in Heq. unfold h' in Heq.
        cbn [playlist set_playlist] in Heq.
        assert (Hat : <[Z.to_nat (playlist_cur h) :=
                          {| filename := (basename (filename p)).2;
                             format := format p |}]> (playlist h)
                        !! Z.to_nat (playlist_cur h)
                      = Some {| filename := (basename (filename p)).2;
                                format := format p |})
          by (apply list_lookup_insert_eq; by eapply lookup_lt_Some).
        rewrite Heq, Hp in Hat. injection Hat as Hat.
        apply (f_equal filename) in Hat. symmetry. exact Hat. }
    unfold Json.json_get_string in *. unfold Json.json_set_int.
    split; [rewrite !json_get_add_ne by discriminate; exact Hfile|].
    split; [rewrite json_get_add_ne by discriminate;
            rewrite json_get_add by exact Hobj; reflexivity|].
    split; [rewrite json_get_add by (by apply json_add_object); reflexivity|].
    split; [rewrite !json_get_add_ne by discriminate; exact Htitle|].
    rewrite !json_get_add_ne by discriminate. exact Hpic.
Qed.

Lemma status_reports_current_entry_witness :
  playlist_cur Examples.loaded < 0
  ∧ files_httpd_status Examples.xpg_basename (λ _, "body"%string) (λ x, x)
      (λ _, 0) (λ _, 0) "img" Examples.loaded
    = Done (200, Some status_none) Examples.loaded
  ∧ 0 ≤ playlist_cur Examples.playing_dir
  ∧ playlist Examples.playing_dir
    = [ {| filename := "/music/sub/"; format := Some (Examples.tags "/music/sub/") |} ]
  ∧ ∃ o h', files_httpd_status Examples.xpg_basename (λ _, "body"%string) (λ x, x)
              (λ _, 7) (λ _, 9) "" Examples.playing_dir
            = Done (200, Some "body"%string) h'
      ∧ playlist h'
        = [ {| filename := "/music/sub"; format := Some (Examples.tags "/music/sub/") |} ]
      ∧ h' ≠ Examples.playing_dir
      ∧ Json.json_get_string o "file" = Some "sub"%string
      ∧ Json.json_get o "pos" = Some (Json.JInt 7).
Proof.
  assert (Hneg : playlist_cur Examples.loaded < 0) by reflexivity.
  assert (Hpos : 0 ≤ playlist_cur Examples.playing_dir) by (vm_compute; discriminate).
  assert (Hp : playlist Examples.playing_dir
                 !! Z.to_nat (playlist_cur Examples.playing_dir)
               = Some {| filename := "/music/sub/";
                         format := Some (Examples.tags "/music/sub/") |})
    by reflexivity.
  split; [exact Hneg|].
  split.
  { exact (proj1 (status_reports_current_entry Examples.xpg_basename
                    (λ _, "body"%string) (λ x, x)
                    (λ _, 0) (λ _, 0) Examples.loaded "img") Hneg). }
  split; [exact Hpos|]. split; [reflexivity|].
  destruct (proj2 (status_reports_current_entry Examples.xpg_basename
                     (λ _, "body"%string) (λ x, x)
                     (λ _, 7) (λ _, 9) Examples.playing_dir "") _ Hpos Hp)
    as (o & Hrun & Hsame & Hfile & Hposn & _).
  exists o. eexists. split; [exact Hrun|]. split; [reflexivity|].
  split; [|split; [exact Hfile|exact Hposn]].
  intros Heq. apply Hsame in Heq. vm_compute in Heq. discriminate Heq.
Defined.

Lemma playlist_array basename base64_encode l : ∀ acc entries,
  foldl (λ '(root, entries) p,
           let '(str, p') := basename_of basename p in
           match files_get_file_json_object base64_encode (Some str) (format p) false with
           | Some tmp => (Json.json_array_add root tmp, entries ++ [p'])
           | None => (root, entries ++ [p'])
           end)
    (Json.JArray acc, entries) l
  = (Json.JArray
       (acc ++ ((λ p, default Json.JNull
                        (files_get_file_json_object base64_encode
                           (Some (basename (filename p)).1) (format p) false)) <$> l)),
     entries ++ ((λ p, {| filename := (basename (filename p)).2;
                          format := format p |}) <$> l)).
Proof.
  induction l as [|p l IH]; intros acc entries; [simpl; by rewrite !app_nil_r|].
  cbn [foldl]. unfold basename_of at 2.
  rewrite !fmap_cons. cbv beta.
  destruct (basename (filename p)) as [str kept]. cbn [fst snd].
  assert (Ho : files_get_file_json_object base64_encode (Some str) (format p) false
               = Some (default Json.JNull
                         (files_get_file_json_object base64_encode (Some str)
                            (format p) false))) by reflexivity.
  rewrite Ho. cbn [Json.json_array_add]. rewrite IH, <- !app_assoc. reflexivity.
Qed.

(** The request /playlist answers 200 with the export of an array that
    has one object for each entry of the playlist, in playlist order: its
    member [file] is the name [basename] returns for the entry, and it
    never carries a picture.  The calls of [basename] are the only effect
    on the engine: every stored file name is left as [basename] left it
    (length, order and metadata of the playlist are kept), so the engine
    is unchanged when [basename] wrote into none of the names. *)
Theorem playlist_listing_follows_the_playlist
    basename json_export base64_encode (h : files_handle) :
  let h' :=
    set_playlist
      ((λ p, {| filename := (basename (filename p)).2; format := format p |})
         <$> playlist h) h in
  ∃ items,
    files_httpd_playlist basename json_export base64_encode h
    = Done (200, Some (json_export (Some (Json.JArray items)))) h'
    ∧ length items = length (playlist h)
    ∧ playlist_len h' = playlist_len h
    ∧ (∀ (i : nat) p, playlist h !! i = Some p →
        ∃ o, items !! i = Some o
          ∧ playlist h' !! i
            = Some {| filename := (basename (filename p)).2; format := format p |}
          ∧ Json.json_get_string o "file" = Some (basename (filename p)).1
          ∧ Json.json_get_string o "title" = (format p ≫= title)
          ∧ Json.json_get_string o "picture" = None)
    ∧ ((∀ p, p ∈ playlist h → (basename (filename p)).2 = filename p) → h' = h).
Proof.
  intros h'.
  exists ((λ p, default Json.JNull
                  (files_get_file_json_object base64_encode
                     (Some (basename (filename p)).1) (format p) false))
          <$> playlist h).
  split.
  { unfold files_httpd_playlist, files_get_json_playlist, bind, get, ret, modify.
    unfold Json.json_new_array. rewrite playlist_array. reflexivity. }
  split; [by rewrite length_fmap|].
  split; [unfold playlist_len, h'; cbn [playlist set_playlist]; by rewrite length_fmap|].
  split.
  - intros i p Hp. rewrite list_lookup_fmap, Hp.
    destruct (file_object_members base64_encode (basename (filename p)).1
                (format p) false) as (o & Ho & _ & Hfile & Hpic & Htitle & _).
    exists o. split; [unfold fmap, option_fmap, option_map; by rewrite Ho|].
    split; [unfold h'; cbn [playlist set_playlist]; by rewrite list_lookup_fmap, Hp|].
    split; [exact Hfile|]. split; [exact Htitle|]. by apply Hpic.
  - intros Hsame. unfold h'.
    replace ((λ p, {| filename := (basename (filename p)).2; format := format p |})
               <$> playlist h) with (playlist h); [by destruct h|].
    symmetry. rewrite <- (list_fmap_id (playlist h)) at 2.
    apply list_fmap_ext. intros i p Hp. simpl.
    rewrite (Hsame p) by (by eapply list_elem_of_lookup_2). by destruct p.
Qed.

Lemma playlist_listing_follows_the_playlist_witness :
  ∃ (items : list Json.json) h',
    files_httpd_playlist Examples.xpg_basename (λ _, "body"%string) (λ x, x)
      Examples.playing_dir
    = Done (200, Some "body"%string) h'
    ∧ length items = 1%nat
    ∧ playlist Examples.playing_dir
      = [ {| filename := "/music/sub/"; format := Some (Examples.tags "/music/sub/") |} ]
    ∧ playlist h'
      = [ {| filename := "/music/sub"; format := Some (Examples.tags "/music/sub/") |} ].
Proof.
  destruct (playlist_listing_follows_the_playlist Examples.xpg_basename
              (λ _, "body"%string) (λ x, x) Examples.playing_dir)
    as (items & Hrun & Hlen & _).
  exists items. eexists. split; [exact Hrun|]. split; [exact Hlen|].
  split; reflexivity.
Defined.

Lemma list_loop_effect fs base64_encode stat real_path entries : ∀ s dirs files,
  (∀ d, d ∈ entries → hidden d = false →
        is_Some (stat (real_path +:+ "/" +:+ d)%string)) →
  (∀ d mode, d ∈ entries → hidden d = false →
        stat (real_path +:+ "/" +:+ d)%string = Some mode →
        Z.land mode S_IFREG ≠ 0 → (4 ≤ String.length d)%nat) →
  list_loop fs base64_encode stat real_path entries s
    (Json.JArray dirs) (Json.JArray files)
  = Some
      (Json.JArray
         (dirs ++ (Json.JString
                     <$> filter (λ d, listed_dir stat real_path d = true) entries)),
       Json.JArray
         (files ++
            ((λ d, default Json.JNull
                     (files_get_file_json_object base64_encode (Some d)
                        (file_format_parse fs (real_path +:+ "/" +:+ d)%string) true))
               <$> filter (λ d, listed_file stat real_path d = true) entries))).
Proof.
  induction entries as [|d entries IH]; intros s dirs files Hstat Hlen.
  - simpl. by rewrite !app_nil_r.
  - assert (Hstat' : ∀ d', d' ∈ entries → hidden d' = false →
              is_Some (stat (real_path +:+ "/" +:+ d')%string))
      by (intros; apply Hstat; [by apply list_elem_of_further|done]).
    assert (Hlen' : ∀ d' mode, d' ∈ entries → hidden d' = false →
              stat (real_path +:+ "/" +:+ d')%string = Some mode →
              Z.land mode S_IFREG ≠ 0 → (4 ≤ String.length d')%nat)
      by (intros ? ? ?; apply Hlen; by apply list_elem_of_further).
    set (obj := λ d' : string, default Json.JNull
                  (files_get_file_json_object base64_encode (Some d')
                     (file_format_parse fs (real_path +:+ "/" +:+ d')%string) true)).
    assert (Hobj : files_get_file_json_object base64_encode (Some d)
                     (file_format_parse fs (real_path +:+ "/" +:+ d)%string) true
                   = Some (obj d)) by reflexivity.
    rewrite !(filter_cons _ d). cbn [list_loop]. rewrite Hobj.
    destruct (hidden d) eqn:Ehid.
    { assert (listed_dir stat real_path d = false) as ->
        by (unfold listed_dir; by rewrite Ehid).
      assert (listed_file stat real_path d = false) as ->
        by (unfold listed_file; by rewrite Ehid).
      rewrite !decide_False by discriminate. by apply IH. }
    destruct (Hstat d) as [mode Hmode]; [apply list_elem_of_here|exact Ehid|].
    rewrite Hmode.
    destruct (Z.land mode S_IFREG =? 0) eqn:Ereg; cbn [negb].
    + assert (listed_file stat real_path d = false) as ->
        by (unfold listed_file; by rewrite Ehid, Hmode, Ereg).
      rewrite (decide_False (P := false = true)) by discriminate.
      destruct (Z.land mode S_IFDIR =? 0) eqn:Edir; cbn [negb].
      * assert (listed_dir stat real_path d = false) as ->
          by (unfold listed_dir; by rewrite Ehid, Hmode, Ereg, Edir).
        rewrite decide_False by discriminate. by apply IH.
      * assert (listed_dir stat real_path d = true) as ->
          by (unfold listed_dir; by rewrite Ehid, Hmode, Ereg, Edir).
        rewrite decide_True by reflexivity.
        cbn [Json.json_array_add]. rewrite IH by assumption.
        rewrite fmap_cons, <- app_assoc. reflexivity.
    + assert (listed_dir stat real_path d = false) as ->
        by (unfold listed_dir; by rewrite Ehid, Hmode, Ereg).
      rewrite (decide_False (P := false = true)) by discriminate.
      assert (4 ≤ String.length d)%nat as Hd
        by (apply (Hlen d mode); [apply list_elem_of_here|done|done|lia]).
      destruct (Z.of_nat (String.length d) <? 4) eqn:E4; [lia|].
      replace (Z.to_nat (Z.of_nat (String.length d) - 4))
        with (String.length d - 4)%nat by lia.
      destruct (has_ext (String.substring (String.length d - 4) 4 d) ext) eqn:Eext.
      * assert (listed_file stat real_path d = true) as ->
          by (unfold listed_file; by rewrite Ehid, Hmode, Ereg, Eext).
        rewrite decide_True by reflexivity.
        cbn [Json.json_array_add]. rewrite IH by assumption.
        rewrite fmap_cons, <- app_assoc. reflexivity.
      * assert (listed_file stat real_path d = false) as ->
          by (unfold listed_file; by rewrite Ehid, Hmode, Ereg, Eext).
        rewrite decide_False by discriminate. by apply IH.
Qed.

(** The request /list/<sub>: 404 when the directory cannot be opened.
    When it opens, and [stat] succeeds for every entry shown, and no
    regular file has a name shorter than four characters, the body is the
    export of an object with two arrays, both in directory order:
    [directory] holds the names of the entries whose mode has the
    directory bit and not the regular-file bit, [file] an object for each
    regular file whose last four characters are one of the six accepted
    extensions, compared as they are.  Entries whose name starts with a
    dot appear in neither.  The engine is left as it is. *)
Theorem directory_listing_shows_media_and_directories
    fs json_export base64_encode opendir stat (h : files_handle) sub entries :
  let real_path :=
    match sub with
    | None => path h
    | Some x => (path h +:+ "/" +:+ x)%string
    end in
  (opendir real_path = None →
     files_httpd_list fs json_export base64_encode opendir stat sub h
     = Done (404, Some "Bad directory"%string) h)
  ∧ (opendir real_path = Some entries →
     (∀ d, d ∈ entries → hidden d = false →
           is_Some (stat (real_path +:+ "/" +:+ d)%string)) →
     (∀ d mode, d ∈ entries → hidden d = false →
           stat (real_path +:+ "/" +:+ d)%string = Some mode →
           Z.land mode S_IFREG ≠ 0 → (4 ≤ String.length d)%nat) →
     ∃ root,
       files_httpd_list fs json_export base64_encode opendir stat sub h
       = Done (200, Some (json_export (Some root))) h
       ∧ Json.json_get root "directory"
         = Some (Json.JArray
                   (Json.JString
                      <$> filter (λ d, listed_dir stat real_path d = true) entries))
       ∧ Json.json_get root "file"
         = Some (Json.JArray
                   ((λ d, default Json.JNull
                            (files_get_file_json_object base64_encode (Some d)
                               (file_format_parse fs (real_path +:+ "/" +:+ d)%string)
                               true))
                      <$> filter (λ d, listed_file stat real_path d = true) entries))).
Proof.
  intros real_path. split.
  - intros Hdir. unfold files_httpd_list, files_get_json_list, bind, get, ret.
    fold real_path. rewrite Hdir. reflexivity.
  - intros Hdir Hstat Hlen. eexists. split.
    { unfold files_httpd_list, files_get_json_list, bind, get, ret.
      fold real_path. rewrite Hdir. unfold Json.json_new_array.
      rewrite (list_loop_effect fs base64_encode stat real_path entries)
        by assumption.
      reflexivity. }
    split.
    + rewrite json_get_add_ne by discriminate.
      rewrite json_get_add by apply json_new_object. reflexivity.
    + rewrite json_get_add by (apply json_add_object, json_new_object). reflexivity.
Qed.

Lemma directory_listing_shows_media_and_directories_witness :
  ∃ root,
    files_httpd_list Examples.library (λ _, "body"%string) (λ x, x)
      Examples.tree_opendir Examples.tree_stat None Examples.fresh
    = Done (200, Some "body"%string) Examples.fresh
    ∧ Json.json_get root "directory" = Some (Json.JArray [Json.JString "live"])
    ∧ (∃ o, Json.json_get root "file" = Some (Json.JArray [o])
            ∧ Json.json_get_string o "file" = Some "a.mp3"%string)
    ∧ files_httpd_list Examples.library (λ _, "body"%string) (λ x, x)
        Examples.tree_opendir Examples.tree_stat (Some "live"%string) Examples.fresh
      = Done (404, Some "Bad directory"%string) Examples.fresh.
Proof.
  pose proof (directory_listing_shows_media_and_directories Examples.library
                (λ _, "body"%string) (λ x, x) Examples.tree_opendir Examples.tree_stat
                Examples.fresh None
                [".git"; "a.mp3"; "cover.jpg"; "live"; "B.MP3"]%string) as [_ Hlist].
  destruct Hlist as (root & Hrun & Hdirs & Hfiles).
  - reflexivity.
  - intros d Hd _. unfold Examples.tree_stat. case_bool_decide; eauto.
  - intros d mode Hd _ _ _.
    repeat (apply elem_of_cons in Hd as [->|Hd]; [vm_compute; lia|]).
    by apply elem_of_nil in Hd.
  - exists root. split; [exact Hrun|]. split; [exact Hdirs|].
    split.
    + eexists. split; [exact Hfiles|]. vm_compute. reflexivity.
    + apply (proj1 (directory_listing_shows_media_and_directories Examples.library
                      (λ _, "body"%string) (λ x, x) Examples.tree_opendir
                      Examples.tree_stat Examples.fresh (Some "live"%string) [])).
      reflexivity.
Defined.

(** The result of [stat] is not tested: an entry whose [stat] fails is
    classified with the mode of the entry listed before it.  Here a
    directory is followed by an entry that cannot be examined, and both
    are reported as directories. *)
Theorem listing_reuses_mode_after_failed_stat
    fs json_export base64_encode opendir stat (h : files_handle) a b mode :
  opendir (path h) = Some [a; b] →
  hidden a = false → hidden b = false →
  stat (path h +:+ "/" +:+ a)%string = Some mode →
  stat (path h +:+ "/" +:+ b)%string = None →
  Z.land mode S_IFREG = 0 → Z.land mode S_IFDIR ≠ 0 →
  ∃ root,
    files_httpd_list fs json_export base64_encode opendir stat None h
    = Done (200, Some (json_export (Some root))) h
    ∧ Json.json_get root "directory"
      = Some (Json.JArray [Json.JString a; Json.JString b])
    ∧ Json.json_get root "file" = Some (Json.JArray []).
Proof.
  intros Hdir Ha Hb Hsa Hsb Hreg Hdirbit. eexists. split.
  { unfold files_httpd_list, files_get_json_list, bind, get, ret.
    rewrite Hdir. cbn [list_loop]. rewrite Ha, Hb, Hsa, Hsb, Hreg.
    cbn [negb Z.eqb].
    destruct (Z.land mode S_IFDIR =? 0) eqn:E; [lia|]. cbn [negb]. reflexivity. }
  split.
  - rewrite json_get_add_ne by discriminate.
    rewrite json_get_add by apply json_new_object. reflexivity.
  - rewrite json_get_add by (apply json_add_object, json_new_object). reflexivity.
Qed.

Lemma listing_reuses_mode_after_failed_stat_witness :
  ∃ root,
    files_httpd_list Examples.library (λ _, "body"%string) (λ x, x)
      (λ _, Some ["live"; "gone"]%string)
      (λ p, if bool_decide (p = "/music/live"%string) then Some S_IFDIR else None)
      None Examples.fresh
    = Done (200, Some "body"%string) Examples.fresh
    ∧ Json.json_get root "directory"
      = Some (Json.JArray [Json.JString "live"; Json.JString "gone"]).
Proof.
  destruct (listing_reuses_mode_after_failed_stat Examples.library
              (λ _, "body"%string) (λ x, x) (λ _, Some ["live"; "gone"]%string)
              (λ p, if bool_decide (p = "/music/live"%string) then Some S_IFDIR else None)
              Examples.fresh "live" "gone" S_IFDIR)
    as (root & Hrun & Hdirs & _);
    [reflexivity|reflexivity|reflexivity|reflexivity|reflexivity|reflexivity
    |vm_compute; discriminate|].
  exists root. split; [exact Hrun|exact Hdirs].
Defined.

End FilesProofs.

(** * Properties of the module start-up loop *)

Module MainProofs.

Import Main.

Lemma open_all_app avahi_h output_h cfg l1 : ∀ l2 a,
  open_all avahi_h output_h cfg (l1 ++ l2) a =
    let r1 := open_all avahi_h output_h cfg l1 a in
    let r2 := open_all avahi_h output_h cfg l2 r1.2 in
    (r1.1 ++ r2.1, r2.2).
Proof.
  induction l1 as [|m l1 IH]; intros l2 a; simpl.
  - by destruct (open_all avahi_h output_h cfg l2 a).
  - destruct (open_module avahi_h output_h cfg m a) as [m' a'].
    rewrite IH. simpl.
    destruct (open_all avahi_h output_h cfg l1 a') as [l1' a1]. simpl.
    by destruct (open_all avahi_h output_h cfg l2 a1).
Qed.

Lemma open_module_failed avahi_h output_h cfg m a f :
  open m = Some f →
  (f {| avahi := avahi_h; output := output_h; config := cfg (name m) |}).1 ≠ 0 →
  open_module avahi_h output_h cfg m a =
    after_failed_open m
      (f {| avahi := avahi_h; output := output_h; config := cfg (name m) |}).1 a.
Proof.
  intros Hopen Hst. unfold open_module, after_failed_open. rewrite Hopen.
  destruct (f _) as [status stored]. simpl in *.
  destruct (status =? 0) eqn:E; [lia|]. simpl.
  destruct (close m), (urls m); reflexivity.
Qed.

(** Where every [close] returns for the address of the handle field, the
    run of the loop is the one [open_module] describes. *)
Lemma open_module_run_returns avahi_h output_h cfg close_of m a :
  (∀ m', is_Some (close_of m' CloseHandleAddr)) →
  open_module_run avahi_h output_h cfg close_of m a
  = Some (open_module avahi_h output_h cfg m a).
Proof.
  intros Hret. unfold open_module_run, open_module.
  destruct (open m) as [f|]; [|reflexivity].
  destruct (f _) as [status stored].
  destruct (negb (status =? 0)); [|simpl; by destruct (urls m)].
  cbn [close set_handle].
  destruct (close m); [|simpl; by destruct (urls m)].
  destruct (Hret (set_handle stored m)) as [z Hz]. rewrite Hz.
  simpl. by destruct (urls m).
Qed.

Lemma open_all_run_returns avahi_h output_h cfg close_of l : ∀ a,
  (∀ m', is_Some (close_of m' CloseHandleAddr)) →
  open_all_run avahi_h output_h cfg close_of l a
  = Some (open_all avahi_h output_h cfg l a).
Proof.
  induction l as [|m l IH]; intros a Hret; [reflexivity|].
  cbn [open_all_run open_all]. rewrite open_module_run_returns by exact Hret.
  simpl. destruct (open_module avahi_h output_h cfg m a) as [m' a'].
  cbn [fst snd]. rewrite IH by exact Hret. simpl.
  by destruct (open_all avahi_h output_h cfg l a').
Qed.

(** C1: a module whose [open] fails is not survived in general, and its
    routes are registered.  The loop calls [close] with the address of the
    handle field, where the shutdown loop passes the handle.  For the
    module of files.c ([files_close]) that address is not null and not a
    [struct files_handle]: the call has no defined result and the start-up
    loop with it, whereas the null handle passed by value would be
    answered with 0.  For a module whose [close] is absent or returns, the
    loop goes on with the handle reset to null and the route table of the
    module registered all the same, bound to the null handle; a handler
    of files.c reached through such a route, like the one of /next, reads
    the handle without a test. *)
Theorem failed_open_of_files_module_ends_startup avahi_h output_h cfg fs l a :
  open_all_run avahi_h output_h cfg Examples.closes (Examples.broken :: l) a = None
  ∧ Examples.closes Examples.broken CloseHandleAddr = None
  ∧ Examples.closes Examples.broken (CloseHandle None) = Some 0
  ∧ (∀ close_of m f,
       open m = Some f →
       let r := f {| avahi := avahi_h; output := output_h; config := cfg (name m) |} in
       r.1 ≠ 0 →
       (close m = true → is_Some (close_of (set_handle r.2 m) CloseHandleAddr)) →
       open_module_run avahi_h output_h cfg close_of m a
       = Some (after_failed_open m r.1 a)
       ∧ handle (after_failed_open m r.1 a).1 = None
       ∧ routes_of (name m) (after_failed_open m r.1 a).2
         = routes_of (name m) a
           ++ match urls m with
              | Some t => [(t, None)]
              | None => []
              end)
  ∧ Files.files_httpd_next_entry fs Files.ArgNull = None.
Proof.
  split; [reflexivity|]. split; [reflexivity|]. split; [reflexivity|].
  split; [|reflexivity].
  intros close_of m f Hopen r Hst Hclose. split; [|split; [reflexivity|]].
  - unfold open_module_run, after_failed_open. rewrite Hopen.
    subst r. destruct (f _) as [status stored]. cbn [fst snd] in *.
    destruct (status =? 0) eqn:E; [lia|]. cbn [negb close set_handle name].
    destruct (close m).
    + destruct (Hclose eq_refl) as [z Hz]. rewrite Hz. simpl.
      by destruct (urls m).
    + simpl. by destruct (urls m).
  - unfold after_failed_open, routes_of, httpd_add_urls, emit. cbn [snd httpd].
    destruct (close m), (urls m); cbn [httpd]; rewrite ?app_nil_r; try reflexivity;
      rewrite omap_app; simpl; rewrite bool_decide_eq_true_2 by reflexivity;
      reflexivity.
Qed.

(** ** Further properties of start-up, shutdown and configuration *)

Lemma open_module_effect avahi_h output_h cfg m a :
  httpd (open_module avahi_h output_h cfg m a).2
  = httpd a ++ match registration avahi_h output_h cfg m with
               | Some r => [r]
               | None => []
               end
  ∧ handle (open_module avahi_h output_h cfg m a).1
    = opened_handle avahi_h output_h cfg m
  ∧ name (open_module avahi_h output_h cfg m a).1 = name m.
Proof.
  unfold open_module, registration, opened_handle.
  destruct (open m) as [f|]; [|destruct (urls m); simpl; rewrite app_nil_r; done].
  destruct (f _) as [status stored]. simpl.
  destruct (status =? 0); simpl; destruct (close m), (urls m); simpl;
    rewrite ?app_nil_r; done.
Qed.

(** After the start-up loop the dispatcher holds, in load order, one
    registration for each module that has both an [open] function and a
    route table, and none for the others: bound to the handle that [open]
    stored when it returned 0, and to null otherwise.  The names of the
    modules and their order are unchanged, and each module is left with
    that same handle (a module without [open] keeps the one it had). *)
Theorem startup_registers_opened_modules avahi_h output_h cfg l a :
  httpd (open_all avahi_h output_h cfg l a).2
  = httpd a ++ omap (registration avahi_h output_h cfg) l
  ∧ handle <$> (open_all avahi_h output_h cfg l a).1
    = opened_handle avahi_h output_h cfg <$> l
  ∧ name <$> (open_all avahi_h output_h cfg l a).1 = name <$> l.
Proof.
  revert a. induction l as [|m l IH]; intros a; simpl.
  - rewrite app_nil_r. done.
  - destruct (open_module_effect avahi_h output_h cfg m a) as (Hh & Hm & Hn).
    destruct (open_module avahi_h output_h cfg m a) as [m' a']. simpl in *.
    destruct (IH a') as (Hh' & Hm' & Hn').
    destruct (open_all avahi_h output_h cfg l a') as [l' a'']. simpl in *.
    split; [|split].
    + rewrite Hh', Hh. destruct (registration avahi_h output_h cfg m);
        simpl; rewrite <- ?app_assoc, ?app_nil_r; reflexivity.
    + f_equal; [exact Hm|exact Hm'].
    + f_equal; [exact Hn|exact Hn'].
Qed.

Lemma close_all_effect get_config_of l : ∀ d,
  NoDup (name <$> l) →
  ∃ d', close_all get_config_of l d = Some d'
    ∧ (∀ m, m ∈ l →
         document d' (name m)
         = if get_config m then get_config_of m else document d (name m))
    ∧ (∀ n, n ∉ name <$> l → document d' n = document d n)
    ∧ calls d'
      = calls d ++
        flat_map (λ m, (if get_config m
                        then [CallGetConfig (name m) (handle m)] else [])
                       ++ (if close m then [CallClose (name m) (handle m)] else []))
          l
    ∧ modules d' = modules d ∧ disk d' = disk d.
Proof.
  induction l as [|m l IH]; intros d Hnd.
  - exists d. simpl. rewrite app_nil_r. repeat split; try done.
    intros m Hm. by apply elem_of_nil in Hm.
  - apply NoDup_cons in Hnd as [Hm Hnd]. fold (fmap name l) in Hm, Hnd.
    cbn [close_all].
    set (d1 := if get_config m
               then {| modules := modules d;
                       document := λ k, if bool_decide (k = name m)
                                        then get_config_of m else document d k;
                       disk := disk d;
                       calls := calls d ++ [CallGetConfig (name m) (handle m)] |}
               else d).
    assert (Hstep : (if get_config m
                     then config_set_json (name m) (cfg_of (get_config_of m))
                            (record (CallGetConfig (name m) (handle m)) d)
                     else Some d) = Some d1).
    { unfold d1, config_set_json, cfg_of, record.
      destruct (get_config m); [|reflexivity].
      destruct (get_config_of m); reflexivity. }
    rewrite Hstep. cbn [mbind option_bind].
    set (d2 := if close m then record (CallClose (name m) (handle m)) d1 else d1).
    destruct (IH d2 Hnd) as (d' & Hrun & Hin & Hout & Hcalls & Hmods & Hdisk).
    assert (Hdoc2 : ∀ k, document d2 k
              = if get_config m
                then (if bool_decide (k = name m) then get_config_of m else document d k)
                else document d k).
    { intros k. unfold d2, d1, record. destruct (close m), (get_config m); reflexivity. }
    exists d'. split; [exact Hrun|]. split; [|split; [|split; [|split]]].
    + intros m' Hm'. apply elem_of_cons in Hm' as [->|Hm'].
      * rewrite Hout by exact Hm. rewrite Hdoc2.
        rewrite bool_decide_eq_true_2 by reflexivity.
        destruct (get_config m); reflexivity.
      * rewrite (Hin m' Hm'). destruct (get_config m'); [reflexivity|].
        rewrite Hdoc2.
        assert (name m' ≠ name m).
        { intros Heq. apply Hm. rewrite <- Heq. apply list_elem_of_fmap. eauto. }
        rewrite bool_decide_eq_false_2 by assumption.
        destruct (get_config m); reflexivity.
    + intros n Hn. apply not_elem_of_cons in Hn as [Hne Hn].
      rewrite Hout by exact Hn. rewrite Hdoc2.
      rewrite bool_decide_eq_false_2 by exact Hne.
      destruct (get_config m); reflexivity.
    + rewrite Hcalls. unfold d2, d1, record. simpl.
      destruct (close m), (get_config m); simpl; rewrite <- ?app_assoc; reflexivity.
    + rewrite Hmods. unfold d2, d1, record. destruct (close m), (get_config m); reflexivity.
    + rewrite Hdisk. unfold d2, d1, record. destruct (close m), (get_config m); reflexivity.
Qed.

(** Shutdown, for modules with distinct names.  Each module that has
    [get_config] is asked for its configuration, which replaces its
    section of the document; the section of a module without [get_config]
    and every other section are kept.  Each module that has [close] is
    then closed with its handle, in load order, and this includes a module
    whose [open] failed, which is asked and closed with the null handle.
    The document is written to the file at the end. *)
Theorem shutdown_saves_each_section get_config_of d :
  NoDup (name <$> modules d) →
  ∃ d', shutdown get_config_of d = Some d'
    ∧ (∀ m, m ∈ modules d →
         disk d' (name m)
         = if get_config m then get_config_of m else document d (name m))
    ∧ (∀ n, n ∉ name <$> modules d → disk d' n = document d n)
    ∧ document d' = disk d'
    ∧ calls d'
      = calls d ++
        flat_map (λ m, (if get_config m
                        then [CallGetConfig (name m) (handle m)] else [])
                       ++ (if close m then [CallClose (name m) (handle m)] else []))
          (modules d).
Proof.
  intros Hnd.
  destruct (close_all_effect get_config_of (modules d) d Hnd)
    as (d' & Hrun & Hin & Hout & Hcalls & _ & _).
  exists (config_save d'). unfold shutdown. rewrite Hrun.
  split; [reflexivity|]. repeat split; assumption.
Qed.

Lemma shutdown_saves_each_section_witness :
  NoDup (name <$> modules (Examples.running [Examples.broken; Examples.radio;
                                              Examples.mute]))
  ∧ ∃ d', shutdown Examples.reports
            (Examples.running [Examples.broken; Examples.radio; Examples.mute])
          = Some d'
      ∧ disk d' "Radio" = Some "radio-section"%string
      ∧ disk d' "AirTunes" = Some "airtunes-section"%string
      ∧ disk d' "File browser" = None
      ∧ calls d'
        = [CallGetConfig "File browser" None; CallClose "File browser" None;
           CallGetConfig "Radio" (Some 9%nat); CallClose "Radio" (Some 9%nat);
           CallClose "AirTunes" (Some 4%nat)].
Proof.
  assert (Hnd : NoDup (name <$> modules (Examples.running
                         [Examples.broken; Examples.radio; Examples.mute])))
    by (apply (bool_decide_unpack (NoDup _)); vm_compute; exact I).
  split; [exact Hnd|].
  destruct (shutdown_saves_each_section Examples.reports _ Hnd)
    as (d' & Hrun & Hin & _ & _ & Hcalls).
  exists d'. split; [exact Hrun|].
  split; [exact (Hin Examples.radio ltac:(set_solver))|].
  split; [exact (Hin Examples.mute ltac:(set_solver))|].
  split; [exact (Hin Examples.broken ltac:(set_solver))|].
  exact Hcalls.
Defined.

Lemma save_loop_effect get_config_of l : ∀ d,
  NoDup (name <$> l) →
  ∃ d', save_loop get_config_of l CfgNull d = Some d'
    ∧ (∀ m, m ∈ l →
         document d' (name m) = if get_config m then get_config_of m else None)
    ∧ (∀ n, n ∉ name <$> l → document d' n = document d n)
    ∧ modules d' = modules d.
Proof.
  induction l as [|m l IH]; intros d Hnd.
  - exists d. simpl. repeat split; try done.
    intros m Hm. by apply elem_of_nil in Hm.
  - apply NoDup_cons in Hnd as [Hm Hnd]. fold (fmap name l) in Hm, Hnd.
    cbn [save_loop].
    set (d1 := {| modules := modules d;
                  document := λ k, if bool_decide (k = name m)
                                   then (if get_config m then get_config_of m else None)
                                   else document d k;
                  disk := disk d;
                  calls := if get_config m
                           then calls d ++ [CallGetConfig (name m) (handle m)]
                           else calls d |}).
    assert (Hstep : (let '(cfg, d0) :=
                       if get_config m
                       then (cfg_of (get_config_of m),
                             record (CallGetConfig (name m) (handle m)) d)
                       else (CfgNull, d) in
                     d0 ← config_set_json (name m) cfg d0;
                     save_loop get_config_of l CfgNull d0)
                    = save_loop get_config_of l CfgNull d1).
    { unfold d1, config_set_json, cfg_of, record.
      destruct (get_config m); [destruct (get_config_of m)|]; reflexivity. }
    rewrite Hstep.
    destruct (IH d1 Hnd) as (d' & Hrun & Hin & Hout & Hmods).
    exists d'. split; [exact Hrun|]. split; [|split].
    + intros m' Hm'. apply elem_of_cons in Hm' as [->|Hm'].
      * rewrite Hout by exact Hm. simpl.
        rewrite bool_decide_eq_true_2 by reflexivity. reflexivity.
      * apply Hin. exact Hm'.
    + intros n Hn. apply not_elem_of_cons in Hn as [Hne Hn].
      rewrite Hout by exact Hn. simpl.
      rewrite bool_decide_eq_false_2 by exact Hne. reflexivity.
    + rewrite Hmods. reflexivity.
Qed.

(** [config_httpd_save] resets its local variable at the end of each
    round of the loop but not before the first: when the HTTP layer has a
    configuration and the first module has no [get_config], the value
    already passed to [json_free] is handed to [config_set_json] for that
    module.  With [json_free] releasing the value, as modelled, the
    request has no defined result. *)
Theorem save_hands_on_released_config get_config_of httpd_get_config d j m l :
  httpd_get_config = Some j →
  modules d = m :: l →
  get_config m = false →
  config_httpd_save get_config_of httpd_get_config d = None.
Proof.
  intros -> Hmods Hget. unfold config_httpd_save. simpl.
  rewrite Hmods. simpl. rewrite Hget. reflexivity.
Qed.

Lemma save_hands_on_released_config_witness :
  config_httpd_save Examples.reports (Some "httpd-section"%string)
    (Examples.running [Examples.mute; Examples.radio]) = None.
Proof.
  exact (save_hands_on_released_config Examples.reports _
           (Examples.running [Examples.mute; Examples.radio]) "httpd-section"
           Examples.mute [Examples.radio] eq_refl eq_refl eq_refl).
Defined.

Lemma config_httpd_save_effect get_config_of httpd_get_config d :
  match httpd_get_config, modules d with
  | Some _, m :: _ => get_config m = true
  | _, _ => True
  end →
  NoDup (name <$> modules d) →
  "httpd"%string ∉ name <$> modules d →
  ∃ d', config_httpd_save get_config_of httpd_get_config d = Some (200, d')
    ∧ document d' "httpd" = httpd_get_config
    ∧ (∀ m, m ∈ modules d →
         document d' (name m) = if get_config m then get_config_of m else None)
    ∧ (∀ n, n ≠ "httpd"%string → n ∉ name <$> modules d →
         document d' n = document d n)
    ∧ disk d' = document d'
    ∧ modules d' = modules d.
Proof.
  intros Hfirst Hnd Hhttpd. unfold config_httpd_save.
  set (d0 := {| modules := modules d;
                document := λ k, if bool_decide (k = "httpd"%string)
                                 then httpd_get_config else document d k;
                disk := disk d; calls := calls d |}).
  assert (Hset : config_set_json "httpd" (cfg_of httpd_get_config) d = Some d0)
    by (unfold config_set_json, cfg_of, d0; destruct httpd_get_config; reflexivity).
  rewrite Hset. cbn [mbind option_bind].
  change (modules d0) with (modules d).
  assert (Hloop : save_loop get_config_of (modules d)
                    (json_free (cfg_of httpd_get_config)) d0
                  = save_loop get_config_of (modules d) CfgNull d0).
  { destruct httpd_get_config as [j|]; [|reflexivity].
    destruct (modules d) as [|m l]; [reflexivity|].
    simpl. rewrite Hfirst. reflexivity. }
  rewrite Hloop.
  destruct (save_loop_effect get_config_of (modules d) d0 Hnd)
    as (d' & Hrun & Hin & Hout & Hmods).
  rewrite Hrun. cbn [mbind option_bind].
  exists (config_save d'). split; [reflexivity|].
  split; [|split; [|split; [|split; [reflexivity|exact Hmods]]]].
  - simpl. rewrite Hout by exact Hhttpd. reflexivity.
  - exact Hin.
  - intros n Hne Hn. simpl. rewrite Hout by exact Hn. simpl.
    rewrite bool_decide_eq_false_2 by exact Hne. reflexivity.
Qed.

(** When the first module has [get_config] or the HTTP layer has no
    configuration (so that no value already passed to [json_free] is
    handed on), and for modules with distinct names other than "httpd",
    [config_httpd_save] answers 200 with the HTTP configuration in the
    section "httpd", the configuration each module reported in its own
    section, and the section of a module without [get_config] set to null;
    the other sections are kept and the document is written to the file. *)
Theorem save_stores_reported_sections get_config_of httpd_get_config d :
  match httpd_get_config, modules d with
  | Some _, m :: _ => get_config m = true
  | _, _ => True
  end →
  NoDup (name <$> modules d) →
  "httpd"%string ∉ name <$> modules d →
  ∃ d', config_httpd_save get_config_of httpd_get_config d = Some (200, d')
    ∧ document d' "httpd" = httpd_get_config
    ∧ (∀ m, m ∈ modules d →
         document d' (name m) = if get_config m then get_config_of m else None)
    ∧ (∀ n, n ≠ "httpd"%string → n ∉ name <$> modules d →
         document d' n = document d n)
    ∧ disk d' = document d'.
Proof.
  intros Hfirst Hnd Hhttpd.
  destruct (config_httpd_save_effect get_config_of httpd_get_config d Hfirst Hnd Hhttpd)
    as (d' & Hrun & Hh & Hin & Hout & Hdisk & _).
  exists d'. repeat (split; [assumption|]). assumption.
Qed.

Lemma save_stores_reported_sections_witness :
  ∃ d', config_httpd_save Examples.reports (Some "httpd-section"%string)
          (Examples.running [Examples.radio; Examples.mute]) = Some (200, d')
    ∧ disk d' "httpd" = Some "httpd-section"%string
    ∧ disk d' "Radio" = Some "radio-section"%string
    ∧ document (Examples.running [Examples.radio; Examples.mute]) "AirTunes"
      = Some "airtunes-section"%string
    ∧ disk d' "AirTunes" = None.
Proof.
  assert (Hnd : NoDup (name <$> modules (Examples.running
                         [Examples.radio; Examples.mute])))
    by (apply (bool_decide_unpack (NoDup _)); vm_compute; exact I).
  assert (Hh : "httpd"%string ∉ name <$> modules (Examples.running
                                   [Examples.radio; Examples.mute])).
  { apply (bool_decide_unpack (_ ∉ _)). vm_compute. exact I. }
  destruct (save_stores_reported_sections Examples.reports
              (Some "httpd-section"%string)
              (Examples.running [Examples.radio; Examples.mute]) eq_refl Hnd Hh)
    as (d' & Hrun & Hhttpd & Hin & _ & Hdisk).
  exists d'. split; [exact Hrun|]. rewrite Hdisk.
  split; [exact Hhttpd|].
  split; [exact (Hin Examples.radio ltac:(set_solver))|].
  split; [reflexivity|].
  exact (Hin Examples.mute ltac:(set_solver)).
Defined.

Lemma get_loop_grows get_config_of resource l : ∀ tmp acc x,
  x ∈ acc → x ∈ get_loop get_config_of resource l tmp acc.
Proof.
  induction l as [|m l IH]; intros tmp acc x Hx; simpl; [exact Hx|].
  destruct (if get_config m then get_config_of m else tmp); [|by apply IH].
  apply IH. destruct (selects resource (name m)); [|exact Hx].
  apply elem_of_app. by left.
Qed.

Lemma get_loop_keys get_config_of r l : ∀ tmp acc,
  r ≠ ""%string →
  (∀ kv, kv ∈ acc → kv.1 = r) →
  ∀ kv, kv ∈ get_loop get_config_of (Some r) l tmp acc → kv.1 = r.
Proof.
  induction l as [|m l IH]; intros tmp acc Hr Hacc kv; simpl; [by apply Hacc|].
  destruct (if get_config m then get_config_of m else tmp); [|by apply IH].
  apply IH; [exact Hr|].
  destruct (bool_decide (r = ""%string) || bool_decide (r = name m)) eqn:E; [|exact Hacc].
  intros kv' Hin. apply elem_of_app in Hin as [Hin|Hin]; [by apply Hacc|].
  apply list_elem_of_singleton in Hin as ->. simpl.
  apply orb_true_iff in E as [E|E]; apply bool_decide_eq_true in E; congruence.
Qed.

Lemma get_loop_stale get_config_of resource l1 p m l2 c :
  get_config p = true → get_config_of p = Some c →
  get_config m = false → selects resource (name m) = true →
  ∀ tmp acc,
    (name m, c) ∈ get_loop get_config_of resource (l1 ++ p :: m :: l2) tmp acc.
Proof.
  intros Hp Hc Hm Hsel.
  induction l1 as [|m1 l1 IH]; intros tmp acc.
  - simpl. rewrite Hp, Hc, Hm, Hsel.
    apply get_loop_grows. apply elem_of_app. right. apply list_elem_of_here.
  - simpl. destruct (if get_config m1 then get_config_of m1 else tmp); apply IH.
Qed.

(** The GET branch of [config_httpd] keeps the last configuration in its
    local variable.  A module without [get_config] is therefore answered
    under its own name with the configuration of the module before it, and
    the first module with that of the HTTP layer.  With a section name in
    the request, every member of the answer carries that name. *)
Theorem config_get_repeats_previous_section get_config_of httpd_get_config d resource :
  (∀ l1 p m l2 c,
     modules d = l1 ++ p :: m :: l2 →
     get_config p = true → get_config_of p = Some c →
     get_config m = false → selects resource (name m) = true →
     (name m, c) ∈ (config_httpd_get get_config_of httpd_get_config resource d).2)
  ∧ (∀ m l c,
       modules d = m :: l → httpd_get_config = Some c →
       get_config m = false → selects resource (name m) = true →
       (name m, c) ∈ (config_httpd_get get_config_of httpd_get_config resource d).2)
  ∧ (∀ r, resource = Some r → r ≠ ""%string →
       ∀ kv, kv ∈ (config_httpd_get get_config_of httpd_get_config resource d).2 →
             kv.1 = r)
  ∧ (config_httpd_get get_config_of httpd_get_config resource d).1 = 200.
Proof.
  split; [|split; [|split; [|reflexivity]]].
  - intros l1 p m l2 c Hmods Hp Hc Hm Hsel. unfold config_httpd_get. cbn [snd].
    rewrite Hmods. by apply get_loop_stale.
  - intros m l c Hmods -> Hm Hsel. unfold config_httpd_get. simpl.
    rewrite Hmods. simpl. rewrite Hm, Hsel.
    apply get_loop_grows. apply elem_of_app. right. apply list_elem_of_here.
  - intros r -> Hr kv. unfold config_httpd_get. cbn [snd].
    apply get_loop_keys; [exact Hr|].
    intros kv'. destruct httpd_get_config; [|by intros ?%elem_of_nil].
    destruct (selects (Some r) "httpd") eqn:E; [|by intros ?%elem_of_nil].
    intros ->%list_elem_of_singleton. simpl.
    apply orb_true_iff in E as [E|E]; apply bool_decide_eq_true in E; congruence.
Qed.

Lemma config_get_repeats_previous_section_witness :
  modules (Examples.running [Examples.radio; Examples.mute])
  = [] ++ Examples.radio :: Examples.mute :: []
  ∧ ("AirTunes"%string, "radio-section"%string)
    ∈ (config_httpd_get Examples.reports None (Some "AirTunes"%string)
         (Examples.running [Examples.radio; Examples.mute])).2.
Proof.
  assert (Hmods : modules (Examples.running [Examples.radio; Examples.mute])
                  = [] ++ Examples.radio :: Examples.mute :: []) by reflexivity.
  split; [exact Hmods|].
  exact (proj1 (config_get_repeats_previous_section Examples.reports None
                  (Examples.running [Examples.radio; Examples.mute])
                  (Some "AirTunes"%string))
           [] Examples.radio Examples.mute [] "radio-section"%string
           Hmods eq_refl eq_refl eq_refl eq_refl).
Defined.

Lemma put_fold_effect (k : string) (j : json) l : ∀ d,
  let d' := foldl (λ d m, if bool_decide (k = name m) && set_config m
                          then record (CallSetConfig (name m) (handle m) (Some j)) d
                          else d) d l in
  document d' = document d ∧ disk d' = disk d ∧ modules d' = modules d
  ∧ calls d' = calls d ++
      ((λ m, CallSetConfig (name m) (handle m) (Some j))
         <$> filter (λ m, k = name m ∧ set_config m = true) l).
Proof.
  induction l as [|m l IH]; intros d; simpl; [by rewrite app_nil_r|].
  destruct (bool_decide (k = name m) && set_config m) eqn:E.
  - destruct (IH (record (CallSetConfig (name m) (handle m) (Some j)) d))
      as (Hdoc & Hdisk & Hmods & Hcalls).
    rewrite Hdoc, Hdisk, Hmods, Hcalls.
    apply andb_true_iff in E as [E1%bool_decide_eq_true E2].
    rewrite filter_cons_True by done.
    simpl. rewrite <- app_assoc. done.
  - destruct (IH d) as (Hdoc & Hdisk & Hmods & Hcalls).
    rewrite Hdoc, Hdisk, Hmods, Hcalls.
    rewrite filter_cons_False; [done|].
    intros [E1 E2]. rewrite bool_decide_eq_true_2, E2 in E by exact E1. discriminate.
Qed.

Lemma put_entry_effect resource d kv :
  document (put_entry resource d kv) = document d
  ∧ disk (put_entry resource d kv) = disk d
  ∧ modules (put_entry resource d kv) = modules d
  ∧ calls (put_entry resource d kv)
    = calls d ++ put_calls resource (modules d) kv.
Proof.
  unfold put_entry, put_calls.
  destruct (negb (selects resource kv.1)); [by rewrite app_nil_r|].
  destruct (bool_decide (kv.1 = "httpd"%string)); [done|].
  apply put_fold_effect.
Qed.

(** The PUT branch of [config_httpd] answers 200 whatever the body holds
    and changes neither the document nor the file.  Each member of the
    body that the request selects is applied: the member "httpd" to the
    HTTP layer alone, any other member to every module of that name that
    has [set_config].  A member that names no module has no effect, and no
    module named "httpd" is ever configured this way. *)
Theorem config_put_applies_selected_sections resource body d :
  (config_httpd_put resource body d).1 = 200
  ∧ document (config_httpd_put resource body d).2 = document d
  ∧ disk (config_httpd_put resource body d).2 = disk d
  ∧ modules (config_httpd_put resource body d).2 = modules d
  ∧ calls (config_httpd_put resource body d).2
    = calls d ++ flat_map (put_calls resource (modules d)) body
  ∧ Forall (λ c, match c with
                 | CallSetConfig n h v =>
                     n ≠ "httpd"%string ∧ selects resource n = true
                     ∧ (∃ m j, m ∈ modules d ∧ set_config m = true ∧ n = name m
                               ∧ h = handle m ∧ v = Some j ∧ (n, j) ∈ body)
                 | CallHttpdSetConfig v =>
                     selects resource "httpd" = true
                     ∧ ∃ j, v = Some j ∧ ("httpd"%string, j) ∈ body
                 | _ => False
                 end)
      (flat_map (put_calls resource (modules d)) body).
Proof.
  split; [reflexivity|]. unfold config_httpd_put. cbn [snd].
  assert (Hfold : ∀ body d,
            document (foldl (put_entry resource) d body) = document d
            ∧ disk (foldl (put_entry resource) d body) = disk d
            ∧ modules (foldl (put_entry resource) d body) = modules d
            ∧ calls (foldl (put_entry resource) d body)
              = calls d ++ flat_map (put_calls resource (modules d)) body).
  { clear. intros body. induction body as [|kv body IH]; intros d; simpl.
    - by rewrite app_nil_r.
    - destruct (put_entry_effect resource d kv) as (Hdoc & Hdisk & Hmods & Hcalls).
      destruct (IH (put_entry resource d kv)) as (Hdoc' & Hdisk' & Hmods' & Hcalls').
      rewrite Hdoc', Hdisk', Hmods', Hcalls', Hdoc, Hdisk, Hmods, Hcalls.
      by rewrite <- app_assoc. }
  destruct (Hfold body d) as (Hdoc & Hdisk & Hmods & Hcalls).
  do 4 (split; [assumption|]).
  apply Forall_forall. intros c Hc.
  apply list_elem_of_In, in_flat_map in Hc as ([k j] & Hkv%list_elem_of_In & Hc).
  apply list_elem_of_In in Hc. unfold put_calls in Hc. simpl in Hc.
  destruct (selects resource k) eqn:Esel; simpl in Hc; [|by apply elem_of_nil in Hc].
  destruct (bool_decide (k = "httpd"%string)) eqn:Ek.
  - apply list_elem_of_singleton in Hc as ->.
    apply bool_decide_eq_true in Ek as ->. split; [exact Esel|]. eauto.
  - apply bool_decide_eq_false in Ek.
    apply list_elem_of_fmap in Hc as (m & -> & Hm).
    apply list_elem_of_filter in Hm as [[-> Hset] Hm].
    split; [exact Ek|]. split; [exact Esel|].
    exists m, j. repeat split; assumption.
Qed.

Lemma foldl_set_config (v : daemon → module → option json) l : ∀ d,
  (∀ d c m, v (record c d) m = v d m) →
  let d' := foldl (λ d m, if set_config m
                          then record (CallSetConfig (name m) (handle m) (v d m)) d
                          else d) d l in
  document d' = document d ∧ disk d' = disk d ∧ modules d' = modules d
  ∧ calls d' = calls d ++
      ((λ m, CallSetConfig (name m) (handle m) (v d m)) <$> configurable l).
Proof.
  intros d Hv. revert d. unfold configurable.
  induction l as [|m l IH]; intros d; simpl; [by rewrite app_nil_r|].
  destruct (set_config m) eqn:E.
  - destruct (IH (record (CallSetConfig (name m) (handle m) (v d m)) d))
      as (Hdoc & Hdisk & Hmods & Hcalls).
    rewrite Hdoc, Hdisk, Hmods, Hcalls. rewrite filter_cons_True by exact E.
    simpl. rewrite <- app_assoc. repeat split.
    do 2 f_equal. apply list_fmap_ext. intros ? m' _. by rewrite Hv.
  - destruct (IH d) as (Hdoc & Hdisk & Hmods & Hcalls).
    rewrite Hdoc, Hdisk, Hmods, Hcalls.
    rewrite filter_cons_False by (rewrite E; discriminate). done.
Qed.

Lemma config_httpd_reload_effect d :
  (config_httpd_reload d).1 = 200
  ∧ document (config_httpd_reload d).2 = disk d
  ∧ disk (config_httpd_reload d).2 = disk d
  ∧ calls (config_httpd_reload d).2
    = calls d ++ CallHttpdSetConfig (disk d "httpd")
        :: ((λ m, CallSetConfig (name m) (handle m) (disk d (name m)))
              <$> configurable (modules d)).
Proof.
  split; [reflexivity|]. unfold config_httpd_reload. cbn [snd].
  destruct (foldl_set_config (λ d m, config_get_json d (name m)) (modules d)
              (record (CallHttpdSetConfig (config_get_json (config_load d) "httpd"))
                 (config_load d)))
    as (Hdoc & Hdisk & _ & Hcalls); [done|].
  cbv zeta in *.
  change (modules (record _ (config_load d))) with (modules d).
  rewrite Hdoc, Hdisk, Hcalls. simpl. rewrite <- app_assoc. done.
Qed.

(** /config/default hands a null configuration to the HTTP layer and to
    every module that has [set_config], and leaves document and file
    alone.  /config/reload replaces the document by the sections of the
    file, whatever it held, and hands each of them to its module. *)
Theorem default_and_reload_push_sections d :
  ((config_httpd_default d).1 = 200
   ∧ document (config_httpd_default d).2 = document d
   ∧ disk (config_httpd_default d).2 = disk d
   ∧ calls (config_httpd_default d).2
     = calls d ++ CallHttpdSetConfig None
         :: ((λ m, CallSetConfig (name m) (handle m) None) <$> configurable (modules d)))
  ∧ ((config_httpd_reload d).1 = 200
     ∧ document (config_httpd_reload d).2 = disk d
     ∧ disk (config_httpd_reload d).2 = disk d
     ∧ calls (config_httpd_reload d).2
       = calls d ++ CallHttpdSetConfig (disk d "httpd")
           :: ((λ m, CallSetConfig (name m) (handle m) (disk d (name m)))
                 <$> configurable (modules d))).
Proof.
  split.
  - split; [reflexivity|]. unfold config_httpd_default. cbn [snd].
    destruct (foldl_set_config (λ _ _, None) (modules d)
                (record (CallHttpdSetConfig None) d))
      as (Hdoc & Hdisk & _ & Hcalls); [done|].
    cbv zeta in *. change (modules (record _ d)) with (modules d).
    rewrite Hdoc, Hdisk, Hcalls. simpl. rewrite <- app_assoc. done.
  - apply config_httpd_reload_effect.
Qed.

(** A save followed by a reload gives back what was reported: every
    module that has [set_config] receives the configuration it returned
    from [get_config] (null when it has none), and the HTTP layer its own. *)
Theorem reload_after_save_returns_reports get_config_of httpd_get_config d :
  match httpd_get_config, modules d with
  | Some _, m :: _ => get_config m = true
  | _, _ => True
  end →
  NoDup (name <$> modules d) →
  "httpd"%string ∉ name <$> modules d →
  ∃ d1, config_httpd_save get_config_of httpd_get_config d = Some (200, d1)
    ∧ calls (config_httpd_reload d1).2
      = calls d1 ++ CallHttpdSetConfig httpd_get_config
          :: ((λ m, CallSetConfig (name m) (handle m)
                      (if get_config m then get_config_of m else None))
                <$> configurable (modules d)).
Proof.
  intros Hfirst Hnd Hhttpd.
  destruct (config_httpd_save_effect get_config_of httpd_get_config d Hfirst Hnd Hhttpd)
    as (d1 & Hrun & Hh & Hin & _ & Hdisk & Hmods).
  exists d1. split; [exact Hrun|].
  destruct (config_httpd_reload_effect d1) as (_ & _ & _ & Hcalls).
  rewrite Hcalls, Hdisk, Hh, Hmods. do 2 f_equal.
  apply list_fmap_ext. intros ? m Hm. rewrite Hin; [reflexivity|].
  unfold configurable in Hm. apply list_elem_of_lookup_2 in Hm.
  by apply list_elem_of_filter in Hm as [_ Hm].
Qed.

Lemma reload_after_save_returns_reports_witness :
  ∃ d1, config_httpd_save Examples.reports (Some "httpd-section"%string)
          (Examples.running [Examples.radio; Examples.mute]) = Some (200, d1)
    ∧ calls (config_httpd_reload d1).2
      = calls d1 ++ CallHttpdSetConfig (Some "httpd-section"%string)
          :: ((λ m, CallSetConfig (name m) (handle m)
                      (if get_config m then Examples.reports m else None))
                <$> configurable [Examples.radio; Examples.mute]).
Proof.
  assert (Hnd : NoDup (name <$> modules (Examples.running
                         [Examples.radio; Examples.mute])))
    by (apply (bool_decide_unpack (NoDup _)); vm_compute; exact I).
  assert (Hh : "httpd"%string ∉ name <$> modules (Examples.running
                                   [Examples.radio; Examples.mute])).
  { apply (bool_decide_unpack (_ ∉ _)). vm_compute. exact I. }
  exact (reload_after_save_returns_reports Examples.reports
           (Some "httpd-section"%string)
           (Examples.running [Examples.radio; Examples.mute]) eq_refl Hnd Hh).
Defined.

End MainProofs.
